(* ===================================================================== *)
(* webnative-cas: a shallow embedding of the ZIP ingest pipeline         *)
(* (src/README.md: upload_zip; src/unnamed/part_001: central directory;  *)
(*  src/unnamed/part_000: zip_stream; src/src/server.ts; store/cas.ts)   *)
(* ===================================================================== *)

From Stdlib Require Import ZArith Lia String Ascii.
From stdpp Require Import base list gmap sorting.

Open Scope Z_scope.

(* --------------------------------------------------------------------- *)
(* Bytes, strings and Buffer reads                                       *)
(* --------------------------------------------------------------------- *)

(** A Node [Buffer] is a list of byte values (0..255). *)
Abbreviation buffer := (list Z).

(** A JS string as the code handles it: the sequence of its characters.
    Names come from decoders that never produce lone surrogates, so the
    string operations used (split, startsWith, includes, replace, join)
    agree on code units and code points; we keep code points. *)
Abbreviation str := (list Z).

(** ASCII literal to [str]. *)
Definition s2z (s : string) : str :=
  map (fun a => Z.of_nat (nat_of_ascii a)) (list_ascii_of_string s).

Definition byte_range (b : Z) : Prop := 0 <= b < 256.

(** [buf.subarray(a, b)] (bounds clamped, as Node does). *)
Definition subarray (b : buffer) (a e : Z) : buffer :=
  let a' := Z.to_nat (Z.max 0 a) in
  let e' := Z.to_nat (Z.max 0 e) in
  take (e' - a') (drop a' b).

(** Little-endian unsigned value of a byte list. *)
Fixpoint le_value (bs : buffer) : Z :=
  match bs with
  | [] => 0
  | b :: r => b + 256 * le_value r
  end.

(** [readUIntNLE(off)] on a buffer: a [RangeError] when out of bounds. *)
Definition read_le (n : nat) (b : buffer) (off : Z) : option Z :=
  if (0 <=? off) && (off + Z.of_nat n <=? Z.of_nat (length b))
  then Some (le_value (take n (drop (Z.to_nat off) b)))
  else None.

Definition u16 := read_le 2.
Definition u32 := read_le 4.
Definition u64 := read_le 8.

(** A read of [len] bytes at [pos] from a file into a zero-filled
    buffer ([Buffer.alloc(len)] followed by [fh.read]): bytes past EOF
    stay zero. *)
Definition file_read (file : buffer) (pos len : Z) : buffer :=
  let got := take (Z.to_nat len) (drop (Z.to_nat pos) file) in
  got ++ replicate (Z.to_nat len - length got) 0.

(* --------------------------------------------------------------------- *)
(* JS string helpers                                                     *)
(* --------------------------------------------------------------------- *)

Fixpoint starts_with (p s : str) : bool :=
  match p, s with
  | [], _ => true
  | c :: p', d :: s' => (c =? d) && starts_with p' s'
  | _ :: _, [] => false
  end.

Definition ends_with (s suf : str) : bool := starts_with (rev suf) (rev s).

(** [s.split(sep)] for a one-character separator. *)
Fixpoint split_on (sep : Z) (s : str) : list str :=
  match s with
  | [] => [[]]
  | c :: r =>
      if c =? sep then [] :: split_on sep r
      else match split_on sep r with
           | w :: ws => (c :: w) :: ws
           | [] => [[c]]
           end
  end.

(** [parts.join(sep)]. *)
Fixpoint join_with (sep : str) (ws : list str) : str :=
  match ws with
  | [] => []
  | [w] => w
  | w :: ws' => w ++ sep ++ join_with sep ws'
  end.

Definition str_eqb (a b : str) : bool := bool_decide (a = b).

(** The characters [String.prototype.trim] removes. *)
Definition js_space (c : Z) : bool :=
  existsb (Z.eqb c)
    [9; 10; 11; 12; 13; 32; 160; 5760; 8192; 8193; 8194; 8195; 8196;
     8197; 8198; 8199; 8200; 8201; 8202; 8232; 8233; 8239; 8287; 12288;
     65279].

Fixpoint drop_spaces (s : str) : str :=
  match s with
  | c :: r => if js_space c then drop_spaces r else s
  | [] => []
  end.

Definition js_trim (s : str) : str := rev (drop_spaces (rev (drop_spaces s))).

(** Decimal rendering of a non-negative integer ([`${n}`]). *)
Fixpoint uint_digits (d : Decimal.uint) : str :=
  match d with
  | Decimal.Nil => []
  | Decimal.D0 r => 48 :: uint_digits r
  | Decimal.D1 r => 49 :: uint_digits r
  | Decimal.D2 r => 50 :: uint_digits r
  | Decimal.D3 r => 51 :: uint_digits r
  | Decimal.D4 r => 52 :: uint_digits r
  | Decimal.D5 r => 53 :: uint_digits r
  | Decimal.D6 r => 54 :: uint_digits r
  | Decimal.D7 r => 55 :: uint_digits r
  | Decimal.D8 r => 56 :: uint_digits r
  | Decimal.D9 r => 57 :: uint_digits r
  end.

Definition show_Z (n : Z) : str := uint_digits (N.to_uint (Z.to_N n)).

(** UTF-8 encoding of a string ([Buffer.from(s, 'utf8')]). *)
Definition utf8_char (c : Z) : buffer :=
  if c <? 128 then [c]
  else if c <? 2048 then [192 + Z.shiftr c 6; 128 + Z.land c 63]
  else if c <? 65536 then
    [224 + Z.shiftr c 12; 128 + Z.land (Z.shiftr c 6) 63; 128 + Z.land c 63]
  else [240 + Z.shiftr c 18; 128 + Z.land (Z.shiftr c 12) 63;
        128 + Z.land (Z.shiftr c 6) 63; 128 + Z.land c 63].

Definition utf8_encode (s : str) : buffer := flat_map utf8_char s.

(** Lowercase hex rendering ([digest('hex')]). *)
Definition hex_digit (d : Z) : Z := if d <? 10 then 48 + d else 87 + d.

Definition hex_of_bytes (bs : buffer) : str :=
  flat_map (fun b => [hex_digit (Z.shiftr b 4); hex_digit (Z.land b 15)]) bs.

(* --------------------------------------------------------------------- *)
(* JS 32-bit integer operators                                           *)
(* --------------------------------------------------------------------- *)

(** ToUint32 / ToInt32 of an integral Number. *)
Definition to_uint32 (x : Z) : Z := x mod 2 ^ 32.
Definition to_int32 (x : Z) : Z :=
  let u := to_uint32 x in if 2 ^ 31 <=? u then u - 2 ^ 32 else u.

(** [a ^ b], [a & b] and [a >>> n] on Numbers. *)
Definition js_xor (a b : Z) : Z := to_int32 (Z.lxor (to_uint32 a) (to_uint32 b)).
Definition js_and (a b : Z) : Z := to_int32 (Z.land (to_uint32 a) (to_uint32 b)).
Definition js_ushr (a n : Z) : Z := Z.shiftr (to_uint32 a) (n mod 32).

(* --------------------------------------------------------------------- *)
(* CRC-32 (upload_zip: CRC32_TABLE, crc32Update)                         *)
(* --------------------------------------------------------------------- *)

Definition crc32_table_step (c : Z) : Z :=
  if negb (js_and c 1 =? 0) then js_xor 0xEDB88320 (js_ushr c 1) else js_ushr c 1.

(** [CRC32_TABLE]: a [Uint32Array(256)], entry [i] is [c >>> 0] after
    eight steps from [c = i]. *)
Definition CRC32_TABLE : list Z :=
  map (fun i => js_ushr (Nat.iter 8 crc32_table_step (Z.of_nat i)) 0) (seq 0 256).

Definition table_at (t : list Z) (i : Z) : Z := nth (Z.to_nat i) t 0.

(** [crc32Update(crc, buf)]. *)
Definition crc32Update (crc : Z) (buf : buffer) : Z :=
  let crc := js_xor crc 0xFFFFFFFF in
  let crc := fold_left (fun crc b =>
               js_xor (table_at CRC32_TABLE (js_and (js_xor crc b) 0xFF))
                      (js_ushr crc 8)) buf crc in
  js_ushr (js_xor crc 0xFFFFFFFF) 0.

(** The CRC-32 of the spec (section 4.5): polynomial 0xEDB88320, start
    from 0, XOR with 0xFFFFFFFF, byte-wise table update, final XOR and
    32-bit mask, over unsigned integers. *)
Definition crc_table_spec : list Z :=
  map (fun i => Nat.iter 8 (fun c => if Z.odd c then Z.lxor 0xEDB88320 (Z.shiftr c 1)
                                     else Z.shiftr c 1) (Z.of_nat i)) (seq 0 256).

Definition crc_spec_step (crc b : Z) : Z :=
  Z.lxor (table_at crc_table_spec (Z.land (Z.lxor crc b) 0xFF)) (Z.shiftr crc 8).

Definition crc32_spec (bs : buffer) : Z :=
  Z.land (Z.lxor (fold_left crc_spec_step bs (Z.lxor 0 0xFFFFFFFF)) 0xFFFFFFFF)
         0xFFFFFFFF.

(* --------------------------------------------------------------------- *)
(* SHA-256 ([createHash('sha256')], FIPS 180-4)                          *)
(* --------------------------------------------------------------------- *)

Module Sha256.

Definition mask32 : Z := Z.ones 32.
Definition add32 (a b : Z) : Z := (a + b) mod 2 ^ 32.
Definition rotr (x n : Z) : Z :=
  Z.lor (Z.shiftr x n) (Z.land (Z.shiftl x (32 - n)) mask32).

Definition ch (e f g : Z) : Z := Z.lxor (Z.land e f) (Z.land (Z.lxor e mask32) g).
Definition maj (a b c : Z) : Z :=
  Z.lxor (Z.lxor (Z.land a b) (Z.land a c)) (Z.land b c).
Definition bsig0 (a : Z) : Z := Z.lxor (Z.lxor (rotr a 2) (rotr a 13)) (rotr a 22).
Definition bsig1 (e : Z) : Z := Z.lxor (Z.lxor (rotr e 6) (rotr e 11)) (rotr e 25).
Definition ssig0 (x : Z) : Z := Z.lxor (Z.lxor (rotr x 7) (rotr x 18)) (Z.shiftr x 3).
Definition ssig1 (x : Z) : Z := Z.lxor (Z.lxor (rotr x 17) (rotr x 19)) (Z.shiftr x 10).

(** The constant tables, written as 32-bit words of eight hex digits
    separated by blanks. *)
Definition hex_value (c : Z) : Z := if c <=? 57 then c - 48 else c - 87.

Fixpoint hex_words_go (cs : list Z) (acc : Z) (k : nat) : list Z :=
  match cs with
  | [] => []
  | c :: cs' =>
      if (c =? 32) || (c =? 10) then hex_words_go cs' acc k else
      let acc' := acc * 16 + hex_value c in
      if Nat.eqb k 7 then acc' :: hex_words_go cs' 0 0 else hex_words_go cs' acc' (S k)
  end.

Definition hex_words (s : string) : list Z := hex_words_go (s2z s) 0 0.

(** FIPS 180-4, 4.2.2: the first 32 bits of the fractional parts of the
    cube roots of the first 64 primes. *)
Definition K : list Z := Eval vm_compute in hex_words
  "428a2f98 71374491 b5c0fbcf e9b5dba5 3956c25b 59f111f1 
   923f82a4 ab1c5ed5 d807aa98 12835b01 243185be 550c7dc3 
   72be5d74 80deb1fe 9bdc06a7 c19bf174 e49b69c1 efbe4786 
   0fc19dc6 240ca1cc 2de92c6f 4a7484aa 5cb0a9dc 76f988da 
   983e5152 a831c66d b00327c8 bf597fc7 c6e00bf3 d5a79147 
   06ca6351 14292967 27b70a85 2e1b2138 4d2c6dfc 53380d13 
   650a7354 766a0abb 81c2c92e 92722c85 a2bfe8a1 a81a664b 
   c24b8b70 c76c51a3 d192e819 d6990624 f40e3585 106aa070 
   19a4c116 1e376c08 2748774c 34b0bcb5 391c0cb3 4ed8aa4a 
   5b9cca4f 682e6ff3 748f82ee 78a5636f 84c87814 8cc70208 
   90befffa a4506ceb bef9a3f7 c67178f2".

(** FIPS 180-4, 5.3.3: the initial hash value. *)
Definition H0 : list Z := Eval vm_compute in hex_words
  "6a09e667 bb67ae85 3c6ef372 a54ff53a 510e527f 9b05688c 
   1f83d9ab 5be0cd19".

Fixpoint be_value (bs : buffer) (acc : Z) : Z :=
  match bs with [] => acc | b :: r => be_value r (acc * 256 + b) end.

Definition be_bytes (n : nat) (x : Z) : buffer :=
  map (fun i => Z.land (Z.shiftr x (8 * Z.of_nat (n - 1 - i))) 255) (seq 0 n).

Fixpoint chunks (n : nat) (fuel : nat) (bs : buffer) : list buffer :=
  match fuel with
  | O => []
  | S f => match bs with [] => [] | _ => take n bs :: chunks n f (drop n bs) end
  end.

Definition pad (msg : buffer) : buffer :=
  let len := Z.of_nat (length msg) in
  msg ++ [128] ++ replicate (Z.to_nat ((55 - len) mod 64)) 0 ++ be_bytes 8 (8 * len).

Definition schedule (block : buffer) : list Z :=
  let w16 := map (fun c => be_value c 0) (chunks 4 16 block) in
  Nat.iter 48 (fun w =>
    let t := length w in
    w ++ [add32 (add32 (ssig1 (nth (t - 2) w 0)) (nth (t - 7) w 0))
                (add32 (ssig0 (nth (t - 15) w 0)) (nth (t - 16) w 0))]) w16.

Definition round (st : list Z) (kw : Z * Z) : list Z :=
  match st with
  | [a; b; c; d; e; f; g; h] =>
      let t1 := add32 (add32 (add32 (add32 h (bsig1 e)) (ch e f g)) kw.1) kw.2 in
      let t2 := add32 (bsig0 a) (maj a b c) in
      [add32 t1 t2; a; b; c; add32 d t1; e; f; g]
  | _ => st
  end.

Definition compress (hs : list Z) (block : buffer) : list Z :=
  let st := fold_left round (zip K (schedule block)) hs in
  zip_with add32 hs st.

Definition digest (msg : buffer) : buffer :=
  let p := pad msg in
  flat_map (be_bytes 4) (fold_left compress (chunks 64 (length p) p) H0).

End Sha256.

(** [createHash('sha256').update(bytes).digest('hex')]. *)
Definition sha256_hex (bs : buffer) : str := hex_of_bytes (Sha256.digest bs).

(* --------------------------------------------------------------------- *)
(* Errors, results and the ingest monad                                  *)
(* --------------------------------------------------------------------- *)

(** The errors the ingest code throws, by their messages. *)
Inductive error :=
  | UnexpectedEOF                       (* 'Unexpected EOF' (byte queue) *)
  | EntryTooLarge                       (* 'Entry too large' *)
  | UnsupportedCompressionMethod (m : Z)
  | Zip64CsizeMissing | Zip64UsizeMissing
  | TooManyEntries | FileTooLarge | TotalTooLarge
  | SizeMismatchLH | CrcMismatchLH      (* '... mismatch (local header)' *)
  | SizeMismatchDD | CrcMismatchDD      (* '... mismatch (DD)' *)
  | InflateError                        (* zlib raw-inflate failure *)
  | ZipTooLarge
  | EOCDNotFound | Zip64EOCDNotFound
  | Zip64UsizeMissingCentral | Zip64CsizeMissingCentral
  | Zip64OffsetMissingCentral
  | RangeError                          (* Buffer read or stream range *)
  | UnsupportedMethodCD (m : Z)
  | InvalidFilenameNUL | AbsolutePathsNotAllowed | ParentPathNotAllowed
  | SizeMismatchCD (p : str) | CrcMismatchCD (p : str)
  | LocalHeaderSignatureMismatch
  | FallbackSizeMismatch (p : str) | FallbackCrcMismatch (p : str)
  | UnsupportedMethodFallback (m : Z)
  | FsWriteError (path : str).          (* writeFile / rename rejected *)

Inductive res (A : Type) := Ok (a : A) | Err (e : error).
Arguments Ok {A} a.
Arguments Err {A} e.

Definition res_bind {A B} (r : res A) (k : A -> res B) : res B :=
  match r with Ok a => k a | Err e => Err e end.

Definition of_option {A} (e : error) (o : option A) : res A :=
  match o with Some a => Ok a | None => Err e end.

Definition res_map {A B} (f : A -> B) (r : res A) : res B :=
  match r with Ok a => Ok (f a) | Err e => Err e end.

Notation "x <-? r ;; k" := (res_bind r (fun x => k))
  (at level 100, r at next level, right associativity).

(* --------------------------------------------------------------------- *)
(* Path normalization (upload_zip: normalizeZipPath)                     *)
(* --------------------------------------------------------------------- *)

Definition SLASH : Z := 47.
Definition BACKSLASH : Z := 92.
Definition DOT : Z := 46.

(** [while (p.startsWith('./')) p = p.slice(2);] *)
Fixpoint strip_dot_slash (p : str) : str :=
  match p with
  | c :: d :: r => if (c =? DOT) && (d =? SLASH) then strip_dot_slash r else p
  | _ => p
  end.

(** The [for (const part of parts)] loop, [out] being the array built. *)
Fixpoint normalize_parts (parts : list str) (out : list str) : res (list str) :=
  match parts with
  | [] => Ok out
  | part :: rest =>
      if str_eqb part [] || str_eqb part [DOT] then normalize_parts rest out
      else if str_eqb part [DOT; DOT] then Err ParentPathNotAllowed
      else normalize_parts rest (out ++ [part])
  end.

Definition normalizeZipPath (p : str) : res str :=
  if existsb (Z.eqb 0) p then Err InvalidFilenameNUL else
  let p := map (fun c => if c =? BACKSLASH then SLASH else c) p in
  let p := strip_dot_slash p in
  if starts_with [SLASH] p then Err AbsolutePathsNotAllowed else
  out <-? normalize_parts (split_on SLASH p) [] ;;
  Ok (join_with [SLASH] out).

(** Section 4.6 of the spec, step by step: reject NUL, replace [\] by
    [/], strip leading [./], reject a leading [/], split on [/] keeping
    the components that are neither empty nor [.], reject any [..]
    among them, rejoin with [/]. *)
Definition normalize_path_spec (p : str) : res str :=
  if existsb (Z.eqb 0) p then Err InvalidFilenameNUL else
  let p := map (fun c => if c =? BACKSLASH then SLASH else c) p in
  let p := strip_dot_slash p in
  if starts_with [SLASH] p then Err AbsolutePathsNotAllowed else
  let comps := List.filter (fun c => negb (str_eqb c [] || str_eqb c [DOT]))
                      (split_on SLASH p) in
  if existsb (fun c => str_eqb c [DOT; DOT]) comps then Err ParentPathNotAllowed
  else Ok (join_with [SLASH] comps).

(* --------------------------------------------------------------------- *)
(* UTF-8 decoding ([buf.toString('utf8')], WHATWG with U+FFFD)           *)
(* --------------------------------------------------------------------- *)

Record utf8_state := { u_cp : Z; u_needed : Z; u_seen : Z; u_lower : Z; u_upper : Z }.

Definition utf8_reset : utf8_state := Build_utf8_state 0 0 0 0x80 0xBF.

(** A byte read with no sequence in progress. *)
Definition utf8_lead (b : Z) : utf8_state * list Z :=
  if b <=? 0x7F then (utf8_reset, [b])
  else if (0xC2 <=? b) && (b <=? 0xDF) then
    (Build_utf8_state (Z.land b 0x1F) 1 0 0x80 0xBF, [])
  else if (0xE0 <=? b) && (b <=? 0xEF) then
    (Build_utf8_state (Z.land b 0xF) 2 0 (if b =? 0xE0 then 0xA0 else 0x80)
                      (if b =? 0xED then 0x9F else 0xBF), [])
  else if (0xF0 <=? b) && (b <=? 0xF4) then
    (Build_utf8_state (Z.land b 7) 3 0 (if b =? 0xF0 then 0x90 else 0x80)
                      (if b =? 0xF4 then 0x8F else 0xBF), [])
  else (utf8_reset, [0xFFFD]).

Definition utf8_step (st : utf8_state) (b : Z) : utf8_state * list Z :=
  if u_needed st =? 0 then utf8_lead b
  else if negb ((u_lower st <=? b) && (b <=? u_upper st)) then
    let '(st', out) := utf8_lead b in (st', 0xFFFD :: out)
  else
    let cp := Z.lor (Z.shiftl (u_cp st) 6) (Z.land b 0x3F) in
    if u_seen st + 1 =? u_needed st then (utf8_reset, [cp])
    else (Build_utf8_state cp (u_needed st) (u_seen st + 1) 0x80 0xBF, []).

Fixpoint utf8_decode_from (st : utf8_state) (bs : buffer) : str :=
  match bs with
  | [] => if u_needed st =? 0 then [] else [0xFFFD]
  | b :: r => let '(st', out) := utf8_step st b in out ++ utf8_decode_from st' r
  end.

Definition utf8_decode (bs : buffer) : str := utf8_decode_from utf8_reset bs.

(* --------------------------------------------------------------------- *)
(* External collaborators                                                *)
(* --------------------------------------------------------------------- *)

(** What the ingest code obtains from Node and the OS rather than
    computing itself. *)
Record env := {
  (** [zlib.createInflateRaw()] on a complete input: the raw bytes, or
      [None] when zlib reports an error. *)
  inflate_raw : buffer -> option buffer;
  (** [streamCompressedUnknown().pipe(createInflateRaw())] on what is
      left in the byte queue: the raw bytes and how many queue bytes the
      unknown-length reader had drained when the pipeline finished (this
      depends on chunk scheduling). *)
  inflate_unknown : buffer -> option (buffer * nat);
  (** [new TextDecoder('shift_jis', { fatal: true }).decode(bytes)]. *)
  sjis_decode : buffer -> option str;
  (** The sign of [a.localeCompare(b)] (ICU collation). *)
  locale_compare : str -> str -> comparison;
  (** Whether [writeFile(tmp)] followed by [rename(tmp, p)] succeeds for
      the store-relative path [p] (it fails, for instance, with ENOENT
      when the parent directory of [p] does not exist). *)
  fs_write_ok : str -> bool
}.

(* --------------------------------------------------------------------- *)
(* Forward ZIP stream reader (zip_stream: AsyncByteQueue, ZipStreamReader) *)
(* --------------------------------------------------------------------- *)

Definition LFH_SIG : Z := 0x04034b50.
Definition CDH_SIG : Z := 0x02014b50.
Definition EOCD_SIG : Z := 0x06054b50.
Definition DD_SIG : Z := 0x08074b50.
Definition Z64_LOC_SIG : Z := 0x07064b50.
Definition Z64_EOCD_SIG : Z := 0x06064b50.
Definition CEN_SIG : Z := CDH_SIG.
Definition MAX_SAFE_INTEGER : Z := 2 ^ 53 - 1.

(** The byte queue once the producer has delivered the whole upload:
    the bytes not yet consumed and [consumedTotal]. [ensure(n)] fails
    with 'Unexpected EOF' exactly when fewer than [n] bytes remain. *)
Record queue := { q_rest : buffer; q_consumed : Z }.

Definition q_ensure (n : Z) (q : queue) : res unit :=
  if Z.of_nat (length (q_rest q)) <? n then Err UnexpectedEOF else Ok tt.

Definition q_read (n : Z) (q : queue) : buffer * queue :=
  (take (Z.to_nat n) (q_rest q),
   {| q_rest := drop (Z.to_nat n) (q_rest q); q_consumed := q_consumed q + n |}).

Definition q_peek_u32 (q : queue) : Z := le_value (take 4 (q_rest q)).

(** Reads of a field inside a buffer already known to be long enough. *)
Definition get16 (b : buffer) (off : Z) : Z := default 0 (u16 b off).
Definition get32 (b : buffer) (off : Z) : Z := default 0 (u32 b off).

Record ZipEntryHeader := {
  h_localHeaderOffset : Z; h_fileNameBytes : buffer; h_extra : buffer;
  h_method : Z; h_flags : Z; h_compressedSize : Z; h_uncompressedSize : Z;
  h_crc32 : Z }.

Record DataDescriptor := {
  dd_crc32 : Z; dd_compressedSize : Z; dd_uncompressedSize : Z }.

(** [parseZip64Extra(extra, wantC, wantU)]: [(usize, csize)]. *)
Fixpoint parseZip64Extra_loop (fuel : nat) (extra : buffer) (off : Z)
    (wantC wantU : bool) : res (option Z * option Z) :=
  match fuel with
  | O => Ok (None, None)
  | S f =>
      if off + 4 <=? Z.of_nat (length extra) then
        let id := get16 extra off in
        let sz := get16 extra (off + 2) in
        let off := off + 4 in
        if off + sz >? Z.of_nat (length extra) then Ok (None, None)
        else if id =? 1 then
          let p := off in
          us <-? (if wantU then res_map Some (of_option RangeError (u64 extra p))
                  else Ok None) ;;
          let p := if wantU then p + 8 else p in
          cs <-? (if wantC then res_map Some (of_option RangeError (u64 extra p))
                  else Ok None) ;;
          Ok (us, cs)
        else parseZip64Extra_loop f extra (off + sz) wantC wantU
      else Ok (None, None)
  end.

Definition parseZip64Extra (extra : buffer) (wantC wantU : bool) :=
  parseZip64Extra_loop (S (length extra)) extra 0 wantC wantU.

(** [nextHeader()]: [None] when the stream phase is over. *)
Definition nextHeader (q : queue) : res (option (ZipEntryHeader * queue)) :=
  _ <-? q_ensure 4 q ;;
  let sig := q_peek_u32 q in
  if (sig =? CDH_SIG) || (sig =? EOCD_SIG) then Ok None
  else if negb (sig =? LFH_SIG) then Ok None
  else
    let localHeaderOffset := q_consumed q in
    _ <-? q_ensure 30 q ;;
    let '(h, q) := q_read 30 q in
    let flags := get16 h 6 in
    let method := get16 h 8 in
    if negb ((method =? 0) || (method =? 8))
    then Err (UnsupportedCompressionMethod method) else
    let crc32 := get32 h 14 in
    let csize32 := get32 h 18 in
    let usize32 := get32 h 22 in
    let nameLen := get16 h 26 in
    let extraLen := get16 h 28 in
    _ <-? q_ensure (nameLen + extraLen) q ;;
    let '(nameBuf, q) := q_read nameLen q in
    let '(extra, q) := q_read extraLen q in
    let wantC := csize32 =? 0xFFFFFFFF in
    let wantU := usize32 =? 0xFFFFFFFF in
    sizes <-? (if wantC || wantU then
                 z64 <-? parseZip64Extra extra wantC wantU ;;
                 let '(zu, zc) := z64 in
                 if wantC && bool_decide (zc = None) then Err Zip64CsizeMissing
                 else if wantU && bool_decide (zu = None) then Err Zip64UsizeMissing
                 else Ok (default csize32 zc, default usize32 zu)
               else Ok (csize32, usize32)) ;;
    Ok (Some ({| h_localHeaderOffset := localHeaderOffset; h_fileNameBytes := nameBuf;
                 h_extra := extra; h_method := method; h_flags := flags;
                 h_compressedSize := sizes.1; h_uncompressedSize := sizes.2;
                 h_crc32 := crc32 |}, q)).

(** [readDataDescriptor(zip64)]. *)
Definition readDataDescriptor (zip64 : bool) (q : queue) : res (DataDescriptor * queue) :=
  _ <-? q_ensure 12 q ;;
  let q := if q_peek_u32 q =? DD_SIG then (q_read 4 q).2 else q in
  _ <-? q_ensure (if zip64 then 20 else 12) q ;;
  let '(c, q) := q_read 4 q in
  if zip64 then
    let '(b, q) := q_read 16 q in
    Ok ({| dd_crc32 := le_value c; dd_compressedSize := le_value (take 8 b);
           dd_uncompressedSize := le_value (drop 8 b) |}, q)
  else
    let '(b, q) := q_read 8 q in
    Ok ({| dd_crc32 := le_value c; dd_compressedSize := le_value (take 4 b);
           dd_uncompressedSize := le_value (drop 4 b) |}, q).

(* --------------------------------------------------------------------- *)
(* Central directory reader (central_directory: readCentralDirectory)     *)
(* --------------------------------------------------------------------- *)

Record CentralEntry := {
  c_fileName : str; c_flags : Z; c_method : Z; c_crc32 : Z;
  c_compressedSize : Z; c_uncompressedSize : Z; c_localHeaderOffset : Z;
  c_isDirectory : bool }.

(** [parseExtraZip64(extra, wantU, wantC, wantOff)]. *)
Fixpoint parseExtraZip64_loop (fuel : nat) (extra : buffer) (off : Z)
    (wantU wantC wantOff : bool) : res (option Z * option Z * option Z) :=
  match fuel with
  | O => Ok (None, None, None)
  | S f =>
      if off + 4 <=? Z.of_nat (length extra) then
        let id := get16 extra off in
        let sz := get16 extra (off + 2) in
        let off := off + 4 in
        if off + sz >? Z.of_nat (length extra) then Ok (None, None, None)
        else if id =? 1 then
          let p := off in
          us <-? (if wantU then res_map Some (of_option RangeError (u64 extra p))
                  else Ok None) ;;
          let p := if wantU then p + 8 else p in
          cs <-? (if wantC then res_map Some (of_option RangeError (u64 extra p))
                  else Ok None) ;;
          let p := if wantC then p + 8 else p in
          os <-? (if wantOff then res_map Some (of_option RangeError (u64 extra p))
                  else Ok None) ;;
          Ok (us, cs, os)
        else parseExtraZip64_loop f extra (off + sz) wantU wantC wantOff
      else Ok (None, None, None)
  end.

Definition parseExtraZip64 (extra : buffer) (wantU wantC wantOff : bool) :=
  parseExtraZip64_loop (S (length extra)) extra 0 wantU wantC wantOff.

(** [parseUnicodePath(extra)]: the override bytes of field 0x7075. *)
Fixpoint parseUnicodePath_loop (fuel : nat) (extra : buffer) (off : Z) : option buffer :=
  match fuel with
  | O => None
  | S f =>
      if off + 4 <=? Z.of_nat (length extra) then
        let id := get16 extra off in
        let sz := get16 extra (off + 2) in
        let off := off + 4 in
        if off + sz >? Z.of_nat (length extra) then None
        else if (id =? 0x7075) && (5 <=? sz) then
          if negb (nth (Z.to_nat off) extra 0 =? 1) then None
          else Some (subarray extra (off + 5) (off + sz))
        else parseUnicodePath_loop f extra (off + sz)
      else None
  end.

Definition parseUnicodePath (extra : buffer) : option buffer :=
  parseUnicodePath_loop (S (length extra)) extra 0.

(** [decodeName(nameBytes, flags, extra)]; a Buffer is truthy even when
    empty, so any override found is used. *)
Definition decodeName (E : env) (nameBytes : buffer) (flags : Z) (extra : buffer) : str :=
  let utf8Flag := Z.testbit flags 11 in
  let upath := parseUnicodePath extra in
  if utf8Flag then utf8_decode nameBytes else
  match upath with
  | Some u => utf8_decode u
  | None => match sjis_decode E nameBytes with
            | Some s => s
            | None => nameBytes   (* latin1: one character per byte *)
            end
  end.

(** The backward EOCD scan: [for (i = tail.length - 22; i >= 0; i--)]. *)
Fixpoint eocd_scan (tail : buffer) (i : nat) : option nat :=
  if bool_decide (u32 tail (Z.of_nat i) = Some EOCD_SIG) then Some i
  else match i with O => None | S j => eocd_scan tail j end.

Definition find_eocd (tail : buffer) : option nat :=
  if (length tail <? 22)%nat then None else eocd_scan tail (length tail - 22).

Definition eocd_max_search : Z := 0x10000 + 22.

(** The tail of the spool the EOCD is searched in. *)
Definition eocd_tail_start (size : Z) : Z :=
  if size >? eocd_max_search then size - eocd_max_search else 0.

Fixpoint cd_loop (E : env) (fuel : nat) (cdBuf : buffer) (p : Z) : res (list CentralEntry) :=
  match fuel with
  | O => Ok []
  | S f =>
      if p + 46 <=? Z.of_nat (length cdBuf) then
        let sig := get32 cdBuf p in
        if negb (sig =? CEN_SIG) then Ok [] else
        let flags := get16 cdBuf (p + 8) in
        let method := get16 cdBuf (p + 10) in
        let crc32 := get32 cdBuf (p + 16) in
        let csize32e := get32 cdBuf (p + 20) in
        let usize32e := get32 cdBuf (p + 24) in
        let nameLen := get16 cdBuf (p + 28) in
        let extraLen := get16 cdBuf (p + 30) in
        let commentLen := get16 cdBuf (p + 32) in
        let lhoff32 := get32 cdBuf (p + 42) in
        let nameBytes := subarray cdBuf (p + 46) (p + 46 + nameLen) in
        let extra := subarray cdBuf (p + 46 + nameLen) (p + 46 + nameLen + extraLen) in
        let wantU := usize32e =? 0xFFFFFFFF in
        let wantC := csize32e =? 0xFFFFFFFF in
        let wantO := lhoff32 =? 0xFFFFFFFF in
        vals <-? (if wantU || wantC || wantO then
                    z64 <-? parseExtraZip64 extra wantU wantC wantO ;;
                    let '(zu, zc, zo) := z64 in
                    if wantU && bool_decide (zu = None) then Err Zip64UsizeMissingCentral
                    else if wantC && bool_decide (zc = None) then Err Zip64CsizeMissingCentral
                    else if wantO && bool_decide (zo = None) then Err Zip64OffsetMissingCentral
                    else Ok (default usize32e zu, default csize32e zc, default lhoff32 zo)
                  else Ok (usize32e, csize32e, lhoff32)) ;;
        let '(usize, csize, lhoff) := vals in
        let name := decodeName E nameBytes flags extra in
        rest <-? cd_loop E f cdBuf (p + 46 + nameLen + extraLen + commentLen) ;;
        Ok ({| c_fileName := name; c_flags := flags; c_method := method;
               c_crc32 := crc32; c_compressedSize := csize; c_uncompressedSize := usize;
               c_localHeaderOffset := lhoff; c_isDirectory := ends_with name [SLASH] |}
            :: rest)
      else Ok []
  end.

(** [readCentralDirectory(zipPath)] on the spool's bytes: the entries
    and the warnings. *)
Definition readCentralDirectory (E : env) (spool : buffer) : res (list CentralEntry * list str) :=
  let size := Z.of_nat (length spool) in
  let start := eocd_tail_start size in
  let tail := file_read spool start (size - start) in
  eocdOff <-? of_option EOCDNotFound (find_eocd tail) ;;
  let eocdOff := Z.of_nat eocdOff in
  let eocd := drop (Z.to_nat eocdOff) tail in
  let cdSize32 := get32 eocd 12 in
  let cdOff32 := get32 eocd 16 in
  let totalEntries16 := get16 eocd 10 in
  let needsZip64 := (cdSize32 =? 0xFFFFFFFF) || (cdOff32 =? 0xFFFFFFFF)
                    || (totalEntries16 =? 0xFFFF) in
  cdw <-? (if needsZip64 then
             let locPos := eocdOff - 20 in
             if (0 <=? locPos) && (get32 tail locPos =? Z64_LOC_SIG) then
               let loc := subarray tail locPos (locPos + 20) in
               let z64eocdOff := default 0 (u64 loc 8) in
               let zbuf := file_read spool z64eocdOff 56 in
               if negb (get32 zbuf 0 =? Z64_EOCD_SIG) then Err Zip64EOCDNotFound
               else Ok (default 0 (u64 zbuf 40), default 0 (u64 zbuf 48), [])
             else Ok (cdSize32, cdOff32,
                      [s2z "Zip64 needed but Zip64 locator not found; using 32-bit CD fields"])
           else Ok (cdSize32, cdOff32, [])) ;;
  let '(cdSize, cdOff, warnings) := cdw in
  let cdBuf := file_read spool cdOff cdSize in
  entries <-? cd_loop E (length cdBuf) cdBuf 0 ;;
  Ok (entries, warnings).

(* --------------------------------------------------------------------- *)
(* CAS store (store/cas.ts) and the ingest monad                         *)
(* --------------------------------------------------------------------- *)

Record file_entry := { fe_path : str; fe_sha256 : str; fe_size : Z }.

Record manifest := {
  m_schema : str; m_fileset_id : str; m_file_count : Z; m_total_bytes : Z;
  m_files : list file_entry; m_warnings : list str }.

(** The store: object bodies by hash (kept decoded: the Brotli encoding
    is not modelled), fileset manifests by id, refs by name. *)
Record store := {
  st_objects : gmap str buffer;
  st_filesets : gmap str manifest;
  st_refs : gmap str str }.

(** State and errors: a failed ingest keeps the effects made before it
    failed. *)
Definition M (A : Type) := store -> res A * store.

Definition mret {A} (a : A) : M A := fun s => (Ok a, s).
Definition mbind {A B} (m : M A) (k : A -> M B) : M B :=
  fun s => match m s with (Ok a, s') => k a s' | (Err e, s') => (Err e, s') end.
Definition mfail {A} (e : error) : M A := fun s => (Err e, s).
Definition mlift {A} (r : res A) : M A := fun s => (r, s).

Notation "x <- m ;; k" := (mbind m (fun x => k))
  (at level 100, m at next level, right associativity).

Definition objPath (sha : str) : str :=
  s2z "objects/" ++ take 2 sha ++ [SLASH] ++ drop 2 sha.
Definition filesetPath (id : str) : str :=
  s2z "filesets/" ++ take 2 id ++ [SLASH] ++ drop 2 id ++ s2z ".json".
Definition refPath (name : str) : str := s2z "refs/" ++ name.

(** [commitTempObject]: an existing object is kept, else the temp file
    is renamed into place. *)
Definition commitTempObject (raw : buffer) (sha : str) : M unit :=
  fun s => (Ok tt,
    match st_objects s !! sha with
    | Some _ => s
    | None => {| st_objects := <[sha := raw]> (st_objects s);
                 st_filesets := st_filesets s; st_refs := st_refs s |}
    end).

(** [storeFilesetManifest]: write to [p + '.tmp'], then rename. *)
Definition storeFilesetManifest (E : env) (id : str) (m : manifest) : M unit :=
  fun s =>
    if fs_write_ok E (filesetPath id) then
      (Ok tt, {| st_objects := st_objects s; st_filesets := <[id := m]> (st_filesets s);
                 st_refs := st_refs s |})
    else (Err (FsWriteError (filesetPath id)), s).

(** [writeRef]: write to [p + '.tmp'], then rename. *)
Definition writeRef (E : env) (name id : str) : M unit :=
  fun s =>
    if fs_write_ok E (refPath name) then
      (Ok tt, {| st_objects := st_objects s; st_filesets := st_filesets s;
                 st_refs := <[name := id]> (st_refs s) |})
    else (Err (FsWriteError (refPath name)), s).

(* --------------------------------------------------------------------- *)
(* Entry processor (upload_zip: processRawToCas, processEntryFromSpool)  *)
(* --------------------------------------------------------------------- *)

Record UploadLimits := {
  maxEntries : Z; maxFileBytes : Z; maxTotalBytes : Z; maxZipBytes : Z }.

Record StreamResult := { r_sha256 : str; r_size : Z; r_crc32 : Z }.

(** [processRawToCas]: the tap counts, hashes and CRCs the raw bytes and
    fails with 'File too large' once the count passes the cap; the CRC
    is folded over the chunks the stream delivers, which (as proved
    below for every partition) is the CRC of one chunk holding them all. *)
Definition processRawToCas (L : UploadLimits) (raw : buffer) : M StreamResult :=
  if Z.of_nat (length raw) >? maxFileBytes L then mfail FileTooLarge else
  let shaHex := sha256_hex raw in
  _ <- commitTempObject raw shaHex ;;
  mret {| r_sha256 := shaHex; r_size := Z.of_nat (length raw);
          r_crc32 := js_ushr (crc32Update 0 raw) 0 |}.

(** [processEntryFromSpool]. [createReadStream(path, {start, end})]
    throws ERR_OUT_OF_RANGE when [start > end]; it yields the bytes of
    [start..end] that exist. *)
Definition processEntryFromSpool (E : env) (L : UploadLimits) (spool : buffer)
    (localHeaderOffset method compressedSize : Z) : M StreamResult :=
  let h := file_read spool localHeaderOffset 30 in
  if negb (get32 h 0 =? LFH_SIG) then mfail LocalHeaderSignatureMismatch else
  let nameLen := get16 h 26 in
  let extraLen := get16 h 28 in
  let dataStart := localHeaderOffset + 30 + (nameLen + extraLen) in
  if (compressedSize <? 0) || (compressedSize >? MAX_SAFE_INTEGER)
  then mfail EntryTooLarge else
  let start := dataStart in
  let end_ := dataStart + compressedSize - 1 in
  if end_ <? start then mfail RangeError else
  let rs := subarray spool start (end_ + 1) in
  if method =? 0 then processRawToCas L rs
  else if method =? 8 then
    raw <- mlift (of_option InflateError (inflate_raw E rs)) ;;
    processRawToCas L raw
  else mfail (UnsupportedMethodFallback method).

(* --------------------------------------------------------------------- *)
(* Streaming phase (uploadZipAsFileset, first loop)                      *)
(* --------------------------------------------------------------------- *)

Record stream_state := {
  ss_entryCount : Z; ss_totalBytes : Z;
  ss_processed : gmap str StreamResult; ss_warnings : list str }.

Definition usesDD (hdr : ZipEntryHeader) : bool := negb (Z.land (h_flags hdr) 8 =? 0).

(** The raw-byte stream of an entry: known length through
    [streamExact] (a short queue ends it with 'Unexpected EOF'),
    optionally inflated; DD+DEFLATE through the unknown-length stream. *)
Definition entry_raw (E : env) (hdr : ZipEntryHeader) (q : queue) : res (buffer * queue) :=
  if negb (usesDD hdr) then
    let n := h_compressedSize hdr in
    if (n <? 0) || (n >? MAX_SAFE_INTEGER) then Err EntryTooLarge else
    if Z.of_nat (length (q_rest q)) <? n then Err UnexpectedEOF else
    let '(src, q) := q_read n q in
    if h_method hdr =? 0 then Ok (src, q)
    else raw <-? of_option InflateError (inflate_raw E src) ;; Ok (raw, q)
  else
    match inflate_unknown E (q_rest q) with
    | Some (raw, k) => Ok (raw, (q_read (Z.of_nat k) q).2)
    | None => Err InflateError
    end.

(** Lines 204-214: the total cap, then the local-header cross-check, or
    the data descriptor read and its cross-check. Returns the queue and
    the new [totalBytes]. *)
Definition post_checks (L : UploadLimits) (totalBytes : Z) (hdr : ZipEntryHeader)
    (q : queue) (r : StreamResult) : res (queue * Z) :=
  let totalBytes := totalBytes + r_size r in
  if totalBytes >? maxTotalBytes L then Err TotalTooLarge else
  let zip64Sizes := (h_compressedSize hdr >? 0xFFFFFFFF)
                    || (h_uncompressedSize hdr >? 0xFFFFFFFF) in
  if negb (usesDD hdr) then
    if negb (h_uncompressedSize hdr =? 0) && negb (h_uncompressedSize hdr =? r_size r)
    then Err SizeMismatchLH
    else if negb (h_crc32 hdr =? 0) && negb (h_crc32 hdr =? r_crc32 r)
    then Err CrcMismatchLH
    else Ok (q, totalBytes)
  else
    ddq <-? readDataDescriptor zip64Sizes q ;;
    let '(dd, q) := ddq in
    if negb (dd_uncompressedSize dd =? r_size r) then Err SizeMismatchDD
    else if negb (dd_crc32 dd =? r_crc32 r) then Err CrcMismatchDD
    else Ok (q, totalBytes).

Definition deferred_warning (off : Z) : str :=
  s2z "Deferred STORE+DD at offset " ++ show_Z off.

(** One header of the streaming loop, after the entry count check. *)
Definition stream_entry (E : env) (L : UploadLimits) (hdr : ZipEntryHeader)
    (q : queue) (ss : stream_state) : M (queue * stream_state) :=
  if usesDD hdr && (h_method hdr =? 0) then
    mret (q, {| ss_entryCount := ss_entryCount ss; ss_totalBytes := ss_totalBytes ss;
                ss_processed := ss_processed ss;
                ss_warnings := ss_warnings ss ++ [deferred_warning (h_localHeaderOffset hdr)] |})
  else
    rq <- mlift (entry_raw E hdr q) ;;
    let '(raw, q) := rq in
    r <- processRawToCas L raw ;;
    qt <- mlift (post_checks L (ss_totalBytes ss) hdr q r) ;;
    let '(q, totalBytes) := qt in
    mret (q, {| ss_entryCount := ss_entryCount ss; ss_totalBytes := totalBytes;
                ss_processed := <[show_Z (h_localHeaderOffset hdr) := r]> (ss_processed ss);
                ss_warnings := ss_warnings ss |}).

Fixpoint stream_loop (E : env) (L : UploadLimits) (fuel : nat) (q : queue)
    (ss : stream_state) : M stream_state :=
  match fuel with
  | O => mret ss
  | S f =>
      ho <- mlift (nextHeader q) ;;
      match ho with
      | None => mret ss
      | Some (hdr, q) =>
          let entryCount := ss_entryCount ss + 1 in
          if entryCount >? maxEntries L then mfail TooManyEntries else
          qs <- stream_entry E L hdr q
                  {| ss_entryCount := entryCount; ss_totalBytes := ss_totalBytes ss;
                     ss_processed := ss_processed ss; ss_warnings := ss_warnings ss |} ;;
          let '(q, ss) := qs in
          stream_loop E L f q ss
      end
  end.

(* --------------------------------------------------------------------- *)
(* Reconciliation with the central directory                             *)
(* --------------------------------------------------------------------- *)

Record rec_state := {
  rs_finalEntries : list file_entry;
  rs_seenPaths : gmap str nat;
  rs_warnings : list str;
  rs_processed : gmap str StreamResult }.

Definition duplicate_warning (p : str) : str :=
  s2z "Duplicate path: " ++ p ++ s2z " (last wins)".

(** Lines 254-262: a later entry with a seen path replaces the earlier
    one in place and warns; a new path is appended. *)
Definition add_final (norm : str) (r : StreamResult)
    (fs : list file_entry * gmap str nat * list str) : list file_entry * gmap str nat * list str :=
  let '(finalEntries, seenPaths, warnings) := fs in
  let entry := {| fe_path := norm; fe_sha256 := r_sha256 r; fe_size := r_size r |} in
  match seenPaths !! norm with
  | Some idx => (<[idx := entry]> finalEntries, seenPaths,
                 warnings ++ [duplicate_warning norm])
  | None => (finalEntries ++ [entry], <[norm := length finalEntries]> seenPaths, warnings)
  end.

(** The result an entry contributes: the streamed one, checked against
    the CD, or a fallback re-read from the spool. *)
Definition entry_result (E : env) (L : UploadLimits) (spool : buffer)
    (e : CentralEntry) (norm : str) (processed : gmap str StreamResult)
    : M (StreamResult * gmap str StreamResult) :=
  let key := show_Z (c_localHeaderOffset e) in
  match processed !! key with
  | Some r =>
      if negb (r_size r =? c_uncompressedSize e) then mfail (SizeMismatchCD norm)
      else if negb (r_crc32 r =? c_crc32 e) then mfail (CrcMismatchCD norm)
      else mret (r, processed)
  | None =>
      r <- processEntryFromSpool E L spool (c_localHeaderOffset e) (c_method e)
                                 (c_compressedSize e) ;;
      if negb (r_size r =? c_uncompressedSize e) then mfail (FallbackSizeMismatch norm)
      else if negb (r_crc32 r =? c_crc32 e) then mfail (FallbackCrcMismatch norm)
      else mret (r, <[key := r]> processed)
  end.

(** The body of [for (const e of cd.entries)]. *)
Definition reconcile_entry (E : env) (L : UploadLimits) (spool : buffer)
    (e : CentralEntry) (rs : rec_state) : M rec_state :=
  if c_isDirectory e then mret rs else
  if negb ((c_method e =? 0) || (c_method e =? 8)) then mfail (UnsupportedMethodCD (c_method e)) else
  norm <- mlift (normalizeZipPath (c_fileName e)) ;;
  if bool_decide (norm = []) then mret rs else
  rp <- entry_result E L spool e norm (rs_processed rs) ;;
  let '(r, processed) := rp in
  let '(fe, seen, ws) := add_final norm r (rs_finalEntries rs, rs_seenPaths rs, rs_warnings rs) in
  mret {| rs_finalEntries := fe; rs_seenPaths := seen; rs_warnings := ws;
          rs_processed := processed |}.

Fixpoint reconcile (E : env) (L : UploadLimits) (spool : buffer)
    (es : list CentralEntry) (rs : rec_state) : M rec_state :=
  match es with
  | [] => mret rs
  | e :: es' => rs' <- reconcile_entry E L spool e rs ;; reconcile E L spool es' rs'
  end.

(* --------------------------------------------------------------------- *)
(* Canonicalization and commit                                           *)
(* --------------------------------------------------------------------- *)

(** [Array.prototype.sort] with a consistent comparator yields the
    stable sorted order; stable insertion, each element placed after
    every earlier one it does not compare below. *)
Fixpoint insert_by {A} (cmp : A -> A -> comparison) (x : A) (l : list A) : list A :=
  match l with
  | [] => [x]
  | y :: r => if bool_decide (cmp x y = Lt) then x :: y :: r else y :: insert_by cmp x r
  end.

Definition sort_by {A} (cmp : A -> A -> comparison) (l : list A) : list A :=
  fold_left (fun acc x => insert_by cmp x acc) l [].

(** [(a, b) => a.path.localeCompare(b.path)]. *)
Definition path_compare (E : env) (a b : file_entry) : comparison :=
  locale_compare E (fe_path a) (fe_path b).

(** One line of the canonical string: the template literal of line 266,
    whose separators are NUL characters (bytes 0 in the source):
    [`${path}\0sha256:${sha256}\0${size}\n`]. *)
Definition canonical_line (e : file_entry) : str :=
  fe_path e ++ [0] ++ s2z "sha256:" ++ fe_sha256 e ++ [0] ++ show_Z (fe_size e) ++ [10].

Definition canonical (files : list file_entry) : str := concat (map canonical_line files).

(** [createHash('sha256').update('v1\0').update(canonical, 'utf8')]: the
    prefix is 'v', '1' and a NUL character (line 268). *)
Definition fileset_id_of (files : list file_entry) : str :=
  sha256_hex (utf8_encode (s2z "v1" ++ [0]) ++ utf8_encode (canonical files)).

Definition total_of (files : list file_entry) : Z :=
  fold_left (fun s e => s + fe_size e) files 0.

Definition build_manifest (files : list file_entry) (warnings : list str) : manifest :=
  {| m_schema := s2z "fileset.v1"; m_fileset_id := fileset_id_of files;
     m_file_count := Z.of_nat (length files); m_total_bytes := total_of files;
     m_files := files; m_warnings := warnings |}.

Record upload_result := {
  u_filesetId : str; u_manifest : manifest; u_updatedRef : option str }.

Definition stream_init : stream_state :=
  {| ss_entryCount := 0; ss_totalBytes := 0; ss_processed := ∅; ss_warnings := [] |}.

(** [uploadZipAsFileset] on the uploaded bytes [zip]. The tee fails the
    upload once more than [maxZipBytes] bytes arrive (objects committed
    before that are orphans and not represented); otherwise the spool
    holds exactly [zip] and the byte queue delivers it. *)
Definition uploadZipAsFileset (E : env) (L : UploadLimits) (updateRef : option str)
    (zip : buffer) : M upload_result :=
  if Z.of_nat (length zip) >? maxZipBytes L then mfail ZipTooLarge else
  ss <- stream_loop E L (S (length zip)) {| q_rest := zip; q_consumed := 0 |} stream_init ;;
  cd <- mlift (readCentralDirectory E zip) ;;
  let '(entries, cdWarnings) := cd in
  rs <- reconcile E L zip entries
          {| rs_finalEntries := []; rs_seenPaths := ∅;
             rs_warnings := ss_warnings ss ++ cdWarnings;
             rs_processed := ss_processed ss |} ;;
  let finalEntries := sort_by (path_compare E) (rs_finalEntries rs) in
  let filesetId := fileset_id_of finalEntries in
  let manifest := build_manifest finalEntries (rs_warnings rs) in
  _ <- storeFilesetManifest E filesetId manifest ;;
  _ <- (match updateRef with
        | Some name => if bool_decide (name = []) then mret tt else writeRef E name filesetId
        | None => mret tt
        end) ;;
  mret {| u_filesetId := filesetId; u_manifest := manifest; u_updatedRef := updateRef |}.

(* --------------------------------------------------------------------- *)
(* HTTP surface: GET requests (src/server.ts)                            *)
(* --------------------------------------------------------------------- *)

Inductive body :=
  | BText (s : str)          (* sendText *)
  | BJson (m : manifest)     (* sendJson of a manifest *)
  | BDoc (path : str)        (* OpenAPI documents and the docs page *)
  | BObject (sha : str)      (* obj.pipe(res): the object file's bytes *)
  | BStreamError             (* obj.pipe(res) of a stream that fails: see openObjectStream *)
  | BEmpty.

Record response := { resp_status : Z; resp_headers : list (str * str); resp_body : body }.

(** [req.headers[name]] (names are lower-cased by Node). *)
Definition header (hs : list (str * str)) (name : str) : option str :=
  snd <$> list_find (fun h => bool_decide (h.1 = name)) hs ≫= fun p => Some p.2.

Fixpoint str_includes (needle hay : str) : bool :=
  match hay with
  | [] => starts_with needle []
  | _ :: r => starts_with needle hay || str_includes needle r
  end.

(** [cas.openObjectStream(sha)]: [createReadStream] opens lazily and
    only throws (giving [null]) for an invalid path argument, a NUL byte.
    The stream of an object the store holds reads its file. For any
    other id the file is missing (or is a directory) and the stream
    emits 'error'; nothing listens for it ([pipe] only handles the
    destination's errors), so the exception is uncaught and the process
    exits before the head given to [writeHead] is sent. *)
Definition openObjectStream (st : store) (sha : str) : option body :=
  if existsb (Z.eqb 0) sha then None else
  match st_objects st !! sha with
  | Some _ => Some (BObject sha)
  | None => Some BStreamError
  end.

Definition text (status : Z) (s : str) : response :=
  {| resp_status := status; resp_headers := [(s2z "content-type", s2z "text/plain; charset=utf-8")];
     resp_body := BText s |}.

Definition etag_of (id : str) : str := [34] ++ s2z "sha256:" ++ id ++ [34].

(** The [GET /objects/{sha}] branch, lines 83-110. *)
Definition get_object (st : store) (path : str) (hs : list (str * str)) : response :=
  let sha := default [] (split_on SLASH path !! 2%nat) in
  if bool_decide (sha = []) then text 400 (s2z "Missing object id") else
  let etag := etag_of sha in
  let inm := default [] (header hs (s2z "if-none-match")) in
  if negb (bool_decide (inm = [])) &&
     existsb (fun t => bool_decide (t = etag)) (map js_trim (split_on 44 inm))
  then {| resp_status := 304; resp_headers := [(s2z "etag", etag)]; resp_body := BEmpty |}
  else
  let ae := default [] (header hs (s2z "accept-encoding")) in
  if negb (bool_decide (ae = [])) && negb (str_includes (s2z "br") ae)
     && negb (str_includes (s2z "*") ae)
  then text 406 (s2z "Not Acceptable (need br)") else
  match openObjectStream st sha with
  | None => text 404 (s2z "Not found")
  | Some b =>
      {| resp_status := 200;
         resp_headers := [(s2z "content-type", s2z "application/octet-stream");
                          (s2z "content-encoding", s2z "br"); (s2z "etag", etag);
                          (s2z "cache-control", s2z "public, max-age=31536000, immutable")];
         resp_body := b |}
  end.

(** The request handler on a GET request with pathname [path]. *)
Definition handle_get (st : store) (path : str) (hs : list (str * str)) : response :=
  if bool_decide (path = s2z "/openapi.yaml") || bool_decide (path = s2z "/openapi.json")
     || bool_decide (path = s2z "/apidocs")
  then {| resp_status := 200; resp_headers := []; resp_body := BDoc path |}
  else if bool_decide (path = s2z "/health") then text 200 (s2z "ok")
  else if starts_with (s2z "/filesets/") path then
    let id := default [] (split_on SLASH path !! 2%nat) in
    if bool_decide (id = []) then text 400 (s2z "Missing fileset id") else
    match st_filesets st !! id with
    | None => text 404 (s2z "Not found")
    | Some m => {| resp_status := 200; resp_headers := [(s2z "etag", etag_of id)];
                   resp_body := BJson m |}
    end
  else if starts_with (s2z "/objects/") path then get_object st path hs
  else if starts_with (s2z "/refs/") path then
    let name := default [] (split_on SLASH path !! 2%nat) in
    if bool_decide (name = []) then text 400 (s2z "Missing ref name") else
    match st_refs st !! name with
    | Some v => if bool_decide (js_trim v = []) then text 404 (s2z "Not found")
                else text 200 (js_trim v)
    | None => text 404 (s2z "Not found")
    end
  else text 404 (s2z "Not found").

(* --------------------------------------------------------------------- *)
(* Test fixtures: building ZIP archives                                  *)
(* --------------------------------------------------------------------- *)

Definition le16 (x : Z) : buffer := [Z.land x 255; Z.land (Z.shiftr x 8) 255].
Definition le32 (x : Z) : buffer :=
  [Z.land x 255; Z.land (Z.shiftr x 8) 255; Z.land (Z.shiftr x 16) 255;
   Z.land (Z.shiftr x 24) 255].

(** A stored entry of a fixture: name, flags, contents, and the CRC and
    uncompressed size written in the local header. With flag bit 3 the
    local header carries zeros and a signed data descriptor follows. *)
Record fixture_entry := { fx_name : str; fx_flags : Z; fx_data : buffer;
                          fx_lh_crc : Z; fx_lh_usize : Z }.

Definition lfh_bytes (e : fixture_entry) : buffer :=
  let n := Z.of_nat (length (fx_data e)) in
  let dd := negb (Z.land (fx_flags e) 8 =? 0) in
  le32 LFH_SIG ++ le16 20 ++ le16 (fx_flags e) ++ le16 0 ++ le16 0 ++ le16 0 ++
  (if dd then le32 0 ++ le32 0 ++ le32 0
   else le32 (fx_lh_crc e) ++ le32 n ++ le32 (fx_lh_usize e)) ++
  le16 (Z.of_nat (length (fx_name e))) ++ le16 0 ++ fx_name e ++ fx_data e ++
  (if dd then le32 DD_SIG ++ le32 (crc32Update 0 (fx_data e)) ++ le32 n ++ le32 n
   else []).

Definition cdh_bytes (e : fixture_entry) (off : Z) : buffer :=
  let crc := crc32Update 0 (fx_data e) in
  let n := Z.of_nat (length (fx_data e)) in
  le32 CDH_SIG ++ le16 20 ++ le16 20 ++ le16 (Z.lor (fx_flags e) 2048) ++ le16 0 ++
  le16 0 ++ le16 0 ++ le32 crc ++ le32 n ++ le32 n ++
  le16 (Z.of_nat (length (fx_name e))) ++ le16 0 ++ le16 0 ++ le16 0 ++ le16 0 ++
  le32 0 ++ le32 off ++ fx_name e.

Fixpoint local_part (es : list fixture_entry) (off : Z) : buffer * list (fixture_entry * Z) :=
  match es with
  | [] => ([], [])
  | e :: r => let b := lfh_bytes e in
              let '(rest, offs) := local_part r (off + Z.of_nat (length b)) in
              (b ++ rest, (e, off) :: offs)
  end.

(** A STORE-only archive: local records, central directory, EOCD. *)
Definition mk_zip (es : list fixture_entry) : buffer :=
  let '(locals, offs) := local_part es 0 in
  let cd := flat_map (fun eo => cdh_bytes eo.1 eo.2) offs in
  let n := Z.of_nat (length es) in
  locals ++ cd ++ le32 EOCD_SIG ++ le16 0 ++ le16 0 ++ le16 n ++ le16 n ++
  le32 (Z.of_nat (length cd)) ++ le32 (Z.of_nat (length locals)) ++ le16 0.

Definition plain (name data : string) : fixture_entry :=
  {| fx_name := s2z name; fx_flags := 0; fx_data := s2z data;
     fx_lh_crc := crc32Update 0 (s2z data); fx_lh_usize := Z.of_nat (length (s2z data)) |}.

Definition stored_dd (name data : string) : fixture_entry :=
  {| fx_name := s2z name; fx_flags := 8; fx_data := s2z data;
     fx_lh_crc := 0; fx_lh_usize := 0 |}.

(** An ASCII approximation of ICU root collation: letters compare
    case-insensitively first, lower case before upper case next, code
    points last ("a" < "B" < "b"). *)
Fixpoint lex_compare (a b : list Z) : comparison :=
  match a, b with
  | [], [] => Eq
  | [], _ :: _ => Lt
  | _ :: _, [] => Gt
  | x :: a', y :: b' => match Z.compare x y with Eq => lex_compare a' b' | c => c end
  end.

Definition fold_case (c : Z) : Z := if (65 <=? c) && (c <=? 90) then c + 32 else c.
Definition case_rank (c : Z) : Z := if (65 <=? c) && (c <=? 90) then 1 else 0.

Definition icu_ascii_compare (a b : str) : comparison :=
  match lex_compare (map fold_case a) (map fold_case b) with
  | Eq => match lex_compare (map case_rank a) (map case_rank b) with
          | Eq => lex_compare a b
          | c => c
          end
  | c => c
  end.

(** An environment for the fixtures: STORE-only archives never inflate;
    UTF-8 flagged names never reach Shift-JIS; every write succeeds but
    those of a ref name holding a [/] (its directory under refs/ does
    not exist: ENOENT). *)
Definition fixture_env : env :=
  {| inflate_raw := fun _ => None; inflate_unknown := fun _ => None;
     sjis_decode := fun b => Some b; locale_compare := icu_ascii_compare;
     fs_write_ok := fun p => negb (starts_with (s2z "refs/") p
                                    && existsb (Z.eqb SLASH) (drop 5 p)) |}.

Definition default_limits : UploadLimits :=
  {| maxEntries := 8000; maxFileBytes := 500 * 1024 * 1024;
     maxTotalBytes := 2 * 1024 * 1024 * 1024; maxZipBytes := 300 * 1024 * 1024 |}.

Definition empty_store : store := {| st_objects := ∅; st_filesets := ∅; st_refs := ∅ |}.

(* --------------------------------------------------------------------- *)
(* Specification-side notions used to state properties                   *)
(* --------------------------------------------------------------------- *)


(** The request's If-None-Match header, split on commas and trimmed,
    lists the ETag of object [sha]. *)
Definition inm_matches (hs : list (str * str)) (sha : str) : Prop :=
  exists v, header hs (s2z "if-none-match") = Some v /\
            etag_of sha ∈ map js_trim (split_on 44 v).

(** The reconciliation loop without its duplicate handling: for each CD
    entry kept (not a directory, non-empty normalized path) the pair of
    its normalized path and the result [entry_result] obtains for it, in
    CD order, with the map of processed results threaded through. *)
Fixpoint entry_results (E : env) (L : UploadLimits) (spool : buffer)
    (es : list CentralEntry) (processed : gmap str StreamResult)
    : M (list (str * StreamResult) * gmap str StreamResult) :=
  match es with
  | [] => mret ([], processed)
  | e :: es' =>
      if c_isDirectory e then entry_results E L spool es' processed else
      if negb ((c_method e =? 0) || (c_method e =? 8))
      then mfail (UnsupportedMethodCD (c_method e)) else
      norm <- mlift (normalizeZipPath (c_fileName e)) ;;
      if bool_decide (norm = []) then entry_results E L spool es' processed else
      rp <- entry_result E L spool e norm processed ;;
      let '(r, processed) := rp in
      rest <- entry_results E L spool es' processed ;;
      let '(ps, processed) := rest in
      mret ((norm, r) :: ps, processed)
  end.

(** The normalized paths of the CD entries the loop keeps, in CD order. *)
Definition kept_paths (es : list CentralEntry) : list str :=
  omap (fun e => if c_isDirectory e then None else
                 match normalizeZipPath (c_fileName e) with
                 | Ok p => if bool_decide (p = []) then None else Some p
                 | Err _ => None
                 end) es.

(** The distinct paths of a list, in order of first occurrence. *)
Definition first_occurrences (l : list str) : list str :=
  fold_left (fun acc p => if bool_decide (p ∈ acc) then acc else acc ++ [p]) l [].

Definition entry_of (p : str) (r : StreamResult) : file_entry :=
  {| fe_path := p; fe_sha256 := r_sha256 r; fe_size := r_size r |}.

(** The entry for path [p] built from the last pair of [ps] with path [p]. *)
Definition last_entry_for (p : str) (ps : list (str * StreamResult)) : file_entry :=
  fold_left (fun acc qr => if bool_decide (qr.1 = p) then entry_of qr.1 qr.2 else acc)
            ps {| fe_path := p; fe_sha256 := []; fe_size := 0 |}.

(** Last wins, first position: one entry per distinct path, in order of
    the path's first occurrence, carrying the last result for it. *)
Definition dedup_last_wins (ps : list (str * StreamResult)) : list file_entry :=
  map (fun p => last_entry_for p ps) (first_occurrences (map fst ps)).

(** One warning per pair whose path occurred in an earlier pair. *)
Fixpoint duplicate_warnings_from (before : list str) (ps : list (str * StreamResult))
    : list str :=
  match ps with
  | [] => []
  | (q, _) :: rest =>
      (if bool_decide (q ∈ before) then [duplicate_warning q] else [])
      ++ duplicate_warnings_from (before ++ [q]) rest
  end.

Definition duplicate_warnings (ps : list (str * StreamResult)) : list str :=
  duplicate_warnings_from [] ps.

(** An upload limit configuration admitting a single entry. *)
Definition one_entry_limits : UploadLimits :=
  {| maxEntries := 1; maxFileBytes := 500 * 1024 * 1024;
     maxTotalBytes := 2 * 1024 * 1024 * 1024; maxZipBytes := 300 * 1024 * 1024 |}.

(** The duplicate handling of the loop applied in turn to a list of
    (path, result) pairs. *)
Definition add_all (ps : list (str * StreamResult))
    (acc : list file_entry * gmap str nat * list str) : list file_entry * gmap str nat * list str :=
  fold_left (fun acc pr => add_final pr.1 pr.2 acc) ps acc.

(* --------------------------------------------------------------------- *)
(* HTTP surface: the request handler (src/server.ts)                     *)
(* --------------------------------------------------------------------- *)

(** The limits [POST /filesets] gives the ingest (lines 59-64). *)
Definition server_limits : UploadLimits :=
  {| maxEntries := 8000; maxFileBytes := 500 * 1024 * 1024;
     maxTotalBytes := 2 * 1024 * 1024 * 1024; maxZipBytes := 300 * 1024 * 1024 |}.

(** What the handler sends: a response of [sendText], of the GET
    branches or of the docs, or [sendJson] of the upload result. *)
Inductive reply :=
  | Reply (r : response)
  | ReplyUpload (status : Z) (headers : list (str * str)) (result : upload_result)
  (** The body went over [maxZipBytes]: the tee destroys the request and
      its socket ([req.destroy(err)], spool.ts 14-19), and the rejected
      [spoolDone] promise may have no handler yet. Whether a 500 written
      before the overflow reached the client depends on timing: no
      reply is promised. *)
  | ReplyOversize.

(** The status of the reply sent, if one is. *)
Definition reply_status (r : reply) : option Z :=
  match r with
  | Reply r => Some (resp_status r)
  | ReplyUpload st _ _ => Some st
  | ReplyOversize => None
  end.

Definition reply_headers (r : reply) : list (str * str) :=
  match r with Reply r => resp_headers r | ReplyUpload _ hs _ => hs | ReplyOversize => [] end.

(** [sendText(res, status, body, headers)]. *)
Definition text_with (status : Z) (s : str) (extra : list (str * str)) : response :=
  {| resp_status := status; resp_headers := resp_headers (text status s) ++ extra;
     resp_body := BText s |}.

(** The ref the upload updates: [update_ref] defaults to 'latest', and
    the empty string means none (lines 54 and 58). *)
Definition update_ref_arg (updateRefParam : option str) : option str :=
  let updateRef := default (s2z "latest") updateRefParam in
  if bool_decide (updateRef = []) then None else Some updateRef.

(** The [POST /filesets] branch, lines 48-73; an exception thrown by the
    ingest reaches the [catch] of line 121, whose 500 is sent unless the
    body went over the size cap. *)
Definition post_filesets (E : env) (updateRefParam : option str) (hs : list (str * str))
    (zip : buffer) (s : store) : reply * store :=
  let ct := default [] (header hs (s2z "content-type")) in
  if negb (str_includes (s2z "application/zip") ct)
  then (Reply (text 415 (s2z "Expected Content-Type: application/zip")), s) else
  match uploadZipAsFileset E server_limits (update_ref_arg updateRefParam) zip s with
  | (Err _, s') =>
      if Z.of_nat (length zip) >? maxZipBytes server_limits then (ReplyOversize, s')
      else (Reply (text 500 (s2z "Internal Server Error")), s')
  | (Ok result, s') =>
      let accept := default (s2z "application/json") (header hs (s2z "accept")) in
      let location := s2z "/filesets/" ++ u_filesetId result in
      if str_includes (s2z "application/json") accept || str_includes (s2z "*/*") accept
      then (ReplyUpload 201 [(s2z "content-type", s2z "application/json; charset=utf-8");
                             (s2z "location", location)] result, s')
      else (Reply (text_with 201 (u_filesetId result) [(s2z "location", location)]), s')
  end.

(** The request handler: the method, the URL's pathname and its
    [update_ref] search parameter, the headers and the body. The docs
    and every other branch but [POST /filesets] require GET. *)
Definition handle_request (E : env) (method path : str) (updateRefParam : option str)
    (hs : list (str * str)) (reqBody : buffer) (s : store) : reply * store :=
  if bool_decide (method = s2z "GET") then (Reply (handle_get s path hs), s)
  else if bool_decide (method = s2z "POST") && bool_decide (path = s2z "/filesets")
  then post_filesets E updateRefParam hs reqBody s
  else (Reply (text 404 (s2z "Not found")), s).

(** The characters a path segment keeps through [new URL] as they are
    (RFC 3986 unreserved: letters, digits, '-', '.', '_', '~'); a query
    parameter made of them is also read back unchanged by
    [searchParams.get]. *)
Definition url_unreserved (c : Z) : bool :=
  ((65 <=? c) && (c <=? 90)) || ((97 <=? c) && (c <=? 122)) || ((48 <=? c) && (c <=? 57))
  || (c =? 45) || (c =? 46) || (c =? 95) || (c =? 126).

(** The characters of [digest('hex')]. *)
Definition is_hex_char (c : Z) : bool :=
  ((48 <=? c) && (c <=? 57)) || ((97 <=? c) && (c <=? 102)).

(** [buf.writeUIntLE(x, off, n)]: the [n] little-endian bytes of [x];
    used to build the records read back by the parsers. *)
Fixpoint le_bytes (n : nat) (x : Z) : buffer :=
  match n with
  | O => []
  | S k => Z.land x 255 :: le_bytes k (Z.shiftr x 8)
  end.

(* ===================================================================== *)
(* Proofs                                                                *)
(* ===================================================================== *)

Example sha256_empty :
  sha256_hex [] =
  s2z "e3b0c44298fc1c149afbf4c8996fb92427ae41e4649b934ca495991b7852b855".
Proof. vm_compute. reflexivity. Qed.

Example sha256_abc :
  sha256_hex (s2z "abc") =
  s2z "ba7816bf8f01cfea414140de5dae2223b00361a396177a9cb410ff61f20015ad".
Proof. vm_compute. reflexivity. Qed.

Example crc32_check :
  crc32Update 0 (s2z "123456789") = 0xCBF43926.
Proof. vm_compute. reflexivity. Qed.

(* --------------------------------------------------------------------- *)
(* CRC-32                                                                *)
(* --------------------------------------------------------------------- *)

Section Crc.

Let m32 := Z.ones 32.

Lemma m32_eq : 0xFFFFFFFF = m32.
Proof. reflexivity. Qed.

Lemma to_uint32_land x : to_uint32 x = Z.land x m32.
Proof. unfold to_uint32, m32. rewrite Z.land_ones; [reflexivity | lia]. Qed.

Lemma in_range_land u : 0 <= u < 2 ^ 32 <-> Z.land u m32 = u.
Proof.
  unfold m32. rewrite Z.land_ones by lia. split.
  - intros. apply Z.mod_small. lia.
  - intros H. rewrite <- H. apply Z.mod_pos_bound. lia.
Qed.

Lemma to_uint32_range x : 0 <= to_uint32 x < 2 ^ 32.
Proof. unfold to_uint32. apply Z.mod_pos_bound. lia. Qed.

Lemma to_uint32_small u : 0 <= u < 2 ^ 32 -> to_uint32 u = u.
Proof. intros. unfold to_uint32. apply Z.mod_small. lia. Qed.

Lemma to_uint32_idem x : to_uint32 (to_uint32 x) = to_uint32 x.
Proof. apply to_uint32_small, to_uint32_range. Qed.

Lemma to_uint32_int32 x : to_uint32 (to_int32 x) = to_uint32 x.
Proof.
  unfold to_int32. destruct (2 ^ 31 <=? to_uint32 x).
  - unfold to_uint32 at 1. rewrite Zminus_mod, Z_mod_same_full, Z.sub_0_r,
      Z.mod_mod by lia. apply to_uint32_idem.
  - apply to_uint32_idem.
Qed.

Lemma land_lxor_distr a b c :
  Z.land (Z.lxor a b) c = Z.lxor (Z.land a c) (Z.land b c).
Proof.
  apply Z.bits_inj'. intros n _. rewrite !Z.land_spec, !Z.lxor_spec, !Z.land_spec.
  destruct (Z.testbit a n), (Z.testbit b n), (Z.testbit c n); reflexivity.
Qed.

Lemma lxor_range a b :
  0 <= a < 2 ^ 32 -> 0 <= b < 2 ^ 32 -> 0 <= Z.lxor a b < 2 ^ 32.
Proof.
  rewrite !in_range_land. intros Ha Hb.
  rewrite land_lxor_distr, Ha, Hb. reflexivity.
Qed.

Lemma to_uint32_js_xor a b :
  to_uint32 (js_xor a b) = Z.lxor (to_uint32 a) (to_uint32 b).
Proof.
  unfold js_xor. rewrite to_uint32_int32. apply to_uint32_small, lxor_range;
  apply to_uint32_range.
Qed.

Lemma shiftr8_range u : 0 <= u < 2 ^ 32 -> 0 <= Z.shiftr u 8 < 2 ^ 32.
Proof.
  intros. rewrite Z.shiftr_div_pow2 by lia. split.
  - apply Z.div_pos; lia.
  - apply Z.div_lt_upper_bound; lia.
Qed.

Lemma crc_tables_agree : CRC32_TABLE = crc_table_spec.
Proof. vm_compute. reflexivity. Qed.

Lemma crc_table_range i : 0 <= table_at crc_table_spec i < 2 ^ 32.
Proof.
  unfold table_at.
  assert (Hb : forallb (fun t => (0 <=? t) && (t <? 2 ^ 32)) crc_table_spec = true)
    by (vm_compute; reflexivity).
  rewrite forallb_forall in Hb.
  destruct (decide (Z.to_nat i < length crc_table_spec)%nat) as [Hl | Hl].
  - specialize (Hb _ (nth_In _ 0 Hl)). apply andb_prop in Hb as [H1 H2].
    apply Z.leb_le in H1. apply Z.ltb_lt in H2. lia.
  - rewrite nth_overflow by lia. lia.
Qed.

Lemma land255_range x : 0 <= Z.land x 0xFF < 256.
Proof.
  change 0xFF with (Z.ones 8). rewrite Z.land_ones by lia.
  apply Z.mod_pos_bound. lia.
Qed.

(** One table update of [crc32Update] computes the spec's update on the
    unsigned view of the running value. *)
Lemma crc_js_step x b :
  byte_range b ->
  to_uint32 (js_xor (table_at CRC32_TABLE (js_and (js_xor x b) 0xFF)) (js_ushr x 8))
  = crc_spec_step (to_uint32 x) b.
Proof.
  intros Hb. unfold byte_range in Hb. rewrite to_uint32_js_xor.
  unfold crc_spec_step. rewrite crc_tables_agree.
  assert (Hidx : js_and (js_xor x b) 0xFF = Z.land (Z.lxor (to_uint32 x) b) 0xFF).
  { unfold js_and. rewrite to_uint32_js_xor, (to_uint32_small b) by lia.
    rewrite (to_uint32_small 0xFF) by lia.
    pose proof (land255_range (Z.lxor (to_uint32 x) b)) as Hr.
    unfold to_int32. rewrite to_uint32_small by lia.
    destruct (2 ^ 31 <=? _) eqn:E; [apply Z.leb_le in E; lia | reflexivity]. }
  rewrite Hidx, (to_uint32_small (table_at _ _)) by apply crc_table_range.
  unfold js_ushr. change (8 mod 32) with 8.
  rewrite (to_uint32_small (Z.shiftr _ 8)) by apply shiftr8_range, to_uint32_range.
  reflexivity.
Qed.

Lemma crc_js_fold buf x :
  Forall byte_range buf ->
  to_uint32 (fold_left (fun crc b =>
      js_xor (table_at CRC32_TABLE (js_and (js_xor crc b) 0xFF)) (js_ushr crc 8)) buf x)
  = fold_left crc_spec_step buf (to_uint32 x).
Proof.
  revert x. induction buf as [|b buf IH]; intros x Hf; simpl.
  - reflexivity.
  - inversion Hf; subst. rewrite IH by assumption. rewrite crc_js_step by assumption.
    reflexivity.
Qed.

Lemma crc_spec_fold_range buf u :
  0 <= u < 2 ^ 32 -> 0 <= fold_left crc_spec_step buf u < 2 ^ 32.
Proof.
  revert u. induction buf as [|b buf IH]; intros u Hu; simpl; [assumption|].
  apply IH. unfold crc_spec_step. apply lxor_range.
  - apply crc_table_range.
  - apply shiftr8_range, Hu.
Qed.

(** [crc32Update] on one chunk, over the unsigned view of its input. *)
Lemma crc32Update_spec c buf :
  Forall byte_range buf ->
  crc32Update c buf
  = Z.lxor (fold_left crc_spec_step buf (Z.lxor (to_uint32 c) 0xFFFFFFFF)) 0xFFFFFFFF.
Proof.
  intros Hf. unfold crc32Update, js_ushr. change (0 mod 32) with 0.
  rewrite Z.shiftr_0_r, to_uint32_js_xor, crc_js_fold by assumption.
  rewrite to_uint32_js_xor, (to_uint32_small 0xFFFFFFFF) by lia. reflexivity.
Qed.

Lemma crc32Update_range c buf : 0 <= crc32Update c buf < 2 ^ 32.
Proof.
  unfold crc32Update, js_ushr. change (0 mod 32) with 0.
  rewrite Z.shiftr_0_r. apply to_uint32_range.
Qed.

Lemma crc32_fold_chunks chunks c :
  Forall (Forall byte_range) chunks -> 0 <= c < 2 ^ 32 ->
  fold_left crc32Update chunks c
  = Z.lxor (fold_left crc_spec_step (concat chunks) (Z.lxor c 0xFFFFFFFF)) 0xFFFFFFFF.
Proof.
  revert c. induction chunks as [|ch chunks IH]; intros c Hf Hc; simpl.
  - rewrite Z.lxor_assoc, Z.lxor_nilpotent, Z.lxor_0_r. reflexivity.
  - inversion Hf; subst. rewrite IH by (auto; apply crc32Update_range).
    rewrite fold_left_app. f_equal. f_equal.
    rewrite crc32Update_spec by assumption. rewrite (to_uint32_small c) by lia.
    rewrite Z.lxor_assoc, Z.lxor_nilpotent, Z.lxor_0_r. reflexivity.
Qed.

End Crc.

(** Claim C8: for every byte sequence cut into chunks, folding
    [crc32Update] over the chunks from 0 gives the CRC-32 of the spec
    (polynomial 0xEDB88320, initial and final inversion, byte-wise table
    update, 32-bit mask) of the whole sequence. *)
Theorem crc32_chunks_concat (chunks : list buffer) :
  Forall (Forall byte_range) chunks ->
  fold_left crc32Update chunks 0 = crc32_spec (concat chunks).
Proof.
  intros Hf. rewrite crc32_fold_chunks by (auto; lia).
  unfold crc32_spec. change (Z.lxor 0 0xFFFFFFFF) with 0xFFFFFFFF.
  symmetry. apply (proj1 (in_range_land _)). apply lxor_range; [|lia].
  apply crc_spec_fold_range. lia.
Qed.

Lemma crc32_chunks_concat_witness :
  Forall (Forall byte_range) [[49]; [50; 51]] /\
  fold_left crc32Update [[49]; [50; 51]] 0 = crc32_spec (concat [[49]; [50; 51]]).
Proof.
  assert (H : Forall (Forall byte_range) [[49]; [50; 51]])
    by (repeat constructor; unfold byte_range; lia).
  split; [exact H | apply (crc32_chunks_concat _ H)].
Defined.

(* --------------------------------------------------------------------- *)
(* Path normalization                                                    *)
(* --------------------------------------------------------------------- *)

Definition keep_component (c : str) : bool := negb (str_eqb c [] || str_eqb c [DOT]).

Lemma normalize_parts_filter parts out :
  normalize_parts parts out =
  if existsb (fun c => str_eqb c [DOT; DOT]) (List.filter keep_component parts)
  then Err ParentPathNotAllowed else Ok (out ++ List.filter keep_component parts).
Proof.
  unfold keep_component. revert out.
  induction parts as [|part parts IH]; intros out; simpl.
  - rewrite app_nil_r. reflexivity.
  - destruct (str_eqb part [] || str_eqb part [DOT]) eqn:Hk; simpl.
    + apply IH.
    + destruct (str_eqb part [DOT; DOT]) eqn:Hd; simpl; [reflexivity|].
      rewrite IH, <- app_assoc. reflexivity.
Qed.

(** Claim C6 (amended): [normalizeZipPath] is the step-by-step
    normalization of the spec (NUL rejected; backslashes to slashes;
    leading [./] stripped repeatedly; leading [/] rejected; empty and
    [.] components dropped; any [..] rejected; rejoined with [/]); as the
    backslash replacement comes before the leading-slash check,
    [\windows\path\z.txt] is rejected as absolute, while
    [windows\path\z.txt] normalizes to [windows/path/z.txt]; and every
    CD entry whose name normalizes to the empty string is dropped: once
    its method passed the check that precedes normalization (STORE or
    DEFLATE), reconciling it changes neither the reconciliation state
    nor the store. *)
Theorem normalizeZipPath_behaviour :
  (forall p, normalizeZipPath p = normalize_path_spec p) /\
  normalizeZipPath (s2z "\windows\path\z.txt") = Err AbsolutePathsNotAllowed /\
  normalizeZipPath (s2z "windows\path\z.txt") = Ok (s2z "windows/path/z.txt") /\
  normalizeZipPath (s2z "/abs.txt") = Err AbsolutePathsNotAllowed /\
  normalizeZipPath (s2z "././a//./b.txt") = Ok (s2z "a/b.txt") /\
  normalizeZipPath (s2z "./x/../y.txt") = Err ParentPathNotAllowed /\
  normalizeZipPath (s2z "a" ++ [0]) = Err InvalidFilenameNUL /\
  (forall E L spool (e : CentralEntry) rs,
     (c_method e = 0 \/ c_method e = 8) -> normalizeZipPath (c_fileName e) = Ok [] ->
     reconcile_entry E L spool e rs = mret rs).
Proof.
  split.
  { intros p. unfold normalizeZipPath, normalize_path_spec.
    destruct (existsb _ p); [reflexivity|].
    destruct (starts_with _ _); [reflexivity|].
    rewrite normalize_parts_filter. unfold keep_component.
    destruct (existsb _ _); reflexivity. }
  repeat split; try reflexivity.
  intros E L spool e rs Hm Hn. unfold reconcile_entry.
  destruct (c_isDirectory e); [reflexivity|].
  replace ((c_method e =? 0) || (c_method e =? 8)) with true
    by (destruct Hm as [-> | ->]; reflexivity).
  cbn [negb]. unfold mbind, mlift. rewrite Hn. reflexivity.
Qed.

(** Against claim C6 as first stated: the spec's example
    [\windows\path\z.txt] does not normalize to [windows/path/z.txt];
    the replaced backslash makes it absolute. *)
Lemma normalize_backslash_root_absolute :
  normalizeZipPath (s2z "\windows\path\z.txt") <> Ok (s2z "windows/path/z.txt").
Proof. vm_compute. discriminate. Qed.

(* --------------------------------------------------------------------- *)
(* GET /objects/{sha}                                                    *)
(* --------------------------------------------------------------------- *)

Lemma split_on_no_sep sep s :
  Forall (fun c => c <> sep) s -> split_on sep s = [s].
Proof.
  induction s as [|c s IH]; intros Hf; simpl; [reflexivity|].
  inversion Hf as [|? ? Hc Hs]; subst.
  rewrite (proj2 (Z.eqb_neq c sep) Hc), IH by assumption. reflexivity.
Qed.

Lemma objects_segment sha :
  Forall (fun c => c <> SLASH) sha ->
  split_on SLASH (s2z "/objects/" ++ sha) !! 2%nat = Some sha.
Proof.
  intros Hf. simpl. unfold SLASH in *. rewrite split_on_no_sep by assumption.
  reflexivity.
Qed.

Lemma handle_get_objects st sha hs :
  Forall (fun c => c <> SLASH) sha ->
  handle_get st (s2z "/objects/" ++ sha) hs = get_object st (s2z "/objects/" ++ sha) hs.
Proof.
  intros _. unfold handle_get.
  rewrite !bool_decide_false
    by (intros H; apply (f_equal (take 3)) in H; vm_compute in H; discriminate).
  reflexivity.
Qed.

(** Claim C9: on [GET /objects/{sha}] with an If-None-Match header
    listing the object's ETag, the answer is 304 with the ETag header
    only, whatever the store holds (the check precedes any lookup); so a
    404 answer means the header did not match. *)
Theorem get_object_conditional_first (st : store) (sha : str) (hs : list (str * str)) :
  sha <> [] -> Forall (fun c => c <> SLASH) sha ->
  (inm_matches hs sha ->
   handle_get st (s2z "/objects/" ++ sha) hs =
   {| resp_status := 304; resp_headers := [(s2z "etag", etag_of sha)];
      resp_body := BEmpty |}) /\
  (resp_status (handle_get st (s2z "/objects/" ++ sha) hs) = 404 ->
   ~ inm_matches hs sha).
Proof.
  intros Hne Hf.
  assert (H304 : inm_matches hs sha ->
                 handle_get st (s2z "/objects/" ++ sha) hs =
                 {| resp_status := 304; resp_headers := [(s2z "etag", etag_of sha)];
                    resp_body := BEmpty |}).
  { intros (v & Hv & Hin). rewrite handle_get_objects by assumption.
    unfold get_object. rewrite objects_segment by assumption. simpl default.
    rewrite bool_decide_false by assumption. rewrite Hv. simpl default.
    assert (Hv0 : v <> []).
    { intros ->. simpl in Hin. apply list_elem_of_singleton in Hin.
      unfold etag_of in Hin. simpl in Hin. discriminate. }
    rewrite bool_decide_false by assumption. simpl.
    assert (Hex : existsb (fun t => bool_decide (t = etag_of sha))
                          (map js_trim (split_on 44 v)) = true).
    { apply existsb_exists. exists (etag_of sha). split.
      - apply list_elem_of_In. exact Hin.
      - apply bool_decide_true. reflexivity. }
    rewrite Hex. reflexivity. }
  split; [exact H304|].
  intros H404 Hm. rewrite (H304 Hm) in H404. simpl in H404. discriminate.
Qed.

Lemma get_object_conditional_first_witness :
  let st := empty_store in
  let sha := s2z "abc" in
  let hs := [(s2z "if-none-match", s2z "W/x, " ++ etag_of (s2z "abc"))] in
  (sha <> [] /\ Forall (fun c => c <> SLASH) sha /\ inm_matches hs sha) /\
  handle_get st (s2z "/objects/" ++ sha) hs =
  {| resp_status := 304; resp_headers := [(s2z "etag", etag_of sha)]; resp_body := BEmpty |}.
Proof.
  intros st sha hs.
  assert (H1 : sha <> []) by discriminate.
  assert (H2 : Forall (fun c => c <> SLASH) sha)
    by (unfold sha; rewrite Forall_forall; intros c Hc; apply list_elem_of_In in Hc;
        vm_compute in Hc; unfold SLASH; lia).
  assert (H3 : inm_matches hs sha).
  { exists (s2z "W/x, " ++ etag_of (s2z "abc")). split; [reflexivity|].
    vm_compute. right. left. }
  split; [auto|]. exact (proj1 (get_object_conditional_first st sha hs H1 H2) H3).
Defined.

(* --------------------------------------------------------------------- *)
(* Cross-checks of a streamed entry                                      *)
(* --------------------------------------------------------------------- *)

(** Claim C5 (amended): the checks after a streamed entry, in the
    order the code makes them. The running total is checked first.
    Without a data descriptor the size check comes before the CRC check:
    'Size mismatch (local header)' exactly when the advertised size is
    non-zero and differs; otherwise 'CRC mismatch (local header)' exactly
    when the advertised CRC is non-zero and differs; zero values are not
    checked. With a data descriptor, once it is read: 'Size mismatch
    (DD)' exactly when its size differs, otherwise 'CRC mismatch (DD)'
    exactly when its CRC differs. *)
Theorem post_checks_order (L : UploadLimits) (tb : Z) (hdr : ZipEntryHeader)
    (q : queue) (r : StreamResult) :
  (tb + r_size r > maxTotalBytes L -> post_checks L tb hdr q r = Err TotalTooLarge) /\
  (tb + r_size r <= maxTotalBytes L ->
   (usesDD hdr = false ->
    (post_checks L tb hdr q r = Err SizeMismatchLH <->
     h_uncompressedSize hdr <> 0 /\ h_uncompressedSize hdr <> r_size r) /\
    (post_checks L tb hdr q r = Err CrcMismatchLH <->
     (h_uncompressedSize hdr = 0 \/ h_uncompressedSize hdr = r_size r) /\
     h_crc32 hdr <> 0 /\ h_crc32 hdr <> r_crc32 r) /\
    ((h_uncompressedSize hdr = 0 \/ h_uncompressedSize hdr = r_size r) ->
     (h_crc32 hdr = 0 \/ h_crc32 hdr = r_crc32 r) ->
     post_checks L tb hdr q r = Ok (q, tb + r_size r))) /\
   (usesDD hdr = true ->
    forall dd q',
    readDataDescriptor ((h_compressedSize hdr >? 0xFFFFFFFF)
                        || (h_uncompressedSize hdr >? 0xFFFFFFFF)) q = Ok (dd, q') ->
    (post_checks L tb hdr q r = Err SizeMismatchDD <-> dd_uncompressedSize dd <> r_size r) /\
    (post_checks L tb hdr q r = Err CrcMismatchDD <->
     dd_uncompressedSize dd = r_size r /\ dd_crc32 dd <> r_crc32 r) /\
    (dd_uncompressedSize dd = r_size r -> dd_crc32 dd = r_crc32 r ->
     post_checks L tb hdr q r = Ok (q', tb + r_size r)))).
Proof.
  unfold post_checks. split.
  { intros H. replace (tb + r_size r >? maxTotalBytes L) with true
      by (symmetry; apply Z.gtb_lt; lia). reflexivity. }
  intros Htot. replace (tb + r_size r >? maxTotalBytes L) with false
    by (symmetry; rewrite Z.gtb_ltb; apply Z.ltb_ge; lia).
  split.
  - intros Hdd. rewrite Hdd. simpl.
    destruct (Z.eqb_spec (h_uncompressedSize hdr) 0) as [Hu0|Hu0];
    destruct (Z.eqb_spec (h_uncompressedSize hdr) (r_size r)) as [Hus|Hus];
    destruct (Z.eqb_spec (h_crc32 hdr) 0) as [Hc0|Hc0];
    destruct (Z.eqb_spec (h_crc32 hdr) (r_crc32 r)) as [Hcs|Hcs]; simpl;
    (split; [split; [intros H; try discriminate; tauto | intros; try reflexivity; tauto]|]);
    (split; [split; [intros H; try discriminate; tauto | intros; try reflexivity; tauto]|]);
    intros [?|?] [?|?]; try reflexivity; tauto.
  - intros Hdd dd q' Hr. rewrite Hdd. simpl. rewrite Hr. simpl.
    destruct (Z.eqb_spec (dd_uncompressedSize dd) (r_size r)) as [Hus|Hus];
    destruct (Z.eqb_spec (dd_crc32 dd) (r_crc32 r)) as [Hcs|Hcs]; simpl;
    (split; [split; [intros H; try discriminate; tauto | intros; try reflexivity; tauto]|]);
    (split; [split; [intros H; try discriminate; tauto | intros; try reflexivity; tauto]|]);
    intros; try reflexivity; tauto.
Qed.

(** Against claim C5 as first stated: the local header of "f.txt"
    advertises a non-zero CRC that differs from the contents' CRC, yet
    the ingest fails with 'Size mismatch (local header)', the advertised
    size being wrong too. *)
Lemma post_checks_size_precedes_crc :
  let bad := {| fx_name := s2z "f.txt"; fx_flags := 0; fx_data := s2z "abc";
                fx_lh_crc := 1; fx_lh_usize := 7 |} in
  fx_lh_crc bad <> 0 /\ fx_lh_crc bad <> crc32Update 0 (fx_data bad) /\
  (uploadZipAsFileset fixture_env default_limits None (mk_zip [bad]) empty_store).1
  = Err SizeMismatchLH.
Proof. vm_compute. split; [discriminate | split; [discriminate | reflexivity]]. Qed.

(* --------------------------------------------------------------------- *)
(* Locating the end of central directory record                          *)
(* --------------------------------------------------------------------- *)

Lemma u32_drop (l : buffer) (s : nat) (i : Z) :
  (s <= length l)%nat -> 0 <= i ->
  u32 (drop s l) i = u32 l (Z.of_nat s + i).
Proof.
  intros Hs Hi. unfold u32, read_le. rewrite length_drop.
  replace (Z.to_nat (Z.of_nat s + i)) with (s + Z.to_nat i)%nat by lia.
  rewrite drop_drop.
  destruct (0 <=? i) eqn:E1; [|apply Z.leb_gt in E1; lia].
  destruct (0 <=? Z.of_nat s + i) eqn:E2; [|apply Z.leb_gt in E2; lia].
  simpl. destruct (i + Z.of_nat 4 <=? Z.of_nat (length l - s)) eqn:E3;
  destruct (Z.of_nat s + i + Z.of_nat 4 <=? Z.of_nat (length l)) eqn:E4;
  try reflexivity; apply Z.leb_le in E3 || apply Z.leb_gt in E3;
  apply Z.leb_le in E4 || apply Z.leb_gt in E4; lia.
Qed.

Lemma u32_short (l : buffer) (i : Z) :
  Z.of_nat (length l) < i + 4 -> u32 l i = None.
Proof.
  intros H. unfold u32, read_le.
  destruct (i + Z.of_nat 4 <=? Z.of_nat (length l)) eqn:E.
  - apply Z.leb_le in E. lia.
  - rewrite andb_false_r. reflexivity.
Qed.

Lemma eocd_scan_none (t : buffer) (i : nat) :
  eocd_scan t i = None <-> forall j, (j <= i)%nat -> u32 t (Z.of_nat j) <> Some EOCD_SIG.
Proof.
  induction i as [|i IH]; simpl.
  - case_bool_decide as Hs.
    + split; [discriminate|]. intros H. exfalso. exact (H 0%nat ltac:(lia) Hs).
    + split; [|reflexivity]. intros _ j Hj. replace j with 0%nat by lia. exact Hs.
  - case_bool_decide as Hs.
    + split; [discriminate|]. intros H. exfalso. exact (H (S i) ltac:(lia) Hs).
    + rewrite IH. split.
      * intros H j Hj. destruct (decide (j = S i)) as [->|Hne]; [exact Hs|].
        apply H. lia.
      * intros H j Hj. apply H. lia.
Qed.

Lemma eocd_scan_some (t : buffer) (i k : nat) :
  eocd_scan t i = Some k ->
  (k <= i)%nat /\ u32 t (Z.of_nat k) = Some EOCD_SIG /\
  forall j, (k < j <= i)%nat -> u32 t (Z.of_nat j) <> Some EOCD_SIG.
Proof.
  revert k. induction i as [|i IH]; intros k; simpl.
  - case_bool_decide as Hs; [|discriminate]. intros [= <-].
    split; [lia|]. split; [exact Hs|]. intros j Hj. lia.
  - case_bool_decide as Hs.
    + intros [= <-]. split; [lia|]. split; [exact Hs|]. intros j Hj. lia.
    + intros H. destruct (IH k H) as (Hk & Hsig & Hafter).
      split; [lia|]. split; [exact Hsig|]. intros j Hj.
      destruct (decide (j = S i)) as [->|Hne]; [exact Hs|]. apply Hafter. lia.
Qed.

Lemma eocd_tail_start_eq (size : Z) :
  0 <= size -> eocd_tail_start size = size - Z.min size 65558.
Proof.
  intros H. unfold eocd_tail_start, eocd_max_search.
  destruct (size >? 0x10000 + 22) eqn:E.
  - rewrite Z.gtb_lt in E. lia.
  - rewrite Z.gtb_ltb in E. apply Z.ltb_ge in E. lia.
Qed.

Lemma file_read_suffix (l : buffer) (s : nat) :
  (s <= length l)%nat ->
  file_read l (Z.of_nat s) (Z.of_nat (length l) - Z.of_nat s) = drop s l.
Proof.
  intros Hs. unfold file_read.
  replace (Z.to_nat (Z.of_nat s)) with s by lia.
  replace (Z.to_nat (Z.of_nat (length l) - Z.of_nat s)) with (length (drop s l))
    by (rewrite length_drop; lia).
  rewrite take_ge by lia. rewrite Nat.sub_diag. simpl. apply app_nil_r.
Qed.

(** The errors the central-directory walk can report. *)
Definition cd_walk_error (e : error) : Prop :=
  match e with
  | RangeError | Zip64UsizeMissingCentral | Zip64CsizeMissingCentral
  | Zip64OffsetMissingCentral => True
  | _ => False
  end.

Ltac destruct_matches_in H :=
  repeat match goal with
  | H' : context [match ?x with _ => _ end] |- _ => destruct x eqn:?
  end.

Lemma parseExtraZip64_loop_error f extra off wU wC wO e :
  parseExtraZip64_loop f extra off wU wC wO = Err e -> e = RangeError.
Proof.
  revert off. induction f as [|f IH]; intros off H; simpl in H; [discriminate|].
  unfold res_bind, res_map, of_option in H.
  destruct_matches_in H; try discriminate; try congruence; eauto.
Qed.

Lemma cd_loop_error E f buf p e :
  cd_loop E f buf p = Err e -> cd_walk_error e.
Proof.
  revert p. induction f as [|f IH]; intros p H; simpl in H; [discriminate|].
  unfold res_bind, parseExtraZip64 in H.
  destruct_matches_in H; try discriminate; simplify_eq; simpl; eauto;
  match goal with
  | H : parseExtraZip64_loop _ _ _ _ _ _ = Err _ |- _ =>
      apply parseExtraZip64_loop_error in H; subst; exact I
  end.
Qed.

(** The errors of [readCentralDirectory]. *)
Lemma readCentralDirectory_error E spool e :
  readCentralDirectory E spool = Err e ->
  e = EOCDNotFound \/ e = Zip64EOCDNotFound \/ cd_walk_error e.
Proof.
  intros H. unfold readCentralDirectory, res_bind, of_option in H.
  destruct_matches_in H; try discriminate; simplify_eq; auto;
  right; right; eapply cd_loop_error; eauto.
Qed.

(** 'EOCD not found' comes from the scan alone. *)
Lemma readCentralDirectory_eocd_not_found E spool :
  readCentralDirectory E spool = Err EOCDNotFound ->
  find_eocd (let size := Z.of_nat (length spool) in
             let start := eocd_tail_start size in
             file_read spool start (size - start)) = None.
Proof.
  intros H. unfold readCentralDirectory, res_bind, of_option in H. simpl.
  destruct (find_eocd _) eqn:Hf; [|reflexivity]. exfalso.
  destruct_matches_in H; try discriminate; simplify_eq.
  all: match goal with
  | Hc : cd_loop _ _ _ _ = Err _ |- _ => apply cd_loop_error in Hc; exact Hc
  end.
Qed.

(** Claim C2 (amended): with [size] the spool's length, the reader
    looks at the last [min(size, 65558)] bytes (0x10000 + 22) and tests
    the start offsets from [size - 22] down to the start of that window:
    it fails with 'EOCD not found' exactly when no EOCD signature starts
    at an offset [p] with [size - min(size, 65558) <= p <= size - 22]
    (a signature in the last 21 bytes is never tested); otherwise the
    record it uses is the one at the largest such offset. *)
Theorem eocd_search_window (E : env) (spool : buffer) :
  let size := Z.of_nat (length spool) in
  let lo := size - Z.min size 65558 in
  (readCentralDirectory E spool = Err EOCDNotFound <->
   forall p, lo <= p <= size - 22 -> u32 spool p <> Some EOCD_SIG) /\
  (forall k, find_eocd (file_read spool lo (size - lo)) = Some k ->
   let p := lo + Z.of_nat k in
   lo <= p <= size - 22 /\ u32 spool p = Some EOCD_SIG /\
   forall p', p < p' <= size - 22 -> u32 spool p' <> Some EOCD_SIG).
Proof.
  intros size lo.
  set (s := Z.to_nat lo).
  assert (Hlo : lo = Z.of_nat s) by (unfold s, lo, size; lia).
  assert (Hs : (s <= length spool)%nat) by (unfold s, lo, size; lia).
  assert (Htail : file_read spool lo (size - lo) = drop s spool)
    by (rewrite Hlo; apply file_read_suffix; exact Hs).
  assert (Hlen : length (drop s spool) = (length spool - s)%nat) by apply length_drop.
  assert (Hfind_none : find_eocd (drop s spool) = None <->
                       forall p, lo <= p <= size - 22 -> u32 spool p <> Some EOCD_SIG).
  { unfold find_eocd. rewrite Hlen.
    destruct (Nat.ltb_spec (length spool - s) 22) as [Hsm|Hge].
    - split; [|intros _; reflexivity]. intros _ p Hp. unfold size, lo in *. lia.
    - rewrite eocd_scan_none. split.
      + intros H p Hp. specialize (H (Z.to_nat (p - lo)) ltac:(unfold size in *; lia)).
        rewrite u32_drop in H by (auto; lia).
        replace (Z.of_nat s + Z.of_nat (Z.to_nat (p - lo))) with p in H by lia. exact H.
      + intros H j Hj. rewrite u32_drop by (auto; lia). apply H. unfold size in *. lia. }
  split.
  - rewrite <- Hfind_none.
    split.
    + intros Herr. apply readCentralDirectory_eocd_not_found in Herr.
      simpl in Herr. rewrite eocd_tail_start_eq in Herr by lia.
      fold size lo in Herr. rewrite Htail in Herr. exact Herr.
    + intros Hn. unfold readCentralDirectory. simpl.
      rewrite eocd_tail_start_eq by lia. fold size lo. rewrite Htail, Hn. reflexivity.
  - intros k. rewrite Htail. intros Hf p.
    unfold find_eocd in Hf. rewrite Hlen in Hf.
    destruct (Nat.ltb_spec (length spool - s) 22) as [Hsm|Hge]; [discriminate|].
    destruct (eocd_scan_some _ _ _ Hf) as (Hk & Hsig & Hafter).
    rewrite u32_drop in Hsig by (auto; lia). rewrite <- Hlo in Hsig.
    split; [unfold p, size in *; lia|]. split; [exact Hsig|].
    intros p' Hp'. specialize (Hafter (Z.to_nat (p' - lo)) ltac:(unfold p, size in *; lia)).
    rewrite u32_drop in Hafter by (auto; lia).
    replace (Z.of_nat s + Z.of_nat (Z.to_nat (p' - lo))) with p' in Hafter by lia.
    exact Hafter.
Qed.

(** Against claim C2 as first stated: a 21-byte spool starting with the
    EOCD signature has the signature inside its last [min(21, 65557)]
    bytes, yet the reader reports 'EOCD not found'. *)
Lemma eocd_short_file_not_found :
  let spool := le32 EOCD_SIG ++ replicate 17 0 in
  length spool = 21%nat /\ u32 spool 0 = Some EOCD_SIG /\
  readCentralDirectory fixture_env spool = Err EOCDNotFound.
Proof. vm_compute. split; [reflexivity | split; reflexivity]. Qed.

(* --------------------------------------------------------------------- *)
(* The ingest monad                                                      *)
(* --------------------------------------------------------------------- *)

Lemma mbind_inv {A B} (m : M A) (k : A -> M B) s r s'' :
  mbind m k s = (r, s'') ->
  (exists e, m s = (Err e, s'') /\ r = Err e) \/
  (exists a s', m s = (Ok a, s') /\ k a s' = (r, s'')).
Proof.
  unfold mbind. destruct (m s) as [[a|e] s'] eqn:Hm; intros H.
  - right. eauto.
  - left. injection H as <- <-. eauto.
Qed.

Lemma mlift_inv {A} (x : res A) s r s' : mlift x s = (r, s') -> r = x /\ s' = s.
Proof. unfold mlift. intros [= <- <-]. auto. Qed.

Ltac inv_bind H :=
  apply mbind_inv in H as [(?e & ?Hm & ?Her) | (?a & ?s & ?Hm & H)].

(** Effects confined to the object store: manifests and refs untouched. *)
Definition keeps_meta {A} (m : M A) : Prop :=
  forall s r s', m s = (r, s') -> st_filesets s' = st_filesets s /\ st_refs s' = st_refs s.

(** Never fails with 'Too many entries'. *)
Definition no_too_many {A} (m : M A) : Prop :=
  forall s s', m s <> (Err TooManyEntries, s').

Lemma keeps_ret {A} (a : A) : keeps_meta (mret a).
Proof. intros s r s' [= _ <-]. auto. Qed.

Lemma keeps_fail {A} e : keeps_meta (@mfail A e).
Proof. intros s r s' [= _ <-]. auto. Qed.

Lemma keeps_lift {A} (x : res A) : keeps_meta (mlift x).
Proof. intros s r s' [= _ <-]. auto. Qed.

Lemma keeps_bind {A B} (m : M A) (k : A -> M B) :
  keeps_meta m -> (forall a, keeps_meta (k a)) -> keeps_meta (mbind m k).
Proof.
  intros Hm Hk s r s'' H. inv_bind H.
  - subst. eapply Hm. eauto.
  - destruct (Hm _ _ _ Hm0), (Hk _ _ _ _ H). split; congruence.
Qed.

Lemma keeps_commit raw sha : keeps_meta (commitTempObject raw sha).
Proof.
  intros s r s'. unfold commitTempObject.
  destruct (st_objects s !! sha); intros [= _ <-]; auto.
Qed.

Lemma no_too_many_ret {A} (a : A) : no_too_many (mret a).
Proof. intros s s' H. discriminate. Qed.

Lemma no_too_many_fail {A} e : e <> TooManyEntries -> no_too_many (@mfail A e).
Proof. intros He s s' [= ?]. auto. Qed.

Lemma no_too_many_lift {A} (x : res A) : x <> Err TooManyEntries -> no_too_many (mlift x).
Proof. intros Hx s s' [= ?]. auto. Qed.

Lemma no_too_many_bind {A B} (m : M A) (k : A -> M B) :
  no_too_many m -> (forall a, no_too_many (k a)) -> no_too_many (mbind m k).
Proof.
  intros Hm Hk s s'' H. inv_bind H.
  - injection Her as <-. exact (Hm _ _ Hm0).
  - exact (Hk _ _ _ H).
Qed.

Lemma no_too_many_commit raw sha : no_too_many (commitTempObject raw sha).
Proof. intros s s'. unfold commitTempObject. discriminate. Qed.

Create HintDb ingest.
#[export] Hint Resolve keeps_ret keeps_fail keeps_lift keeps_commit : ingest.
#[export] Hint Resolve no_too_many_ret no_too_many_commit : ingest.

Ltac monad_prop :=
  repeat match goal with
  | |- keeps_meta (mbind _ _) => apply keeps_bind; [|intros ?]
  | |- no_too_many (mbind _ _) => apply no_too_many_bind; [|intros ?]
  | |- no_too_many (mfail _) => apply no_too_many_fail; discriminate
  | |- no_too_many (mlift (of_option _ _)) =>
      apply no_too_many_lift; destruct (_ : option _); discriminate
  | |- ?P (if ?b then _ else _) => destruct b
  | |- ?P (match ?x with _ => _ end) => destruct x
  | |- _ => progress eauto with ingest
  end.

Lemma keeps_processRawToCas L raw : keeps_meta (processRawToCas L raw).
Proof. unfold processRawToCas. monad_prop. Qed.

Lemma keeps_processEntryFromSpool E L spool off meth cs :
  keeps_meta (processEntryFromSpool E L spool off meth cs).
Proof. unfold processEntryFromSpool. monad_prop; apply keeps_processRawToCas. Qed.

Lemma keeps_stream_entry E L hdr q ss : keeps_meta (stream_entry E L hdr q ss).
Proof. unfold stream_entry. monad_prop; apply keeps_processRawToCas. Qed.

Lemma keeps_stream_loop E L f q ss : keeps_meta (stream_loop E L f q ss).
Proof.
  revert q ss. induction f as [|f IH]; intros q ss; simpl; monad_prop.
  apply keeps_stream_entry.
Qed.

Lemma keeps_entry_result E L spool e norm processed :
  keeps_meta (entry_result E L spool e norm processed).
Proof. unfold entry_result. monad_prop. apply keeps_processEntryFromSpool. Qed.

Lemma keeps_reconcile_entry E L spool e rs : keeps_meta (reconcile_entry E L spool e rs).
Proof. unfold reconcile_entry. monad_prop. apply keeps_entry_result. Qed.

Lemma keeps_reconcile E L spool es rs : keeps_meta (reconcile E L spool es rs).
Proof.
  revert rs. induction es as [|e es IH]; intros rs; simpl; monad_prop.
  apply keeps_reconcile_entry.
Qed.

Lemma no_too_many_processRawToCas L raw : no_too_many (processRawToCas L raw).
Proof. unfold processRawToCas. monad_prop. Qed.

Lemma no_too_many_processEntryFromSpool E L spool off meth cs :
  no_too_many (processEntryFromSpool E L spool off meth cs).
Proof. unfold processEntryFromSpool. monad_prop; apply no_too_many_processRawToCas. Qed.

Lemma no_too_many_entry_result E L spool e norm processed :
  no_too_many (entry_result E L spool e norm processed).
Proof. unfold entry_result. monad_prop. apply no_too_many_processEntryFromSpool. Qed.

Lemma normalizeZipPath_error p e :
  normalizeZipPath p = Err e ->
  e = InvalidFilenameNUL \/ e = AbsolutePathsNotAllowed \/ e = ParentPathNotAllowed.
Proof.
  unfold normalizeZipPath. rewrite normalize_parts_filter.
  destruct (existsb _ _); [intros [= <-]; auto|].
  destruct (starts_with _ _); [intros [= <-]; auto|].
  destruct (existsb _ _); simpl; [intros [= <-]; auto | discriminate].
Qed.

Lemma no_too_many_reconcile_entry E L spool e rs :
  no_too_many (reconcile_entry E L spool e rs).
Proof.
  unfold reconcile_entry. monad_prop.
  - apply no_too_many_lift. intros Hn.
    destruct (normalizeZipPath_error _ _ Hn) as [?|[?|?]]; discriminate.
  - apply no_too_many_entry_result.
Qed.

Lemma no_too_many_reconcile E L spool es rs : no_too_many (reconcile E L spool es rs).
Proof.
  revert rs. induction es as [|e es IH]; intros rs; simpl; monad_prop.
  apply no_too_many_reconcile_entry.
Qed.

(** A successful upload: the phases it went through and its result. *)
Lemma upload_ok_inv E L ref zip s r s' :
  uploadZipAsFileset E L ref zip s = (Ok r, s') ->
  exists ss s1 entries cdw rs s2,
    stream_loop E L (S (length zip)) {| q_rest := zip; q_consumed := 0 |} stream_init s
      = (Ok ss, s1) /\
    readCentralDirectory E zip = Ok (entries, cdw) /\
    reconcile E L zip entries
      {| rs_finalEntries := []; rs_seenPaths := ∅; rs_warnings := ss_warnings ss ++ cdw;
         rs_processed := ss_processed ss |} s1 = (Ok rs, s2) /\
    r = {| u_filesetId := fileset_id_of (sort_by (path_compare E) (rs_finalEntries rs));
           u_manifest := build_manifest (sort_by (path_compare E) (rs_finalEntries rs))
                                        (rs_warnings rs);
           u_updatedRef := ref |}.
Proof.
  unfold uploadZipAsFileset. destruct (_ >? _); [discriminate|]. intros H.
  inv_bind H; [discriminate|]. rename a into ss.
  inv_bind H; [discriminate|]. apply mlift_inv in Hm0 as [Hcd ->].
  destruct a as [entries cdw].
  inv_bind H; [discriminate|]. rename a into rs.
  inv_bind H; [discriminate|].
  inv_bind H; [discriminate|].
  injection H as <- _.
  exists ss, s0, entries, cdw, rs, s1. auto.
Qed.

(* --------------------------------------------------------------------- *)
(* The fileset id and the commit                                         *)
(* --------------------------------------------------------------------- *)

Lemma utf8_encode_app a b : utf8_encode (a ++ b) = utf8_encode a ++ utf8_encode b.
Proof. unfold utf8_encode. apply flat_map_app. Qed.

(** Claim C3, as the code computes it: on a successful ingest the
    fileset id is the SHA-256 of the UTF-8 bytes of "v1\0" ('v', '1',
    NUL) followed by the canonical string, the concatenation over the
    manifest's (sorted) files of [path + "\0sha256:" + hash + "\0" +
    size + "\n"], with NUL characters where the claim has spaces; when
    the central directory lists no entry, the manifest has no files,
    file_count and total_bytes are 0 and the id is SHA-256("v1\0"). *)
Theorem fileset_id_canonical (E : env) (L : UploadLimits) (ref : option str) (zip : buffer)
    (s : store) (r : upload_result) (s' : store) :
  uploadZipAsFileset E L ref zip s = (Ok r, s') ->
  u_filesetId r = m_fileset_id (u_manifest r) /\
  m_fileset_id (u_manifest r) =
    sha256_hex (utf8_encode ((s2z "v1" ++ [0]) ++
      concat (map (fun e => fe_path e ++ [0] ++ s2z "sha256:" ++ fe_sha256 e ++ [0]
                            ++ show_Z (fe_size e) ++ [10])
                  (m_files (u_manifest r))))) /\
  (forall cdw, readCentralDirectory E zip = Ok ([], cdw) ->
   m_files (u_manifest r) = [] /\ m_file_count (u_manifest r) = 0 /\
   m_total_bytes (u_manifest r) = 0 /\
   m_fileset_id (u_manifest r) = sha256_hex (s2z "v1" ++ [0])).
Proof.
  intros H.
  destruct (upload_ok_inv _ _ _ _ _ _ _ H)
    as (ss & s1 & entries & cdw & rs & s2 & Hs & Hcd & Hrec & ->).
  simpl. split; [reflexivity|]. split.
  - unfold fileset_id_of. rewrite <- utf8_encode_app. reflexivity.
  - intros cdw' Hcd'. rewrite Hcd in Hcd'. injection Hcd' as -> ->.
    simpl in Hrec. injection Hrec as <- _. simpl.
    split; [reflexivity|]. split; [reflexivity|]. split; [reflexivity|].
    unfold fileset_id_of. f_equal.
Qed.

Lemma fileset_id_canonical_witness :
  exists r s',
    uploadZipAsFileset fixture_env default_limits None (mk_zip []) empty_store = (Ok r, s') /\
    readCentralDirectory fixture_env (mk_zip []) = Ok ([], []) /\
    m_files (u_manifest r) = [] /\
    m_fileset_id (u_manifest r) = sha256_hex (s2z "v1" ++ [0]).
Proof.
  assert (Hcd : readCentralDirectory fixture_env (mk_zip []) = Ok ([], []))
    by (vm_compute; reflexivity).
  assert (Hrun : match (uploadZipAsFileset fixture_env default_limits None (mk_zip [])
                          empty_store).1 with Ok _ => True | Err _ => False end)
    by (vm_compute; exact I).
  revert Hrun.
  destruct (uploadZipAsFileset fixture_env default_limits None (mk_zip []) empty_store)
    as [[r|e] s'] eqn:H; [intros _|intros []].
  destruct (fileset_id_canonical _ _ _ _ _ _ _ H) as (_ & _ & Hempty).
  destruct (Hempty [] Hcd) as (Hf & _ & _ & Hid).
  exists r, s'. auto.
Defined.

(** Against claim C3: the id of an archive with no entries is
    SHA-256("v1\0") = 74da98fd...ae27, not SHA-256("v1 ") = 51aa814f...a163
    as the claim states. *)
Lemma fileset_id_empty_not_v1_space :
  match (uploadZipAsFileset fixture_env default_limits None (mk_zip []) empty_store).1 with
  | Ok r => m_files (u_manifest r) = [] /\
            m_fileset_id (u_manifest r) =
              s2z "74da98fdf740b7cab5755d06f605ad657f4d85e00cb0d0af63641478463aae27" /\
            m_fileset_id (u_manifest r) <> sha256_hex (s2z "v1 ")
  | Err _ => False
  end.
Proof. vm_compute. split; [reflexivity | split; [reflexivity | discriminate]]. Qed.




(* --------------------------------------------------------------------- *)
(* The entry cap                                                         *)
(* --------------------------------------------------------------------- *)

(** Claim C10: 'Too many entries' can only come from the streaming
    phase (reconciliation never reports it); so an archive whose
    streaming phase stops at a first STORE entry with a data descriptor
    is ingested with more files than [maxEntries], while the same files
    without the descriptor are refused. *)
Theorem too_many_entries_streaming_only :
  (forall E L ref zip s,
   (uploadZipAsFileset E L ref zip s).1 = Err TooManyEntries ->
   (stream_loop E L (S (length zip)) {| q_rest := zip; q_consumed := 0 |} stream_init s).1
   = Err TooManyEntries) /\
  (forall E L spool es rs s, (reconcile E L spool es rs s).1 <> Err TooManyEntries) /\
  (maxEntries one_entry_limits = 1 /\
   match (uploadZipAsFileset fixture_env one_entry_limits None
            (mk_zip [stored_dd "a.txt" "one"; plain "b.txt" "two"; plain "c.txt" "three"])
            empty_store).1 with
   | Ok r => m_file_count (u_manifest r) = 3 /\ length (m_files (u_manifest r)) = 3%nat
   | Err _ => False
   end) /\
  (uploadZipAsFileset fixture_env one_entry_limits None
     (mk_zip [plain "a.txt" "one"; plain "b.txt" "two"; plain "c.txt" "three"])
     empty_store).1 = Err TooManyEntries.
Proof.
  split; [|split; [|split]].
  - intros E L ref zip s.
    destruct (uploadZipAsFileset E L ref zip s) as [r s'] eqn:H. intros Hr.
    cbn [fst] in Hr. subst r.
    unfold uploadZipAsFileset in H. destruct (_ >? _); [discriminate|].
    inv_bind H; [rewrite Hm; cbn [fst]; congruence|].
    inv_bind H.
    { apply mlift_inv in Hm0 as [Hcd _]. injection Her as <-. symmetry in Hcd.
      destruct (readCentralDirectory_error _ _ _ Hcd) as [?|[?|Hw]]; try discriminate.
      destruct Hw. }
    destruct a0 as [entries cdw].
    inv_bind H.
    { injection Her as <-. exfalso. exact (no_too_many_reconcile _ _ _ _ _ _ _ Hm1). }
    inv_bind H.
    { injection Her as <-. unfold storeFilesetManifest in Hm2.
      destruct (fs_write_ok _ _); discriminate. }
    inv_bind H; [|discriminate].
    injection Her as <-.
    destruct ref as [name|]; [destruct (bool_decide _)|]; try discriminate.
    unfold writeRef in Hm3. destruct (fs_write_ok _ _); discriminate.
  - intros E L spool es rs s H.
    destruct (reconcile E L spool es rs s) as [r s'] eqn:Hr. simpl in H. subst r.
    exact (no_too_many_reconcile _ _ _ _ _ _ _ Hr).
  - split; [reflexivity|]. vm_compute. split; reflexivity.
  - vm_compute. reflexivity.
Qed.

(* --------------------------------------------------------------------- *)
(* Reconciliation: the results of the kept entries, then last wins       *)
(* --------------------------------------------------------------------- *)

Lemma reconcile_split E L spool es : forall rs s rs' s',
  reconcile E L spool es rs s = (Ok rs', s') ->
  exists ps,
    entry_results E L spool es (rs_processed rs) s = (Ok (ps, rs_processed rs'), s') /\
    (rs_finalEntries rs', rs_seenPaths rs', rs_warnings rs') =
      add_all ps (rs_finalEntries rs, rs_seenPaths rs, rs_warnings rs).
Proof.
  induction es as [|e es IH]; intros rs s rs' s' H.
  - simpl in H. injection H as <- <-. exists []. split; reflexivity.
  - cbn [reconcile] in H. inv_bind H; [discriminate|].
    destruct (IH _ _ _ _ H) as (ps & Hps & Hadd).
    unfold reconcile_entry in Hm. cbn [entry_results].
    destruct (c_isDirectory e).
    { injection Hm as <- <-. exists ps. auto. }
    destruct (negb _); [discriminate|].
    unfold mbind, mlift in Hm |- *. cbv beta in Hm |- *.
    destruct (normalizeZipPath (c_fileName e)) as [norm|err]; [|discriminate].
    destruct (bool_decide (norm = [])).
    { injection Hm as <- <-. exists ps. auto. }
    destruct (entry_result E L spool e norm (rs_processed rs) s) as [[[r P1]|err] s2];
      [|discriminate].
    destruct (add_final norm r (rs_finalEntries rs, rs_seenPaths rs, rs_warnings rs))
      as [[fe seen] ws] eqn:Hadd1.
    injection Hm as <- <-. simpl in Hps, Hadd.
    rewrite Hps. exists ((norm, r) :: ps). split; [reflexivity|].
    rewrite Hadd. change (add_all ((norm, r) :: ps) ?acc) with (add_all ps (add_final norm r acc)).
    rewrite Hadd1. reflexivity.
Qed.

Lemma entry_results_paths E L spool es : forall P s ps P' s',
  entry_results E L spool es P s = (Ok (ps, P'), s') -> map fst ps = kept_paths es.
Proof.
  induction es as [|e es IH]; intros P s ps P' s' H.
  - injection H as <- _ _. reflexivity.
  - assert (Hk : kept_paths (e :: es) =
      match (if c_isDirectory e then None else
             match normalizeZipPath (c_fileName e) with
             | Ok p => if bool_decide (p = []) then None else Some p
             | Err _ => None
             end) with
      | Some p => p :: kept_paths es
      | None => kept_paths es
      end) by reflexivity.
    rewrite Hk. cbn [entry_results] in H.
    destruct (c_isDirectory e); [exact (IH _ _ _ _ _ H)|].
    destruct (negb _); [discriminate|].
    unfold mbind, mlift in H. cbv beta in H.
    destruct (normalizeZipPath (c_fileName e)) as [norm|err]; [|discriminate].
    destruct (bool_decide (norm = [])); [exact (IH _ _ _ _ _ H)|].
    destruct (entry_result E L spool e norm P s) as [[[r P1]|err] s1]; [|discriminate].
    destruct (entry_results E L spool es P1 s1) as [[[ps' P'']|err] s''] eqn:Hrest;
      [|discriminate].
    injection H as <- _ _. simpl. f_equal. exact (IH _ _ _ _ _ Hrest).
Qed.

Lemma first_occurrences_snoc l p :
  first_occurrences (l ++ [p]) =
  if bool_decide (p ∈ first_occurrences l) then first_occurrences l
  else first_occurrences l ++ [p].
Proof. unfold first_occurrences. rewrite fold_left_app. reflexivity. Qed.

Lemma first_occurrences_elem l p : p ∈ first_occurrences l <-> p ∈ l.
Proof.
  induction l as [|q l IH] using rev_ind.
  - reflexivity.
  - rewrite first_occurrences_snoc, elem_of_app, list_elem_of_singleton.
    case_bool_decide as Hq.
    + rewrite IH. split; [auto|]. intros [H| ->]; [exact H|]. apply IH, Hq.
    + rewrite elem_of_app, list_elem_of_singleton, IH. reflexivity.
Qed.

Lemma first_occurrences_NoDup l : NoDup (first_occurrences l).
Proof.
  induction l as [|q l IH] using rev_ind.
  - constructor.
  - rewrite first_occurrences_snoc. case_bool_decide as Hq; [exact IH|].
    apply NoDup_app. split; [exact IH|]. split; [|apply NoDup_singleton].
    intros x Hx Hin. apply list_elem_of_singleton in Hin. subst x. contradiction.
Qed.

Lemma last_entry_for_snoc p ps q r :
  last_entry_for p (ps ++ [(q, r)]) =
  if bool_decide (q = p) then entry_of q r else last_entry_for p ps.
Proof. unfold last_entry_for. rewrite fold_left_app. reflexivity. Qed.

Lemma last_entry_for_path p ps : fe_path (last_entry_for p ps) = p.
Proof.
  induction ps as [|[q r] ps IH] using rev_ind; [reflexivity|].
  rewrite last_entry_for_snoc. case_bool_decide; [subst; reflexivity | exact IH].
Qed.

Lemma dedup_last_wins_paths ps :
  map fe_path (dedup_last_wins ps) = first_occurrences (map fst ps).
Proof.
  unfold dedup_last_wins. rewrite List.map_map.
  transitivity (map (fun p => p) (first_occurrences (map fst ps))).
  - apply List.map_ext. intros p. apply last_entry_for_path.
  - apply List.map_id.
Qed.

Lemma duplicate_warnings_from_snoc before ps q r :
  duplicate_warnings_from before (ps ++ [(q, r)]) =
  duplicate_warnings_from before ps ++
  (if bool_decide (q ∈ before ++ map fst ps) then [duplicate_warning q] else []).
Proof.
  revert before. induction ps as [|[q' r'] ps IH]; intros before; simpl.
  - rewrite !app_nil_r. reflexivity.
  - rewrite IH, <- !app_assoc. reflexivity.
Qed.

Lemma add_all_snoc ps q r acc : add_all (ps ++ [(q, r)]) acc = add_final q r (add_all ps acc).
Proof. unfold add_all. rewrite fold_left_app. reflexivity. Qed.

Lemma list_insert_map_NoDup {B} (f : str -> B) (l : list str) i q x :
  NoDup l -> l !! i = Some q ->
  <[i := x]> (map f l) = map (fun p => if bool_decide (q = p) then x else f p) l.
Proof.
  revert i. induction l as [|a l IH]; intros i Hnd Hl; [discriminate|].
  apply NoDup_cons in Hnd as [Ha Hnd].
  destruct i as [|i]; simpl in Hl |- *.
  - injection Hl as <-. rewrite bool_decide_true by reflexivity. f_equal.
    apply List.map_ext_in. intros p Hp. rewrite bool_decide_false; [reflexivity|].
    intros ->. apply Ha, list_elem_of_In, Hp.
  - rewrite bool_decide_false.
    + f_equal. apply IH; assumption.
    + intros ->. apply Ha. eapply list_elem_of_lookup_2, Hl.
Qed.

(** The duplicate handling from the loop's initial state: the entries
    are one per distinct path in order of first occurrence, each with the
    last result for its path; one warning per repeated occurrence; the
    seen map gives each path's position. *)
Lemma add_all_invariant ws0 ps : forall fe seen ws,
  add_all ps ([], ∅, ws0) = (fe, seen, ws) ->
  fe = dedup_last_wins ps /\ ws = ws0 ++ duplicate_warnings ps /\
  (forall q i, seen !! q = Some i <-> first_occurrences (map fst ps) !! i = Some q).
Proof.
  induction ps as [|[q r] ps IH] using rev_ind; intros fe' seen' ws' H.
  - injection H as <- <- <-. split; [reflexivity|]. split; [rewrite app_nil_r; reflexivity|].
    intros q i. rewrite lookup_empty. split; intros Hq; discriminate Hq.
  - rewrite add_all_snoc in H.
    destruct (add_all ps ([], ∅, ws0)) as [[fe seen] ws] eqn:Hacc.
    destruct (IH _ _ _ eq_refl) as (-> & -> & Hseen).
    unfold dedup_last_wins, duplicate_warnings.
    rewrite map_app. simpl (map fst [(q, r)]).
    rewrite first_occurrences_snoc, duplicate_warnings_from_snoc. simpl (app [] (map fst ps)).
    unfold dedup_last_wins in *.
    set (FO := first_occurrences (map fst ps)) in *.
    assert (Hmap : forall l, q ∉ l ->
      map (fun p => last_entry_for p (ps ++ [(q, r)])) l = map (fun p => last_entry_for p ps) l).
    { intros l Hl. apply List.map_ext_in. intros p Hp.
      rewrite last_entry_for_snoc, bool_decide_false; [reflexivity|].
      intros ->. apply Hl, list_elem_of_In, Hp. }
    unfold add_final in H. destruct (seen !! q) as [idx|] eqn:Hq.
    + injection H as <- <- <-.
      assert (HFO : FO !! idx = Some q) by (apply Hseen; exact Hq).
      assert (Hin : q ∈ FO) by (eapply list_elem_of_lookup_2, HFO).
      assert (Hin' : q ∈ map fst ps) by (apply first_occurrences_elem, Hin).
      rewrite !bool_decide_true by assumption.
      split; [|split; [rewrite app_assoc; reflexivity | exact Hseen]].
      rewrite (list_insert_map_NoDup _ FO _ _ _ (first_occurrences_NoDup _) HFO).
      apply List.map_ext. intros p. rewrite last_entry_for_snoc. reflexivity.
    + injection H as <- <- <-.
      assert (Hnin : q ∉ FO).
      { intros Hin. apply list_elem_of_lookup_1 in Hin as [i Hi].
        apply Hseen in Hi. congruence. }
      assert (Hnin' : q ∉ map fst ps) by (rewrite <- first_occurrences_elem; exact Hnin).
      rewrite !bool_decide_false by assumption.
      split; [|split; [rewrite app_nil_r; reflexivity|]].
      * rewrite map_app, Hmap by exact Hnin. simpl.
        rewrite last_entry_for_snoc, bool_decide_true by reflexivity. reflexivity.
      * intros q' i. rewrite length_map.
        destruct (decide (q' = q)) as [->|Hne].
        -- rewrite lookup_insert_eq. split.
           ++ intros [= <-]. apply list_lookup_middle. reflexivity.
           ++ intros Hi. apply lookup_app_Some in Hi as [Hi|[Hge Hi]].
              ** exfalso. apply Hnin. eapply list_elem_of_lookup_2, Hi.
              ** apply list_lookup_singleton_Some in Hi as [Hi _]. f_equal. lia.
        -- rewrite lookup_insert_ne by congruence. rewrite Hseen. split.
           ++ apply lookup_app_l_Some.
           ++ intros Hi. apply lookup_app_Some in Hi as [Hi|[Hge Hi]]; [exact Hi|].
              apply list_lookup_singleton_Some in Hi as [_ Hi]. congruence.
Qed.

(** Reconciliation from its initial state succeeds with the kept
    entries' results, deduplicated last-wins at the first position. *)
Lemma reconcile_dedup E L spool es ws0 P s rs s' :
  reconcile E L spool es
    {| rs_finalEntries := []; rs_seenPaths := ∅; rs_warnings := ws0; rs_processed := P |} s
  = (Ok rs, s') ->
  exists ps,
    entry_results E L spool es P s = (Ok (ps, rs_processed rs), s') /\
    map fst ps = kept_paths es /\
    rs_finalEntries rs = dedup_last_wins ps /\
    rs_warnings rs = ws0 ++ duplicate_warnings ps /\
    NoDup (map fe_path (rs_finalEntries rs)).
Proof.
  intros H. destruct (reconcile_split _ _ _ _ _ _ _ _ H) as (ps & Hps & Hadd).
  simpl in Hps, Hadd. symmetry in Hadd.
  destruct (add_all_invariant _ _ _ _ _ Hadd) as (Hfe & Hws & _).
  exists ps. split; [exact Hps|].
  split; [exact (entry_results_paths _ _ _ _ _ _ _ _ _ Hps)|].
  split; [exact Hfe|]. split; [exact Hws|].
  rewrite Hfe, dedup_last_wins_paths. apply first_occurrences_NoDup.
Qed.

(** Claim C7: on a successful ingest, the CD entries the loop keeps
    yield one (path, result) pair each, in CD order; before the final
    sort the manifest's files are one entry per distinct path, at the
    position of its first occurrence and carrying the result (sha256 and
    size) of its last occurrence; the warnings end with one
    "Duplicate path: <p> (last wins)" per repeated occurrence. *)
Theorem duplicate_paths_last_wins E L ref zip s r s' :
  uploadZipAsFileset E L ref zip s = (Ok r, s') ->
  exists ss s1 entries cdw ps P s2,
    stream_loop E L (S (length zip)) {| q_rest := zip; q_consumed := 0 |} stream_init s
      = (Ok ss, s1) /\
    readCentralDirectory E zip = Ok (entries, cdw) /\
    entry_results E L zip entries (ss_processed ss) s1 = (Ok (ps, P), s2) /\
    map fst ps = kept_paths entries /\
    m_files (u_manifest r) = sort_by (path_compare E) (dedup_last_wins ps) /\
    map fe_path (dedup_last_wins ps) = first_occurrences (map fst ps) /\
    NoDup (map fe_path (dedup_last_wins ps)) /\
    m_warnings (u_manifest r) = ss_warnings ss ++ cdw ++ duplicate_warnings ps.
Proof.
  intros H.
  destruct (upload_ok_inv _ _ _ _ _ _ _ H)
    as (ss & s1 & entries & cdw & rs & s2 & Hs & Hcd & Hrec & ->).
  destruct (reconcile_dedup _ _ _ _ _ _ _ _ _ Hrec) as (ps & Hps & Hpaths & Hfe & Hws & Hnd).
  exists ss, s1, entries, cdw, ps, (rs_processed rs), s2. simpl.
  split; [exact Hs|]. split; [exact Hcd|]. split; [exact Hps|]. split; [exact Hpaths|].
  split; [rewrite Hfe; reflexivity|]. split; [apply dedup_last_wins_paths|].
  split; [rewrite <- Hfe; exact Hnd|]. rewrite Hws, app_assoc. reflexivity.
Qed.

Lemma duplicate_paths_last_wins_witness :
  exists r s',
    uploadZipAsFileset fixture_env default_limits None
      (mk_zip [plain "dup.txt" "1"; plain "./dup.txt" "2"]) empty_store = (Ok r, s') /\
    m_files (u_manifest r) =
      [{| fe_path := s2z "dup.txt"; fe_sha256 := sha256_hex (s2z "2"); fe_size := 1 |}] /\
    m_warnings (u_manifest r) = [duplicate_warning (s2z "dup.txt")] /\
    exists ss s1 entries cdw ps P s2,
      stream_loop fixture_env default_limits
        (S (length (mk_zip [plain "dup.txt" "1"; plain "./dup.txt" "2"])))
        {| q_rest := mk_zip [plain "dup.txt" "1"; plain "./dup.txt" "2"]; q_consumed := 0 |}
        stream_init empty_store = (Ok ss, s1) /\
      readCentralDirectory fixture_env (mk_zip [plain "dup.txt" "1"; plain "./dup.txt" "2"])
        = Ok (entries, cdw) /\
      entry_results fixture_env default_limits
        (mk_zip [plain "dup.txt" "1"; plain "./dup.txt" "2"]) entries (ss_processed ss) s1
        = (Ok (ps, P), s2) /\
      map fst ps = kept_paths entries /\
      m_files (u_manifest r) = sort_by (path_compare fixture_env) (dedup_last_wins ps) /\
      map fe_path (dedup_last_wins ps) = first_occurrences (map fst ps) /\
      NoDup (map fe_path (dedup_last_wins ps)) /\
      m_warnings (u_manifest r) = ss_warnings ss ++ cdw ++ duplicate_warnings ps.
Proof.
  assert (Hrun : match (uploadZipAsFileset fixture_env default_limits None
                          (mk_zip [plain "dup.txt" "1"; plain "./dup.txt" "2"])
                          empty_store).1 with
                 | Ok r =>
                     m_files (u_manifest r) =
                       [{| fe_path := s2z "dup.txt"; fe_sha256 := sha256_hex (s2z "2");
                           fe_size := 1 |}] /\
                     m_warnings (u_manifest r) = [duplicate_warning (s2z "dup.txt")]
                 | Err _ => False
                 end)
    by (vm_compute; split; reflexivity).
  revert Hrun.
  destruct (uploadZipAsFileset fixture_env default_limits None
              (mk_zip [plain "dup.txt" "1"; plain "./dup.txt" "2"]) empty_store)
    as [[r|e] s'] eqn:H; [intros [Hf Hw]|intros []].
  exists r, s'. split; [reflexivity|]. split; [exact Hf|]. split; [exact Hw|].
  exact (duplicate_paths_last_wins _ _ _ _ _ _ _ H).
Defined.

(* --------------------------------------------------------------------- *)
(* The final sort                                                        *)
(* --------------------------------------------------------------------- *)

Lemma insert_by_perm {A} (cmp : A -> A -> comparison) x l : insert_by cmp x l ≡ₚ x :: l.
Proof.
  induction l as [|y l IH]; simpl; [reflexivity|].
  case_bool_decide; [reflexivity|].
  etransitivity; [apply perm_skip, IH | apply perm_swap].
Qed.

Lemma sort_by_perm {A} (cmp : A -> A -> comparison) l : sort_by cmp l ≡ₚ l.
Proof.
  unfold sort_by.
  cut (forall acc, fold_left (fun acc x => insert_by cmp x acc) l acc ≡ₚ l ++ acc).
  { intros H. rewrite H, app_nil_r. reflexivity. }
  induction l as [|x l IH]; intros acc; simpl; [reflexivity|].
  rewrite IH, insert_by_perm. symmetry. apply Permutation_middle.
Qed.

Section sorted_insertion.
Context {A : Type} (cmp : A -> A -> comparison).
(** The comparator is antisymmetric in the weak sense that a [Gt]
    answer is [Lt] the other way round. *)
Hypothesis cmp_gt_lt : forall a b, cmp a b = Gt -> cmp b a = Lt.

Lemma insert_by_hd y x l :
  cmp y x <> Gt -> HdRel (fun a b => cmp a b <> Gt) y l ->
  HdRel (fun a b => cmp a b <> Gt) y (insert_by cmp x l).
Proof.
  intros Hyx Hhd. destruct l as [|z l]; simpl; [constructor; exact Hyx|].
  case_bool_decide; constructor; [exact Hyx|]. inversion Hhd. assumption.
Qed.

Lemma insert_by_sorted x l :
  Sorted (fun a b => cmp a b <> Gt) l -> Sorted (fun a b => cmp a b <> Gt) (insert_by cmp x l).
Proof.
  induction l as [|y l IH]; intros Hs; simpl; [repeat constructor|].
  apply Sorted_inv in Hs as [Hs Hhd].
  case_bool_decide as Hlt.
  - constructor; [constructor; assumption|]. constructor. congruence.
  - constructor; [apply IH, Hs|]. apply insert_by_hd; [|exact Hhd].
    intros Hgt. apply Hlt, cmp_gt_lt, Hgt.
Qed.

Lemma sort_by_sorted l : Sorted (fun a b => cmp a b <> Gt) (sort_by cmp l).
Proof.
  unfold sort_by.
  cut (forall acc, Sorted (fun a b => cmp a b <> Gt) acc ->
       Sorted (fun a b => cmp a b <> Gt) (fold_left (fun acc x => insert_by cmp x acc) l acc)).
  { intros H. apply H. constructor. }
  induction l as [|x l IH]; intros acc Hacc; simpl; [exact Hacc|].
  apply IH, insert_by_sorted, Hacc.
Qed.
End sorted_insertion.

Lemma Sorted_adjacent {A} (R : A -> A -> Prop) l :
  Sorted R l -> forall i a b, l !! i = Some a -> l !! S i = Some b -> R a b.
Proof.
  induction 1 as [|x l Hs IH Hhd]; intros i a b Ha Hb; [discriminate|].
  destruct i as [|i]; simpl in Ha, Hb.
  - injection Ha as <-. destruct l as [|y l]; [discriminate|].
    simpl in Hb. injection Hb as <-. inversion Hhd. assumption.
  - eapply IH; eassumption.
Qed.

Lemma NoDup_map_lookup {A B} (f : A -> B) l i j a b :
  NoDup (map f l) -> l !! i = Some a -> l !! j = Some b -> f a = f b -> i = j.
Proof.
  revert i j. induction l as [|x l IH]; intros i j Hnd Ha Hb Hf; [discriminate|].
  simpl in Hnd. apply NoDup_cons in Hnd as [Hx Hnd].
  assert (Hel : forall k c, l !! k = Some c -> f c ∈ map f l).
  { intros k c Hk. apply list_elem_of_In, in_map, list_elem_of_In.
    eapply list_elem_of_lookup_2, Hk. }
  destruct i as [|i], j as [|j]; simpl in Ha, Hb.
  - reflexivity.
  - injection Ha as <-. exfalso. apply Hx. rewrite Hf. eapply Hel, Hb.
  - injection Hb as <-. exfalso. apply Hx. rewrite <- Hf. eapply Hel, Ha.
  - f_equal. eapply IH; eassumption.
Qed.

Lemma lex_compare_antisym a b : lex_compare b a = CompOpp (lex_compare a b).
Proof.
  revert b. induction a as [|x a IH]; intros [|y b]; simpl; try reflexivity.
  rewrite (Z.compare_antisym x y). destruct (x ?= y); simpl; auto.
Qed.

Lemma icu_ascii_compare_antisym a b : icu_ascii_compare b a = CompOpp (icu_ascii_compare a b).
Proof.
  unfold icu_ascii_compare.
  rewrite (lex_compare_antisym (map fold_case a) (map fold_case b)),
          (lex_compare_antisym (map case_rank a) (map case_rank b)),
          (lex_compare_antisym a b).
  destruct (lex_compare (map fold_case a) (map fold_case b)),
           (lex_compare (map case_rank a) (map case_rank b)), (lex_compare a b); reflexivity.
Qed.

(** Claim C1 (amended): the manifest's files are sorted with
    [localeCompare] on their paths (each path compares at most equal to
    the next; strictly less where the comparison only answers equal on
    equal strings), and no path occurs twice. *)
Theorem manifest_files_sorted (E : env) (L : UploadLimits) (ref : option str) (zip : buffer)
    (s : store) (r : upload_result) (s' : store) :
  (forall a b, locale_compare E a b = Gt -> locale_compare E b a = Lt) ->
  uploadZipAsFileset E L ref zip s = (Ok r, s') ->
  NoDup (map fe_path (m_files (u_manifest r))) /\
  (forall i a b, m_files (u_manifest r) !! i = Some a ->
   m_files (u_manifest r) !! S i = Some b ->
   locale_compare E (fe_path a) (fe_path b) <> Gt) /\
  ((forall a b, locale_compare E a b = Eq -> a = b) ->
   forall i a b, m_files (u_manifest r) !! i = Some a ->
   m_files (u_manifest r) !! S i = Some b ->
   locale_compare E (fe_path a) (fe_path b) = Lt).
Proof.
  intros Hlc H.
  destruct (upload_ok_inv _ _ _ _ _ _ _ H)
    as (ss & s1 & entries & cdw & rs & s2 & Hs & Hcd & Hrec & ->).
  destruct (reconcile_dedup _ _ _ _ _ _ _ _ _ Hrec) as (ps & _ & _ & _ & _ & Hnd).
  simpl.
  assert (Hnd' : NoDup (map fe_path (sort_by (path_compare E) (rs_finalEntries rs)))).
  { apply (NoDup_Permutation_proper _ _
             (Permutation_map fe_path (sort_by_perm (path_compare E) (rs_finalEntries rs)))).
    exact Hnd. }
  assert (Hsorted : forall i a b,
    sort_by (path_compare E) (rs_finalEntries rs) !! i = Some a ->
    sort_by (path_compare E) (rs_finalEntries rs) !! S i = Some b ->
    locale_compare E (fe_path a) (fe_path b) <> Gt).
  { apply Sorted_adjacent, sort_by_sorted. intros a b. apply Hlc. }
  split; [exact Hnd'|]. split; [exact Hsorted|].
  intros Heq i a b Ha Hb.
  destruct (locale_compare E (fe_path a) (fe_path b)) eqn:Hc.
  - apply Heq in Hc. pose proof (NoDup_map_lookup _ _ _ _ _ _ Hnd' Ha Hb Hc). lia.
  - reflexivity.
  - exfalso. exact (Hsorted i a b Ha Hb Hc).
Qed.

Lemma manifest_files_sorted_witness :
  exists r s',
    uploadZipAsFileset fixture_env default_limits None
      (mk_zip [plain "B" "1"; plain "a" "2"]) empty_store = (Ok r, s') /\
    map fe_path (m_files (u_manifest r)) = [s2z "a"; s2z "B"] /\
    NoDup (map fe_path (m_files (u_manifest r))) /\
    (forall i a b, m_files (u_manifest r) !! i = Some a ->
     m_files (u_manifest r) !! S i = Some b ->
     icu_ascii_compare (fe_path a) (fe_path b) <> Gt).
Proof.
  assert (Hlc : forall a b, locale_compare fixture_env a b = Gt ->
                            locale_compare fixture_env b a = Lt).
  { intros a b Hab. simpl in *. rewrite icu_ascii_compare_antisym, Hab. reflexivity. }
  assert (Hrun : match (uploadZipAsFileset fixture_env default_limits None
                          (mk_zip [plain "B" "1"; plain "a" "2"]) empty_store).1 with
                 | Ok r => map fe_path (m_files (u_manifest r)) = [s2z "a"; s2z "B"]
                 | Err _ => False
                 end)
    by (vm_compute; reflexivity).
  revert Hrun.
  destruct (uploadZipAsFileset fixture_env default_limits None
              (mk_zip [plain "B" "1"; plain "a" "2"]) empty_store)
    as [[r|e] s'] eqn:H; [intros Hpaths|intros []].
  destruct (manifest_files_sorted _ _ _ _ _ _ _ Hlc H) as (Hnd & Hs & _).
  exists r, s'. split; [reflexivity|]. split; [exact Hpaths|]. split; [exact Hnd | exact Hs].
Defined.

(** Against claim C1 as first stated: the code sorts with
    [localeCompare], and "a" comes before "B" although its code point
    is larger. *)
Lemma manifest_order_not_codepoint :
  match (uploadZipAsFileset fixture_env default_limits None
           (mk_zip [plain "B" "1"; plain "a" "2"]) empty_store).1 with
  | Ok r => map fe_path (m_files (u_manifest r)) = [s2z "a"; s2z "B"] /\
            lex_compare (s2z "a") (s2z "B") = Gt
  | Err _ => False
  end.
Proof. vm_compute. split; reflexivity. Qed.

(* --------------------------------------------------------------------- *)
(* Object and fileset ids                                                *)
(* --------------------------------------------------------------------- *)

Lemma be_bytes_length n x : length (Sha256.be_bytes n x) = n.
Proof. unfold Sha256.be_bytes. rewrite length_map, length_seq. reflexivity. Qed.

Lemma land255_byte x : 0 <= Z.land x 255 < 256.
Proof.
  change 255 with (Z.ones 8). rewrite Z.land_ones by lia.
  apply Z.mod_pos_bound. lia.
Qed.

Lemma be_bytes_range n x : Forall byte_range (Sha256.be_bytes n x).
Proof.
  unfold Sha256.be_bytes. apply Forall_forall. intros b Hb.
  apply list_elem_of_In, in_map_iff in Hb as (i & <- & _). apply land255_byte.
Qed.

Lemma round_length st kw : length (Sha256.round st kw) = length st.
Proof.
  unfold Sha256.round.
  destruct st as [|a [|b [|c [|d [|e [|f [|g [|h [|x st']]]]]]]]]; reflexivity.
Qed.

Lemma fold_round_length l st : length (fold_left Sha256.round l st) = length st.
Proof.
  revert st. induction l as [|kw l IH]; intros st; simpl; [reflexivity|].
  rewrite IH. apply round_length.
Qed.

Lemma fold_compress_length bl hs :
  length (fold_left Sha256.compress bl hs) = length hs.
Proof.
  revert hs. induction bl as [|b bl IH]; intros hs; simpl; [reflexivity|].
  rewrite IH. unfold Sha256.compress. rewrite length_zip_with, fold_round_length. lia.
Qed.

Lemma flat_map_const_length {A B} (f : A -> list B) n l :
  (forall x, length (f x) = n) -> length (flat_map f l) = (n * length l)%nat.
Proof.
  intros Hf. induction l as [|x l IH]; simpl; [lia|].
  rewrite length_app, Hf, IH. lia.
Qed.

Lemma Forall_flat_map' {A B} (P : B -> Prop) (f : A -> list B) l :
  (forall x, Forall P (f x)) -> Forall P (flat_map f l).
Proof.
  intros Hf. induction l as [|x l IH]; simpl; [constructor|].
  apply Forall_app. auto.
Qed.

Lemma digest_length msg : length (Sha256.digest msg) = 32%nat.
Proof.
  unfold Sha256.digest. rewrite (flat_map_const_length _ 4%nat).
  - rewrite fold_compress_length. reflexivity.
  - intros x. apply be_bytes_length.
Qed.

Lemma digest_range msg : Forall byte_range (Sha256.digest msg).
Proof. unfold Sha256.digest. apply Forall_flat_map'. intros x. apply be_bytes_range. Qed.

Lemma hex_digit_hex d : 0 <= d < 16 -> is_hex_char (hex_digit d) = true.
Proof.
  intros Hd. unfold is_hex_char, hex_digit.
  destruct (Z.ltb_spec d 10).
  - apply orb_true_iff. left. apply andb_true_iff. split; apply Z.leb_le; lia.
  - apply orb_true_iff. right. apply andb_true_iff. split; apply Z.leb_le; lia.
Qed.

Lemma hex_of_bytes_format bs :
  Forall byte_range bs ->
  length (hex_of_bytes bs) = (2 * length bs)%nat /\
  Forall (fun c => is_hex_char c = true) (hex_of_bytes bs).
Proof.
  intros Hb. unfold hex_of_bytes. split.
  - apply flat_map_const_length. reflexivity.
  - induction Hb as [|b bs Hb _ IH]; simpl; [constructor|].
    unfold byte_range in Hb.
    constructor; [|constructor; [|exact IH]]; apply hex_digit_hex.
    + rewrite Z.shiftr_div_pow2 by lia. split; [apply Z.div_pos; lia|].
      apply Z.div_lt_upper_bound; lia.
    + change 15 with (Z.ones 4). rewrite Z.land_ones by lia.
      apply Z.mod_pos_bound. lia.
Qed.

Lemma sha256_hex_digits (bs : buffer) :
  length (sha256_hex bs) = 64%nat /\ Forall (fun c => is_hex_char c = true) (sha256_hex bs).
Proof.
  unfold sha256_hex. destruct (hex_of_bytes_format _ (digest_range bs)) as [Hl Hf].
  rewrite Hl, digest_length. auto.
Qed.

(** The id of every object and fileset, [createHash('sha256')...
    .digest('hex')], is 64 lowercase hexadecimal digits. *)
Theorem sha256_hex_format (bs : buffer) :
  length (sha256_hex bs) = 64%nat /\ Forall (fun c => is_hex_char c = true) (sha256_hex bs).
Proof. apply sha256_hex_digits. Qed.

Lemma hex_char_not_space c : is_hex_char c = true -> js_space c = false.
Proof.
  unfold is_hex_char, js_space. intros H.
  apply orb_true_iff in H as [H|H]; apply andb_true_iff in H as [H1 H2];
    apply Z.leb_le in H1; apply Z.leb_le in H2; simpl;
    repeat rewrite (proj2 (Z.eqb_neq c _)) by lia; reflexivity.
Qed.


Lemma drop_spaces_hex s :
  Forall (fun c => is_hex_char c = true) s -> drop_spaces s = s.
Proof.
  intros Hf. destruct Hf as [|c s Hc _]; [reflexivity|].
  simpl. rewrite hex_char_not_space by assumption. reflexivity.
Qed.

Lemma js_trim_hex s : Forall (fun c => is_hex_char c = true) s -> js_trim s = s.
Proof.
  intros Hf. unfold js_trim. rewrite (drop_spaces_hex s) by assumption.
  rewrite (drop_spaces_hex (rev s)) by (apply Forall_rev; assumption).
  apply rev_involutive.
Qed.


Lemma sha256_hex_nonempty bs : sha256_hex bs <> [].
Proof. intros H. pose proof (proj1 (sha256_hex_digits bs)) as Hl. rewrite H in Hl. discriminate. Qed.

(* --------------------------------------------------------------------- *)
(* What a successful ingest commits                                      *)
(* --------------------------------------------------------------------- *)

Lemma upload_ok_commit E L ref zip s r s' :
  uploadZipAsFileset E L ref zip s = (Ok r, s') ->
  st_filesets s' !! u_filesetId r = Some (u_manifest r) /\
  m_fileset_id (u_manifest r) = u_filesetId r /\
  (exists bs, u_filesetId r = sha256_hex bs) /\
  (forall name, ref = Some name -> name <> [] -> st_refs s' !! name = Some (u_filesetId r)) /\
  (ref = None -> st_refs s' = st_refs s).
Proof.
  unfold uploadZipAsFileset. destruct (_ >? _); [discriminate|]. intros H.
  inv_bind H; [discriminate|].
  destruct (keeps_stream_loop _ _ _ _ _ _ _ _ Hm) as [_ Hr0].
  inv_bind H; [discriminate|]. apply mlift_inv in Hm0 as [_ ->].
  destruct a0 as [entries cdw].
  inv_bind H; [discriminate|].
  destruct (keeps_reconcile _ _ _ _ _ _ _ _ Hm0) as [_ Hr1].
  set (files := sort_by (path_compare E) (rs_finalEntries a0)) in *.
  inv_bind H; [discriminate|].
  unfold storeFilesetManifest in Hm1. destruct (fs_write_ok E _); [|discriminate].
  injection Hm1 as _ <-.
  inv_bind H; [discriminate|].
  injection H as <- <-. simpl.
  destruct ref as [name|].
  - destruct (bool_decide (name = [])) eqn:Hb.
    + injection Hm1 as _ <-. simpl.
      split; [apply lookup_insert_eq|]. split; [reflexivity|].
      split; [eexists; reflexivity|]. split; [|discriminate].
      intros n [= <-] Hn. apply bool_decide_eq_true in Hb. contradiction.
    + unfold writeRef in Hm1. destruct (fs_write_ok E (refPath name)); [|discriminate].
      injection Hm1 as _ <-. simpl.
      split; [apply lookup_insert_eq|]. split; [reflexivity|].
      split; [eexists; reflexivity|]. split; [|discriminate].
      intros n [= <-] _. apply lookup_insert_eq.
  - injection Hm1 as _ <-. simpl.
    split; [apply lookup_insert_eq|]. split; [reflexivity|].
    split; [eexists; reflexivity|]. split; [discriminate|].
    intros _. congruence.
Qed.



(* --------------------------------------------------------------------- *)
(* POST /filesets, then GET                                              *)
(* --------------------------------------------------------------------- *)

Lemma split_on_app_sep sep a b :
  Forall (fun c => c <> sep) a -> split_on sep (a ++ sep :: b) = a :: split_on sep b.
Proof.
  induction 1 as [|c a Hc _ IH]; simpl.
  - rewrite Z.eqb_refl. reflexivity.
  - rewrite (proj2 (Z.eqb_neq c sep) Hc), IH. reflexivity.
Qed.

Lemma second_segment w x :
  Forall (fun c => c <> SLASH) w -> Forall (fun c => c <> SLASH) x ->
  split_on SLASH (SLASH :: w ++ SLASH :: x) !! 2%nat = Some x.
Proof.
  intros Hw Hx. simpl. rewrite split_on_app_sep, split_on_no_sep by assumption.
  reflexivity.
Qed.

Lemma no_slash_literal (s : string) :
  forallb (fun c => negb (c =? SLASH)) (s2z s) = true -> Forall (fun c => c <> SLASH) (s2z s).
Proof.
  intros H. apply Forall_forall. intros c Hc Heq. subst c.
  apply forallb_forall with (x := SLASH) in H; [|apply list_elem_of_In; exact Hc].
  rewrite Z.eqb_refl in H. discriminate.
Qed.


Lemma handle_get_refs st name hs :
  name <> [] -> Forall (fun c => c <> SLASH) name ->
  handle_get st (s2z "/refs/" ++ name) hs =
  match st_refs st !! name with
  | Some v => if bool_decide (js_trim v = []) then text 404 (s2z "Not found")
              else text 200 (js_trim v)
  | None => text 404 (s2z "Not found")
  end.
Proof.
  intros Hne Hf. unfold handle_get.
  rewrite !bool_decide_false
    by (intros H; apply (f_equal (take 3)) in H; vm_compute in H; discriminate).
  change (s2z "/refs/" ++ name) with (SLASH :: s2z "refs" ++ SLASH :: name).
  rewrite second_segment by (auto; apply no_slash_literal; reflexivity).
  simpl default. rewrite bool_decide_false by assumption. reflexivity.
Qed.

Lemma handle_request_post E upd hs zip s :
  handle_request E (s2z "POST") (s2z "/filesets") upd hs zip s = post_filesets E upd hs zip s.
Proof.
  unfold handle_request. rewrite bool_decide_false by discriminate.
  rewrite !bool_decide_true by reflexivity. reflexivity.
Qed.

Lemma post_created_inv E upd hs zip s rep s' :
  post_filesets E upd hs zip s = (rep, s') -> reply_status rep = Some 201 ->
  exists result,
    uploadZipAsFileset E server_limits (update_ref_arg upd) zip s = (Ok result, s') /\
    header (reply_headers rep) (s2z "location") = Some (s2z "/filesets/" ++ u_filesetId result).
Proof.
  unfold post_filesets. destruct (negb _).
  { intros [= <- _]. discriminate. }
  destruct (uploadZipAsFileset _ _ _ _ _) as [[result|e] s1].
  - destruct (_ || _); intros [= <- <-] _; exists result; split; reflexivity.
  - destruct (_ >? _); intros [= <- _]; discriminate.
Qed.


Lemma url_unreserved_not_slash c : url_unreserved c = true -> c <> SLASH.
Proof.
  unfold url_unreserved, SLASH. intros H ->. discriminate H.
Qed.

(** After [POST /filesets] answers 201, the ref named by [update_ref]
    (or 'latest' when the parameter is absent) names the new fileset:
    [GET /refs/{name}] answers 200 with the id of the Location header.
    This is for a non-empty name of unreserved URL characters other than
    '.' and '..': such a name is what the query string gives, and
    [new URL] leaves the path [/refs/{name}] as it is (it would
    percent-encode other characters and resolve '.' and '..'). *)
Theorem post_updates_ref (E : env) (upd : option str) (hs : list (str * str))
    (zip : buffer) (s : store) (rep : reply) (s' : store) (name : str)
    (hs' : list (str * str)) :
  handle_request E (s2z "POST") (s2z "/filesets") upd hs zip s = (rep, s') ->
  reply_status rep = Some 201 ->
  default (s2z "latest") upd = name -> name <> [] ->
  Forall (fun c => url_unreserved c = true) name -> name <> [DOT] -> name <> [DOT; DOT] ->
  exists id,
    header (reply_headers rep) (s2z "location") = Some (s2z "/filesets/" ++ id) /\
    handle_get s' (s2z "/refs/" ++ name) hs' = text 200 id.
Proof.
  rewrite handle_request_post. intros H H201 Hname Hne Hu0 _ _.
  assert (Hf : Forall (fun c => c <> SLASH) name)
    by (eapply Forall_impl; [exact Hu0|]; apply url_unreserved_not_slash).
  destruct (post_created_inv _ _ _ _ _ _ _ H H201) as (result & Hu & Hloc).
  destruct (upload_ok_commit _ _ _ _ _ _ _ Hu) as (_ & _ & [bs Hbs] & Hr & _).
  exists (u_filesetId result). split; [exact Hloc|].
  rewrite handle_get_refs by assumption.
  rewrite (Hr name); [|unfold update_ref_arg; rewrite Hname, bool_decide_false by assumption;
                      reflexivity | assumption].
  rewrite Hbs, js_trim_hex by apply (proj2 (sha256_hex_digits bs)).
  rewrite bool_decide_false by apply sha256_hex_nonempty. reflexivity.
Qed.

Lemma upload_none_keeps_refs E L zip s :
  st_refs (uploadZipAsFileset E L None zip s).2 = st_refs s.
Proof.
  destruct (uploadZipAsFileset E L None zip s) as [r s'] eqn:H. simpl.
  unfold uploadZipAsFileset in H. destruct (_ >? _); [injection H as _ <-; reflexivity|].
  inv_bind H.
  { destruct (keeps_stream_loop _ _ _ _ _ _ _ _ Hm) as [_ Hr0]. congruence. }
  destruct (keeps_stream_loop _ _ _ _ _ _ _ _ Hm) as [_ Hr0].
  inv_bind H.
  { apply mlift_inv in Hm0 as [_ Hs]. congruence. }
  apply mlift_inv in Hm0 as [_ Hs]. subst s1. destruct a0 as [entries cdw].
  inv_bind H.
  { destruct (keeps_reconcile _ _ _ _ _ _ _ _ Hm0) as [_ Hr1]. congruence. }
  destruct (keeps_reconcile _ _ _ _ _ _ _ _ Hm0) as [_ Hr1].
  inv_bind H.
  { unfold storeFilesetManifest in Hm1. destruct (fs_write_ok E _); [discriminate|].
    injection Hm1 as _ <-. congruence. }
  unfold storeFilesetManifest in Hm1. destruct (fs_write_ok E _); [|discriminate].
  injection Hm1 as _ <-.
  inv_bind H; [discriminate|]. injection Hm1 as _ <-. injection H as _ <-.
  simpl. congruence.
Qed.

(** [POST /filesets?update_ref=] (the empty string) never changes a
    ref, whether the ingest succeeds or fails. *)
Theorem post_empty_update_ref_keeps_refs (E : env) (hs : list (str * str)) (zip : buffer)
    (s : store) :
  st_refs (handle_request E (s2z "POST") (s2z "/filesets") (Some []) hs zip s).2 = st_refs s.
Proof.
  rewrite handle_request_post. unfold post_filesets.
  destruct (negb _); [reflexivity|].
  pose proof (upload_none_keeps_refs E server_limits zip s) as Hk.
  change (update_ref_arg (Some [])) with (@None str).
  destruct (uploadZipAsFileset E server_limits None zip s) as [[result|e] s1].
  - destruct (_ || _); exact Hk.
  - destruct (_ >? _); exact Hk.
Qed.



Lemma post_updates_ref_witness :
  exists rep s',
    handle_request fixture_env (s2z "POST") (s2z "/filesets") None
      [(s2z "content-type", s2z "application/zip")] (mk_zip [plain "a.txt" "hi"])
      empty_store = (rep, s') /\
    reply_status rep = Some 201 /\
    exists id,
      header (reply_headers rep) (s2z "location") = Some (s2z "/filesets/" ++ id) /\
      handle_get s' (s2z "/refs/latest") [] = text 200 id.
Proof.
  assert (H201 : reply_status
    (handle_request fixture_env (s2z "POST") (s2z "/filesets") None
       [(s2z "content-type", s2z "application/zip")] (mk_zip [plain "a.txt" "hi"])
       empty_store).1 = Some 201) by (vm_compute; reflexivity).
  destruct (handle_request fixture_env (s2z "POST") (s2z "/filesets") None
       [(s2z "content-type", s2z "application/zip")] (mk_zip [plain "a.txt" "hi"])
       empty_store) as [rep s'] eqn:H.
  simpl in H201. exists rep, s'. split; [reflexivity|]. split; [exact H201|].
  apply (post_updates_ref _ _ _ _ _ _ _ (s2z "latest") [] H H201 eq_refl);
    [discriminate | | discriminate | discriminate].
  apply (bool_decide_unpack _). vm_compute. reflexivity.
Defined.


(* --------------------------------------------------------------------- *)
(* The forward reader                                                    *)
(* --------------------------------------------------------------------- *)

Lemma le_value_range bs :
  Forall byte_range bs -> 0 <= le_value bs < 2 ^ (8 * Z.of_nat (length bs)).
Proof.
  induction 1 as [|b bs Hb _ IH]; simpl; [lia|].
  unfold byte_range in Hb.
  replace (8 * Z.of_nat (S (length bs))) with (8 + 8 * Z.of_nat (length bs)) by lia.
  rewrite Z.pow_add_r by lia. change (2 ^ 8) with 256. nia.
Qed.

Lemma read_le_nonneg n b off v :
  Forall byte_range b -> read_le n b off = Some v -> 0 <= v.
Proof.
  intros Hb. unfold read_le. destruct (_ && _); [|discriminate].
  intros [= <-]. apply le_value_range. apply Forall_take, Forall_drop. exact Hb.
Qed.

Lemma get16_nonneg b off : Forall byte_range b -> 0 <= get16 b off.
Proof.
  intros Hb. unfold get16. destruct (u16 b off) eqn:H; simpl; [|lia].
  exact (read_le_nonneg _ _ _ _ Hb H).
Qed.

Lemma q_ensure_ok n q a : q_ensure n q = Ok a -> n <= Z.of_nat (length (q_rest q)).
Proof. unfold q_ensure. destruct (Z.ltb_spec (Z.of_nat (length (q_rest q))) n); [discriminate|lia]. Qed.

(** [nextHeader] on success has read one local file header record: the
    30 fixed bytes, then exactly as many name and extra bytes as the
    header's length fields give; the header's offset is the count of
    bytes consumed before it, the count grows by the record's length,
    the signature was 0x04034b50 and the method is 0 or 8. *)
Theorem nextHeader_reads_record (q : queue) (h : ZipEntryHeader) (q' : queue) :
  Forall byte_range (q_rest q) ->
  nextHeader q = Ok (Some (h, q')) ->
  let hb := take 30 (q_rest q) in
  le_value (take 4 (q_rest q)) = LFH_SIG /\
  q_rest q = hb ++ h_fileNameBytes h ++ h_extra h ++ q_rest q' /\
  Z.of_nat (length (h_fileNameBytes h)) = get16 hb 26 /\
  Z.of_nat (length (h_extra h)) = get16 hb 28 /\
  h_localHeaderOffset h = q_consumed q /\
  q_consumed q' = q_consumed q + 30 + get16 hb 26 + get16 hb 28 /\
  h_method h = get16 hb 8 /\ (h_method h = 0 \/ h_method h = 8).
Proof.
  intros Hb H hb. unfold nextHeader in H.
  destruct (q_ensure 4 q) eqn:E4; [|discriminate]. simpl in H.
  destruct (_ || _); [discriminate|].
  destruct (negb (q_peek_u32 q =? LFH_SIG)) eqn:Hsig; [discriminate|].
  destruct (q_ensure 30 q) eqn:E30; [|discriminate]. simpl in H.
  destruct (negb (_ || _)) eqn:Hm; [discriminate|].
  lazymatch type of H with res_bind ?x _ = _ => destruct x eqn:Enx end;
    [|discriminate]. simpl in H.
  lazymatch type of H with res_bind ?x _ = _ => destruct x as [sizes|] eqn:Hs end;
    [|discriminate]. simpl in H.
  injection H as <- <-. simpl.
  apply q_ensure_ok in E30. apply q_ensure_ok in Enx. simpl in Enx.
  change (Z.to_nat 30) with 30%nat in *. fold hb in Hm, Enx |- *.
  assert (Hhb : Forall byte_range hb) by (apply Forall_take; exact Hb).
  pose proof (get16_nonneg hb 26 Hhb) as Hn.
  pose proof (get16_nonneg hb 28 Hhb) as He.
  rewrite length_drop in Enx.
  unfold q_peek_u32 in Hsig. apply negb_false_iff, Z.eqb_eq in Hsig.
  apply negb_false_iff, orb_true_iff in Hm.
  split; [exact Hsig|].
  split; [unfold hb; rewrite !take_drop; reflexivity|].
  rewrite !length_take, !length_drop.
  split; [lia|]. split; [lia|]. split; [reflexivity|]. split; [reflexivity|].
  split; [reflexivity|].
  destruct Hm as [Hm|Hm]; apply Z.eqb_eq in Hm; auto.
Qed.


Lemma le_bytes_length n x : length (le_bytes n x) = n.
Proof. revert x. induction n as [|n IH]; intros x; simpl; [reflexivity|]. rewrite IH. reflexivity. Qed.

Lemma le_value_le_bytes n x :
  0 <= x < 2 ^ (8 * Z.of_nat n) -> le_value (le_bytes n x) = x.
Proof.
  revert x. induction n as [|n IH]; intros x Hx; simpl.
  - simpl in Hx. lia.
  - rewrite IH.
    + change 255 with (Z.ones 8). rewrite Z.land_ones, Z.shiftr_div_pow2 by lia.
      change (2 ^ 8) with 256. pose proof (Z.div_mod x 256). lia.
    + rewrite Z.shiftr_div_pow2 by lia. change (2 ^ 8) with 256.
      replace (8 * Z.of_nat (S n)) with (8 + 8 * Z.of_nat n) in Hx by lia.
      rewrite Z.pow_add_r in Hx by lia. change (2 ^ 8) with 256 in Hx.
      split; [apply Z.div_pos; lia|]. apply Z.div_lt_upper_bound; lia.
Qed.

Lemma take_le_bytes n x r : take n (le_bytes n x ++ r) = le_bytes n x.
Proof. apply take_app_length'. rewrite le_bytes_length. reflexivity. Qed.

Lemma drop_le_bytes n x r : drop n (le_bytes n x ++ r) = r.
Proof. apply drop_app_length'. rewrite le_bytes_length. reflexivity. Qed.

Lemma take_le_bytes2 n x y r : take (n + n) (le_bytes n x ++ le_bytes n y ++ r) = le_bytes n x ++ le_bytes n y.
Proof. rewrite app_assoc. apply take_app_length'. rewrite length_app, !le_bytes_length. reflexivity. Qed.

Lemma drop_le_bytes2 n x y r : drop (n + n) (le_bytes n x ++ le_bytes n y ++ r) = r.
Proof. rewrite app_assoc. apply drop_app_length'. rewrite length_app, !le_bytes_length. reflexivity. Qed.

Lemma le_bytes_32_range x : 0 <= x < 2 ^ 32 -> 0 <= x < 2 ^ (8 * Z.of_nat 4).
Proof. auto. Qed.

(** [readDataDescriptor] reads back a data descriptor record: an
    optional signature 0x08074b50, then the CRC-32 and the compressed
    and uncompressed sizes, as 4-byte fields or, for Zip64, 8-byte
    sizes; it consumes exactly the record. Without the signature the
    CRC must differ from it: a CRC equal to 0x08074b50 is taken for a
    signature. *)
Theorem readDataDescriptor_reads_record (zip64 sig : bool) (crc cs us : Z) (rest : buffer)
    (consumed : Z) :
  let n := if zip64 then 8%nat else 4%nat in
  0 <= crc < 2 ^ 32 -> 0 <= cs < 2 ^ (8 * Z.of_nat n) -> 0 <= us < 2 ^ (8 * Z.of_nat n) ->
  (sig = true \/ crc <> DD_SIG) ->
  readDataDescriptor zip64
    {| q_rest := (if sig then le_bytes 4 DD_SIG else []) ++ le_bytes 4 crc ++
                 le_bytes n cs ++ le_bytes n us ++ rest;
       q_consumed := consumed |} =
  Ok ({| dd_crc32 := crc; dd_compressedSize := cs; dd_uncompressedSize := us |},
      {| q_rest := rest;
         q_consumed := consumed + (if sig then 4 else 0) + 4 + 2 * Z.of_nat n |}).
Proof.
  intros n Hcrc Hcs Hus Hsig.
  assert (Hlen : forall l, Z.of_nat (length (le_bytes 4 crc ++ le_bytes n cs ++ le_bytes n us ++ l))
                           = 4 + 2 * Z.of_nat n + Z.of_nat (length l)).
  { intros l. rewrite !length_app, !le_bytes_length. lia. }
  unfold readDataDescriptor, q_ensure, q_peek_u32, q_read. cbn -[le_bytes le_value].
  assert (Hbody : forall c,
    (_ <-? (if Z.of_nat (length (le_bytes 4 crc ++ le_bytes n cs ++ le_bytes n us ++ rest)) <?
               (if zip64 then 20 else 12) then Err UnexpectedEOF else Ok tt) ;;
     let '(c0, q) := q_read 4 {| q_rest := le_bytes 4 crc ++ le_bytes n cs ++ le_bytes n us ++ rest;
                                 q_consumed := c |} in
     if zip64 then
       let '(b, q) := q_read 16 q in
       Ok ({| dd_crc32 := le_value c0; dd_compressedSize := le_value (take 8 b);
              dd_uncompressedSize := le_value (drop 8 b) |}, q)
     else
       let '(b, q) := q_read 8 q in
       Ok ({| dd_crc32 := le_value c0; dd_compressedSize := le_value (take 4 b);
              dd_uncompressedSize := le_value (drop 4 b) |}, q)) =
    Ok ({| dd_crc32 := crc; dd_compressedSize := cs; dd_uncompressedSize := us |},
        {| q_rest := rest; q_consumed := c + 4 + 2 * Z.of_nat n |})).
  { intros c. rewrite Hlen.
    destruct (Z.ltb_spec (4 + 2 * Z.of_nat n + Z.of_nat (length rest))
                         (if zip64 then 20 else 12));
      [unfold n in *; destruct zip64; simpl in *; lia|].
    unfold q_read. cbn -[le_bytes le_value]. rewrite !drop_le_bytes, take_le_bytes.
    unfold n in *. destruct zip64; cbn -[le_bytes le_value];
      [change (Z.to_nat 16) with (8 + 8)%nat | change (Z.to_nat 8) with (4 + 4)%nat];
      rewrite take_le_bytes2, drop_le_bytes2, take_le_bytes, drop_le_bytes,
        !le_value_le_bytes by assumption;
      do 3 f_equal; lia. }
  destruct sig.
  - cbn -[le_bytes le_value]. rewrite length_app, le_bytes_length.
    rewrite Nat2Z.inj_add, Hlen.
    destruct (Z.ltb_spec (Z.of_nat 4 + (4 + 2 * Z.of_nat n + Z.of_nat (length rest))) 12);
      [clear Hbody; unfold n in *; destruct zip64; simpl Z.of_nat in *; lia|].
    cbn -[le_bytes le_value]. rewrite take_le_bytes, le_value_le_bytes by (vm_compute; split; congruence).
    rewrite Z.eqb_refl. cbn -[le_bytes le_value]. rewrite drop_le_bytes.
    etransitivity; [exact (Hbody (consumed + 4))|]. do 3 f_equal; lia.
  - destruct Hsig as [[=]|Hne]. cbn -[le_bytes le_value]. rewrite Hlen.
    destruct (Z.ltb_spec (4 + 2 * Z.of_nat n + Z.of_nat (length rest)) 12);
      [clear Hbody; unfold n in *; destruct zip64; simpl Z.of_nat in *; lia|].
    cbn -[le_bytes le_value]. rewrite take_le_bytes, le_value_le_bytes by assumption.
    rewrite (proj2 (Z.eqb_neq _ _) Hne). cbn -[le_bytes le_value].
    etransitivity; [exact (Hbody consumed)|]. do 3 f_equal; lia.
Qed.


Lemma nextHeader_reads_record_witness :
  exists h q', nextHeader {| q_rest := mk_zip [plain "a.txt" "hi"]; q_consumed := 0 |}
                 = Ok (Some (h, q')) /\ h_localHeaderOffset h = 0 /\
               (h_method h = 0 \/ h_method h = 8).
Proof.
  assert (Hb : Forall byte_range (mk_zip [plain "a.txt" "hi"]))
    by (apply (bool_decide_unpack _); vm_compute; reflexivity).
  assert (Hs : match nextHeader {| q_rest := mk_zip [plain "a.txt" "hi"]; q_consumed := 0 |}
               with Ok (Some _) => true | _ => false end = true) by (vm_compute; reflexivity).
  destruct (nextHeader _) as [[[h q']|]|] eqn:E; try discriminate Hs.
  exists h, q'. split; [reflexivity|].
  destruct (nextHeader_reads_record {| q_rest := mk_zip [plain "a.txt" "hi"]; q_consumed := 0 |} h q' Hb E) as (_ & _ & _ & _ & Ho & _ & _ & Hm).
  split; [exact Ho|exact Hm].
Defined.

Lemma readDataDescriptor_reads_record_witness :
  readDataDescriptor true
    {| q_rest := le_bytes 4 5 ++ le_bytes 8 7 ++ le_bytes 8 9 ++ [42]; q_consumed := 100 |} =
  Ok ({| dd_crc32 := 5; dd_compressedSize := 7; dd_uncompressedSize := 9 |},
      {| q_rest := [42]; q_consumed := 100 + 0 + 4 + 2 * 8 |}).
Proof.
  apply (readDataDescriptor_reads_record true false 5 7 9 [42] 100);
    [lia | cbn; lia | cbn; lia | right; unfold DD_SIG; lia].
Defined.


(* --------------------------------------------------------------------- *)
(* Early exits of the streaming reader                                   *)
(* --------------------------------------------------------------------- *)

Lemma nextHeader_exits (q : queue) :
  (Z.of_nat (length (q_rest q)) < 4 -> nextHeader q = Err UnexpectedEOF) /\
  (4 <= Z.of_nat (length (q_rest q)) -> q_peek_u32 q <> LFH_SIG -> nextHeader q = Ok None) /\
  (30 <= Z.of_nat (length (q_rest q)) -> q_peek_u32 q = LFH_SIG ->
   get16 (take 30 (q_rest q)) 8 <> 0 -> get16 (take 30 (q_rest q)) 8 <> 8 ->
   nextHeader q = Err (UnsupportedCompressionMethod (get16 (take 30 (q_rest q)) 8))).
Proof.
  unfold nextHeader, q_ensure. split; [|split].
  - intros Hl. rewrite (proj2 (Z.ltb_lt _ _) Hl). reflexivity.
  - intros Hl Hs. rewrite (proj2 (Z.ltb_ge _ _) Hl). simpl.
    destruct (_ || _); [reflexivity|].
    rewrite (proj2 (Z.eqb_neq _ _) Hs). reflexivity.
  - intros Hl Hs Hm0 Hm8. rewrite (proj2 (Z.ltb_ge (Z.of_nat (length (q_rest q))) 4)) by lia. simpl.
    rewrite Hs. change ((LFH_SIG =? CDH_SIG) || (LFH_SIG =? EOCD_SIG)) with false.
    rewrite Z.eqb_refl. simpl. rewrite (proj2 (Z.ltb_ge _ _) Hl). simpl.
    change (Z.to_nat 30) with 30%nat.
    rewrite (proj2 (Z.eqb_neq _ _) Hm0), (proj2 (Z.eqb_neq _ _) Hm8). reflexivity.
Qed.

(** An upload of fewer than 4 bytes (within the size cap) fails with
    'Unexpected EOF' before anything is stored. *)
Theorem uploadZipAsFileset_short_input (E : env) (L : UploadLimits) (ref : option str)
    (zip : buffer) (s : store) :
  Z.of_nat (length zip) < 4 -> Z.of_nat (length zip) <= maxZipBytes L ->
  uploadZipAsFileset E L ref zip s = (Err UnexpectedEOF, s).
Proof.
  intros Hl Hm. unfold uploadZipAsFileset.
  rewrite Z.gtb_ltb, (proj2 (Z.ltb_ge _ _) Hm).
  unfold mbind at 1. cbn [stream_loop]. unfold mbind at 1, mlift.
  rewrite (proj1 (nextHeader_exits _)) by exact Hl. reflexivity.
Qed.

(* --------------------------------------------------------------------- *)
(* The entry processor                                                   *)
(* --------------------------------------------------------------------- *)

Lemma crc32Update_0_spec raw :
  Forall byte_range raw -> js_ushr (crc32Update 0 raw) 0 = crc32_spec raw.
Proof.
  intros Hf. unfold js_ushr at 1. change (0 mod 32) with 0. rewrite Z.shiftr_0_r.
  rewrite to_uint32_small by apply crc32Update_range.
  rewrite crc32Update_spec by exact Hf. unfold crc32_spec.
  change (Z.lxor (to_uint32 0) 0xFFFFFFFF) with 0xFFFFFFFF.
  change (Z.lxor 0 0xFFFFFFFF) with 0xFFFFFFFF.
  symmetry. apply (proj1 (in_range_land _)). apply lxor_range; [|lia].
  apply crc_spec_fold_range. lia.
Qed.

(** [processRawToCas] on the bytes of one entry: over the cap it fails
    with 'File too large' and stores nothing; otherwise it returns the
    SHA-256 hex, the byte count and the CRC-32 of the bytes, and stores
    the bytes under their hash unless an object is already there (the
    first one is kept); manifests and refs are untouched. *)
Theorem processRawToCas_result (L : UploadLimits) (raw : buffer) (s : store) :
  Forall byte_range raw ->
  processRawToCas L raw s =
  if Z.of_nat (length raw) >? maxFileBytes L then (Err FileTooLarge, s)
  else (Ok {| r_sha256 := sha256_hex raw; r_size := Z.of_nat (length raw);
              r_crc32 := crc32_spec raw |},
        {| st_objects := <[sha256_hex raw := default raw (st_objects s !! sha256_hex raw)]>
                           (st_objects s);
           st_filesets := st_filesets s; st_refs := st_refs s |}).
Proof.
  intros Hf. unfold processRawToCas.
  destruct (_ >? _); [reflexivity|].
  unfold mbind, commitTempObject, mret. rewrite crc32Update_0_spec by exact Hf.
  f_equal. destruct (st_objects s !! sha256_hex raw) as [o|] eqn:Ho; simpl; [|reflexivity].
  destruct s as [objs fs rs]. simpl in *. f_equal. symmetry. apply insert_id. exact Ho.
Qed.

(** The fallback re-read of an entry with compressed size 0 never
    succeeds: [createReadStream] is given [end = start - 1] and throws,
    unless the local header signature check failed first. *)
Theorem processEntryFromSpool_empty_entry (E : env) (L : UploadLimits) (spool : buffer)
    (off method : Z) (s : store) :
  processEntryFromSpool E L spool off method 0 s = (Err LocalHeaderSignatureMismatch, s) \/
  processEntryFromSpool E L spool off method 0 s = (Err RangeError, s).
Proof.
  unfold processEntryFromSpool.
  destruct (negb _); [left; reflexivity|right].
  change ((0 <? 0) || (0 >? MAX_SAFE_INTEGER)) with false. cbv iota.
  rewrite (proj2 (Z.ltb_lt _ _)) by lia. reflexivity.
Qed.

(* --------------------------------------------------------------------- *)
(* GET /objects/{sha}                                                    *)
(* --------------------------------------------------------------------- *)

(** [GET /objects/<id>] without conditional or encoding headers, for a
    non-empty id without '/' or NUL, pipes the object's Brotli file when
    the store holds it; when it does not, the read stream fails: the
    handler never answers 404, the stream's 'error' has no listener and
    the server process ends without sending the response. *)
Theorem get_object_without_headers (st : store) (sha : str) (hs : list (str * str)) :
  sha <> [] -> Forall (fun c => c <> SLASH) sha -> existsb (Z.eqb 0) sha = false ->
  header hs (s2z "if-none-match") = None -> header hs (s2z "accept-encoding") = None ->
  handle_get st (s2z "/objects/" ++ sha) hs =
  {| resp_status := 200;
     resp_headers := [(s2z "content-type", s2z "application/octet-stream");
                      (s2z "content-encoding", s2z "br"); (s2z "etag", etag_of sha);
                      (s2z "cache-control", s2z "public, max-age=31536000, immutable")];
     resp_body := match st_objects st !! sha with Some _ => BObject sha | None => BStreamError end |}.
Proof.
  intros Hne Hf Hnul Hinm Hae. unfold handle_get.
  rewrite !bool_decide_false
    by (intros H; apply (f_equal (take 3)) in H; vm_compute in H; discriminate).
  change (s2z "/objects/" ++ sha) with (SLASH :: s2z "objects" ++ SLASH :: sha).
  change (starts_with (s2z "/filesets/") (SLASH :: s2z "objects" ++ SLASH :: sha)) with false.
  cbv iota.
  replace (starts_with (s2z "/objects/") (SLASH :: s2z "objects" ++ SLASH :: sha)) with true
    by (simpl; induction sha; reflexivity).
  unfold get_object.
  rewrite second_segment by (auto; apply no_slash_literal; reflexivity).
  simpl default. rewrite bool_decide_false by assumption.
  rewrite Hinm, Hae. simpl default.
  unfold openObjectStream. rewrite Hnul. destruct (st_objects st !! sha); reflexivity.
Qed.


Lemma uploadZipAsFileset_short_input_witness :
  uploadZipAsFileset fixture_env server_limits None [80; 75; 3] empty_store
  = (Err UnexpectedEOF, empty_store).
Proof.
  apply uploadZipAsFileset_short_input; vm_compute; first [reflexivity | intros ?; discriminate].
Defined.

Lemma processRawToCas_result_witness :
  processRawToCas server_limits (s2z "hi") empty_store =
  (Ok {| r_sha256 := sha256_hex (s2z "hi"); r_size := 2; r_crc32 := crc32_spec (s2z "hi") |},
   {| st_objects := <[sha256_hex (s2z "hi") := s2z "hi"]> ∅; st_filesets := ∅; st_refs := ∅ |}).
Proof.
  apply (processRawToCas_result server_limits (s2z "hi") empty_store).
  apply (bool_decide_unpack _). vm_compute. reflexivity.
Defined.

Lemma get_object_without_headers_witness :
  resp_status (handle_get empty_store (s2z "/objects/" ++ s2z "abc123") []) = 200 /\
  resp_body (handle_get empty_store (s2z "/objects/" ++ s2z "abc123") []) = BStreamError.
Proof.
  rewrite (get_object_without_headers empty_store (s2z "abc123") []);
    [split; reflexivity | discriminate | apply no_slash_literal; reflexivity
    | reflexivity | reflexivity | reflexivity].
Defined.


(* --------------------------------------------------------------------- *)
(* Path normalization: the shape of its output                           *)
(* --------------------------------------------------------------------- *)

Lemma split_on_in sep s w x : In w (split_on sep s) -> In x w -> In x s /\ x <> sep.
Proof.
  revert w. induction s as [|c r IH]; intros w Hw Hx; simpl in Hw.
  - destruct Hw as [<-|[]]. destruct Hx.
  - destruct (Z.eqb_spec c sep) as [Hc|Hc].
    + destruct Hw as [<-|Hw]; [destruct Hx|].
      destruct (IH w Hw Hx). split; [right|]; assumption.
    + destruct (split_on sep r) as [|w0 ws] eqn:Hs.
      * destruct Hw as [<-|[]]. destruct Hx as [<-|[]]. split; [left|]; auto.
      * destruct Hw as [<-|Hw].
        -- destruct Hx as [<-|Hx]; [split; [left|]; auto|].
           destruct (IH w0 (or_introl eq_refl) Hx). split; [right|]; assumption.
        -- destruct (IH w (or_intror Hw) Hx). split; [right|]; assumption.
Qed.

Lemma strip_dot_slash_in p x : In x (strip_dot_slash p) -> In x p.
Proof.
  induction p as [p IH] using (induction_ltof1 _ (@length Z)).
  destruct p as [|c [|d r]]; simpl; auto.
  destruct (_ && _); [|auto].
  intros H. right; right. apply IH; [unfold ltof; simpl; lia | exact H].
Qed.

Lemma join_with_in sep ws x :
  In x (join_with [sep] ws) -> x = sep \/ exists w, In w ws /\ In x w.
Proof.
  induction ws as [|w ws IH]; simpl; [intros []|].
  destruct ws as [|w' ws'].
  - intros Hx. right. exists w. auto.
  - intros Hx. apply in_app_or in Hx as [Hx|[<-|Hx]]; [right; exists w; auto | left; reflexivity|].
    destruct (IH Hx) as [?|(v & Hv & Hxv)]; [left; assumption|].
    right. exists v. simpl in Hv. auto.
Qed.

Lemma split_on_join sep ws :
  ws <> [] -> Forall (fun w => Forall (fun c => c <> sep) w) ws ->
  split_on sep (join_with [sep] ws) = ws.
Proof.
  induction ws as [|w ws IH]; intros Hne Hf; [congruence|].
  inversion Hf as [|? ? Hw Hws]; subst.
  destruct ws as [|w' ws'].
  - simpl. apply split_on_no_sep, Hw.
  - change (join_with [sep] (w :: w' :: ws')) with (w ++ sep :: join_with [sep] (w' :: ws')).
    rewrite split_on_app_sep by exact Hw. rewrite IH by (auto; discriminate).
    reflexivity.
Qed.

(** A component the normalization keeps. *)
Definition good_component (w : str) : Prop := w <> [] /\ w <> [DOT] /\ w <> [DOT; DOT].

Lemma filter_all {A} (f : A -> bool) l : Forall (fun x => f x = true) l -> List.filter f l = l.
Proof. induction 1 as [|x l Hx _ IH]; simpl; [reflexivity|]. rewrite Hx, IH. reflexivity. Qed.

Lemma comps_no_slash comps :
  Forall (fun w => Forall (fun x => x <> 0 /\ x <> BACKSLASH /\ x <> SLASH) w) comps ->
  Forall (fun w => Forall (fun c => c <> SLASH) w) comps.
Proof.
  intros H. eapply Forall_impl; [exact H|]. intros w Hw.
  eapply Forall_impl; [exact Hw|]. intros x (_ & _ & ?). assumption.
Qed.

Lemma normalizeZipPath_ok_inv p n :
  normalizeZipPath p = Ok n ->
  exists comps, n = join_with [SLASH] comps /\ Forall good_component comps /\
    Forall (fun w => Forall (fun x => x <> 0 /\ x <> BACKSLASH /\ x <> SLASH) w) comps.
Proof.
  unfold normalizeZipPath. rewrite normalize_parts_filter.
  destruct (existsb (Z.eqb 0) p) eqn:Hnul; [discriminate|].
  destruct (starts_with _ _); [discriminate|].
  destruct (existsb (fun c => str_eqb c [DOT; DOT]) _) eqn:Hdd; [discriminate|].
  simpl. intros [= <-].
  eexists. split; [reflexivity|]. split.
  - apply List.Forall_forall. intros w Hw. pose proof Hw as Hw'.
    apply filter_In in Hw as [_ Hk]. unfold keep_component, str_eqb in Hk.
    apply negb_true_iff, orb_false_iff in Hk as [H1 H2].
    apply bool_decide_eq_false in H1, H2.
    split; [exact H1|]. split; [exact H2|]. intros ->.
    assert (existsb (fun c => str_eqb c [DOT; DOT])
              (List.filter keep_component
                 (split_on SLASH (strip_dot_slash
                    (map (fun c => if c =? BACKSLASH then SLASH else c) p)))) = true)
      by (apply existsb_exists; exists [DOT; DOT]; split;
          [exact Hw' | unfold str_eqb; apply bool_decide_eq_true; reflexivity]).
    congruence.
  - apply List.Forall_forall. intros w Hw. apply filter_In in Hw as [Hin _].
    apply List.Forall_forall. intros x Hx.
    destruct (split_on_in _ _ _ _ Hin Hx) as [Hx' Hns].
    apply strip_dot_slash_in, in_map_iff in Hx' as (y & Hxy & Hy).
    assert (Hy0 : y <> 0).
    { intros ->. assert (existsb (Z.eqb 0) p = true)
        by (apply existsb_exists; exists 0; split; [exact Hy | reflexivity]).
      congruence. }
    destruct (Z.eqb_spec y BACKSLASH); subst x; unfold SLASH, BACKSLASH in *; lia.
Qed.

Lemma strip_dot_slash_id n :
  (forall r, n <> DOT :: SLASH :: r) -> strip_dot_slash n = n.
Proof.
  intros Hn. destruct n as [|c [|d r]]; simpl; [reflexivity|reflexivity|].
  destruct (Z.eqb_spec c DOT), (Z.eqb_spec d SLASH); subst; simpl; try reflexivity.
  exfalso. exact (Hn r eq_refl).
Qed.

Lemma normalizeZipPath_join comps :
  Forall good_component comps ->
  Forall (fun w => Forall (fun x => x <> 0 /\ x <> BACKSLASH /\ x <> SLASH) w) comps ->
  normalizeZipPath (join_with [SLASH] comps) = Ok (join_with [SLASH] comps).
Proof.
  intros Hg Hc. set (n := join_with [SLASH] comps).
  assert (Hchars : forall x, In x n -> x <> 0 /\ x <> BACKSLASH).
  { intros x Hx. destruct (join_with_in _ _ _ Hx) as [->|(w & Hw & Hxw)].
    - unfold SLASH, BACKSLASH. lia.
    - rewrite List.Forall_forall in Hc. specialize (Hc w Hw).
      rewrite List.Forall_forall in Hc. destruct (Hc x Hxw) as (? & ? & _). auto. }
  unfold normalizeZipPath.
  replace (existsb (Z.eqb 0) n) with false.
  2:{ symmetry. apply not_true_iff_false. intros H.
      apply existsb_exists in H as (x & Hx & H0). apply Z.eqb_eq in H0. subst x.
      destruct (Hchars 0 Hx). contradiction. }
  replace (map (fun c => if c =? BACKSLASH then SLASH else c) n) with n.
  2:{ symmetry. erewrite map_ext_in; [apply map_id|]. intros x Hx. simpl.
      destruct (Z.eqb_spec x BACKSLASH); [|reflexivity]. destruct (Hchars x Hx). contradiction. }
  destruct comps as [|w ws].
  - reflexivity.
  - inversion Hg as [|? ? (Hw0 & Hw1 & _) _]; subst.
    inversion Hc as [|? ? Hwc _]; subst.
    destruct w as [|c w']; [congruence|].
    assert (Hn : exists t, n = c :: w' ++ t /\ (t = [] \/ exists t', t = SLASH :: t')).
    { destruct ws as [|w2 ws'].
      - exists []. rewrite app_nil_r. split; [reflexivity | left; reflexivity].
      - eexists. split; [reflexivity|]. right. eexists. reflexivity. }
    destruct Hn as (t & Hnt & Ht).
    inversion Hwc as [|? ? (_ & _ & Hcs) Hw's]; subst.
    rewrite strip_dot_slash_id.
    2:{ intros r Hr. rewrite Hnt in Hr. injection Hr as -> Hr.
        destruct w' as [|d w''].
        - simpl in Hr. destruct Ht as [->|(t' & ->)]; [discriminate|]. congruence.
        - injection Hr as ->. inversion Hw's as [|? ? (_ & _ & Hd) _]. congruence. }
    replace (starts_with [SLASH] n) with false.
    2:{ rewrite Hnt. cbn [starts_with]. rewrite (proj2 (Z.eqb_neq SLASH c)) by congruence. reflexivity. }
    cbv iota. unfold n. rewrite split_on_join by (discriminate || apply comps_no_slash, Hc).
    rewrite normalize_parts_filter.
    rewrite filter_all.
    2:{ apply List.Forall_forall. intros v Hv. rewrite List.Forall_forall in Hg.
        destruct (Hg v Hv) as (H0 & H1 & _). unfold keep_component, str_eqb.
        rewrite !bool_decide_false by assumption. reflexivity. }
    replace (existsb _ _) with false.
    2:{ symmetry. apply not_true_iff_false. intros H.
        apply existsb_exists in H as (v & Hv & Hd). unfold str_eqb in Hd.
        apply bool_decide_eq_true in Hd. subst v. rewrite List.Forall_forall in Hg.
        destruct (Hg _ Hv) as (_ & _ & H2). contradiction. }
    reflexivity.
Qed.

(** [normalizeZipPath] is idempotent, and what it returns is either
    empty or made of components, separated by '/', none of them empty,
    '.' or '..', with no NUL and no backslash. *)
Theorem normalizeZipPath_output (p n : str) :
  normalizeZipPath p = Ok n ->
  normalizeZipPath n = Ok n /\
  Forall (fun x => x <> 0 /\ x <> BACKSLASH) n /\
  (n = [] \/ Forall good_component (split_on SLASH n)).
Proof.
  intros H. destruct (normalizeZipPath_ok_inv p n H) as (comps & -> & Hg & Hc).
  split; [apply normalizeZipPath_join; assumption|]. split.
  - apply List.Forall_forall. intros x Hx.
    destruct (join_with_in _ _ _ Hx) as [->|(w & Hw & Hxw)]; [unfold SLASH, BACKSLASH; lia|].
    rewrite List.Forall_forall in Hc. specialize (Hc w Hw).
    rewrite List.Forall_forall in Hc. destruct (Hc x Hxw) as (? & ? & _). auto.
  - destruct comps as [|w ws]; [left; reflexivity|]. right.
    rewrite split_on_join; [exact Hg | discriminate | apply comps_no_slash, Hc].
Qed.


Lemma normalizeZipPath_output_witness :
  normalizeZipPath (s2z "./a\b//./c.txt") = Ok (s2z "a/b/c.txt") /\
  normalizeZipPath (s2z "a/b/c.txt") = Ok (s2z "a/b/c.txt").
Proof.
  assert (H : normalizeZipPath (s2z "./a\b//./c.txt") = Ok (s2z "a/b/c.txt"))
    by (vm_compute; reflexivity).
  split; [exact H|]. exact (proj1 (normalizeZipPath_output _ _ H)).
Defined.


(* --------------------------------------------------------------------- *)
(* The total size cap                                                    *)
(* --------------------------------------------------------------------- *)

(** Never fails with the error [e0]. *)
Definition never_fails_with {A} (e0 : error) (m : M A) : Prop :=
  forall s s', m s <> (Err e0, s').

Lemma never_fails_ret {A} e0 (a : A) : never_fails_with e0 (mret a).
Proof. intros s s' H. discriminate. Qed.

Lemma never_fails_fail {A} e0 e : e <> e0 -> never_fails_with e0 (@mfail A e).
Proof. intros He s s' [= ?]. auto. Qed.

Lemma never_fails_lift {A} e0 (x : res A) : x <> Err e0 -> never_fails_with e0 (mlift x).
Proof. intros Hx s s' [= ?]. auto. Qed.

Lemma never_fails_bind {A B} e0 (m : M A) (k : A -> M B) :
  never_fails_with e0 m -> (forall a, never_fails_with e0 (k a)) ->
  never_fails_with e0 (mbind m k).
Proof.
  intros Hm Hk s s'' H. inv_bind H.
  - injection Her as <-. exact (Hm _ _ Hm0).
  - exact (Hk _ _ _ H).
Qed.

Lemma never_fails_commit e0 raw sha : never_fails_with e0 (commitTempObject raw sha).
Proof. intros s s'. unfold commitTempObject. discriminate. Qed.

#[export] Hint Resolve never_fails_ret never_fails_commit : ingest.

Ltac never_fails_prop :=
  repeat match goal with
  | |- never_fails_with _ (mbind _ _) => apply never_fails_bind; [|intros ?]
  | |- never_fails_with _ (mfail _) => apply never_fails_fail; discriminate
  | |- never_fails_with _ (mlift (of_option _ _)) =>
      apply never_fails_lift; destruct (_ : option _); discriminate
  | |- never_fails_with _ (if ?b then _ else _) => destruct b
  | |- never_fails_with _ (match ?x with _ => _ end) => destruct x
  | |- _ => progress eauto with ingest
  end.

Lemma total_cap_processRawToCas L raw : never_fails_with TotalTooLarge (processRawToCas L raw).
Proof. unfold processRawToCas. never_fails_prop. Qed.

Lemma total_cap_processEntryFromSpool E L spool off meth cs :
  never_fails_with TotalTooLarge (processEntryFromSpool E L spool off meth cs).
Proof. unfold processEntryFromSpool. never_fails_prop; apply total_cap_processRawToCas. Qed.

Lemma total_cap_entry_result E L spool e norm processed :
  never_fails_with TotalTooLarge (entry_result E L spool e norm processed).
Proof. unfold entry_result. never_fails_prop. apply total_cap_processEntryFromSpool. Qed.

Lemma total_cap_reconcile_entry E L spool e rs :
  never_fails_with TotalTooLarge (reconcile_entry E L spool e rs).
Proof.
  unfold reconcile_entry. never_fails_prop.
  - apply never_fails_lift. intros Hn.
    destruct (normalizeZipPath_error _ _ Hn) as [?|[?|?]]; discriminate.
  - apply total_cap_entry_result.
Qed.

Lemma total_cap_reconcile E L spool es rs :
  never_fails_with TotalTooLarge (reconcile E L spool es rs).
Proof.
  revert rs. induction es as [|e es IH]; intros rs; simpl; never_fails_prop.
  apply total_cap_reconcile_entry.
Qed.

(** The limits of the server with a 2-byte total cap. *)
Definition tiny_total_limits : UploadLimits :=
  {| maxEntries := 8000; maxFileBytes := 500 * 1024 * 1024; maxTotalBytes := 2;
     maxZipBytes := 300 * 1024 * 1024 |}.

(** 'Total uncompressed too large' can only come from the streaming
    phase: entries processed in reconciliation (a deferred STORE entry
    with a data descriptor, re-read from the spool) are not counted
    against [maxTotalBytes]. So a 3-byte file in such an entry is
    ingested under a 2-byte total cap, while the same file in a plain
    entry is refused. *)
Theorem total_cap_streaming_only :
  (forall E L ref zip s,
   (uploadZipAsFileset E L ref zip s).1 = Err TotalTooLarge ->
   (stream_loop E L (S (length zip)) {| q_rest := zip; q_consumed := 0 |} stream_init s).1
   = Err TotalTooLarge) /\
  (forall E L spool es rs s, (reconcile E L spool es rs s).1 <> Err TotalTooLarge) /\
  (match (uploadZipAsFileset fixture_env tiny_total_limits None
            (mk_zip [stored_dd "a.txt" "one"]) empty_store).1 with
   | Ok r => m_total_bytes (u_manifest r) = 3
   | Err _ => False
   end) /\
  (uploadZipAsFileset fixture_env tiny_total_limits None
     (mk_zip [plain "a.txt" "one"]) empty_store).1 = Err TotalTooLarge.
Proof.
  split; [|split; [|split]].
  - intros E L ref zip s.
    destruct (uploadZipAsFileset E L ref zip s) as [r s'] eqn:H. intros Hr.
    cbn [fst] in Hr. subst r.
    unfold uploadZipAsFileset in H. destruct (_ >? _); [discriminate|].
    inv_bind H; [rewrite Hm; cbn [fst]; congruence|].
    inv_bind H.
    { apply mlift_inv in Hm0 as [Hcd _]. injection Her as <-. symmetry in Hcd.
      destruct (readCentralDirectory_error _ _ _ Hcd) as [?|[?|Hw]]; try discriminate.
      destruct Hw. }
    destruct a0 as [entries cdw].
    inv_bind H.
    { injection Her as <-. exfalso. exact (total_cap_reconcile _ _ _ _ _ _ _ Hm1). }
    inv_bind H.
    { injection Her as <-. unfold storeFilesetManifest in Hm2.
      destruct (fs_write_ok _ _); discriminate. }
    inv_bind H; [|discriminate].
    injection Her as <-.
    destruct ref as [name|]; [destruct (bool_decide _)|]; try discriminate.
    unfold writeRef in Hm3. destruct (fs_write_ok _ _); discriminate.
  - intros E L spool es rs s H.
    destruct (reconcile E L spool es rs s) as [r s'] eqn:Hr. simpl in H. subst r.
    exact (total_cap_reconcile _ _ _ _ _ _ _ Hr).
  - vm_compute. reflexivity.
  - vm_compute. reflexivity.
Qed.


(* --------------------------------------------------------------------- *)
(* Extra fields: the Zip64 and Unicode Path records                      *)
(* --------------------------------------------------------------------- *)

Lemma read_le_split n b pre x r off :
  b = pre ++ le_bytes n x ++ r -> off = Z.of_nat (length pre) ->
  0 <= x < 2 ^ (8 * Z.of_nat n) -> read_le n b off = Some x.
Proof.
  intros -> -> Hx. unfold read_le.
  rewrite !length_app, le_bytes_length.
  replace ((0 <=? Z.of_nat (length pre)) &&
           (Z.of_nat (length pre) + Z.of_nat n <=?
            Z.of_nat (length pre + (n + length r)))) with true
    by (symmetry; apply andb_true_iff; split; apply Z.leb_le; lia).
  rewrite Nat2Z.id, drop_app_length, take_le_bytes, le_value_le_bytes by exact Hx.
  reflexivity.
Qed.

Ltac app_eq := rewrite ?app_nil_l, <- ?app_assoc; reflexivity.

(** [parseZip64Extra] reads a Zip64 field (id 1) at the start of the
    extra data: the 8-byte uncompressed size comes first, then the
    8-byte compressed size, each present only when asked for; what
    follows the wanted sizes in the field, and the fields after it, are
    not read. *)
Theorem parseZip64Extra_reads_record (wantC wantU : bool) (us cs : Z) (pad rest : buffer) :
  let d := (if wantU then le_bytes 8 us else []) ++ (if wantC then le_bytes 8 cs else []) ++ pad in
  0 <= us < 2 ^ 64 -> 0 <= cs < 2 ^ 64 -> Z.of_nat (length d) < 65536 ->
  parseZip64Extra (le_bytes 2 1 ++ le_bytes 2 (Z.of_nat (length d)) ++ d ++ rest) wantC wantU
  = Ok (if wantU then Some us else None, if wantC then Some cs else None).
Proof.
  intros d Hu Hc Hd.
  remember (le_bytes 2 1 ++ le_bytes 2 (Z.of_nat (length d)) ++ d ++ rest) as extra eqn:Hx.
  assert (Hlen : Z.of_nat (length extra) = 4 + Z.of_nat (length d) + Z.of_nat (length rest))
    by (subst extra; rewrite !length_app, !le_bytes_length; lia).
  assert (Hid : get16 extra 0 = 1).
  { unfold get16, u16. rewrite (read_le_split 2 extra [] 1 _ 0 Hx); [reflexivity|reflexivity|].
    cbn. lia. }
  assert (Hsz : get16 extra 2 = Z.of_nat (length d)).
  { unfold get16, u16. rewrite (read_le_split 2 extra (le_bytes 2 1) _ _ 2 Hx); [reflexivity|reflexivity|].
    cbn. lia. }
  unfold parseZip64Extra. cbn [parseZip64Extra_loop].
  rewrite (proj2 (Z.leb_le (0 + 4) _)) by lia.
  change (0 + 2) with 2. change (0 + 4) with 4. rewrite Hid, Hsz.
  rewrite Z.gtb_ltb, (proj2 (Z.ltb_ge _ _)) by lia.
  rewrite Z.eqb_refl.
  destruct wantU, wantC; cbn [res_bind res_map of_option]; unfold u64.
  - erewrite (read_le_split 8 extra (le_bytes 2 1 ++ le_bytes 2 (Z.of_nat (length d))) us);
      [| subst extra; unfold d; app_eq | rewrite !length_app, !le_bytes_length; reflexivity
       | exact Hu].
    erewrite (read_le_split 8 extra (le_bytes 2 1 ++ le_bytes 2 (Z.of_nat (length d)) ++
                                     le_bytes 8 us) cs);
      [reflexivity | subst extra; unfold d; app_eq
      | rewrite !length_app, !le_bytes_length; reflexivity | exact Hc].
  - erewrite (read_le_split 8 extra (le_bytes 2 1 ++ le_bytes 2 (Z.of_nat (length d))) us);
      [reflexivity | subst extra; unfold d; app_eq
      | rewrite !length_app, !le_bytes_length; reflexivity | exact Hu].
  - erewrite (read_le_split 8 extra (le_bytes 2 1 ++ le_bytes 2 (Z.of_nat (length d))) cs);
      [reflexivity | subst extra; unfold d; app_eq
      | rewrite !length_app, !le_bytes_length; reflexivity | exact Hc].
  - reflexivity.
Qed.

Ltac read_at b dd pre x Hx :=
  erewrite (read_le_split 8 b pre x);
    [| subst b; unfold dd; app_eq | reflexivity | exact Hx].

(** [parseExtraZip64] reads a Zip64 field (id 1) at the start of a
    central directory entry's extra data: the uncompressed size, the
    compressed size and the local header offset, 8 bytes each, in this
    order, each present only when asked for. *)
Theorem parseExtraZip64_reads_record (wantU wantC wantOff : bool) (us cs off : Z)
    (pad rest : buffer) :
  let d := (if wantU then le_bytes 8 us else []) ++ (if wantC then le_bytes 8 cs else []) ++
           (if wantOff then le_bytes 8 off else []) ++ pad in
  0 <= us < 2 ^ 64 -> 0 <= cs < 2 ^ 64 -> 0 <= off < 2 ^ 64 ->
  Z.of_nat (length d) < 65536 ->
  parseExtraZip64 (le_bytes 2 1 ++ le_bytes 2 (Z.of_nat (length d)) ++ d ++ rest)
    wantU wantC wantOff
  = Ok (if wantU then Some us else None, if wantC then Some cs else None,
        if wantOff then Some off else None).
Proof.
  intros d Hu Hc Ho Hd.
  remember (le_bytes 2 1 ++ le_bytes 2 (Z.of_nat (length d)) ++ d ++ rest) as extra eqn:Hx.
  assert (Hlen : Z.of_nat (length extra) = 4 + Z.of_nat (length d) + Z.of_nat (length rest))
    by (subst extra; rewrite !length_app, !le_bytes_length; lia).
  assert (Hid : get16 extra 0 = 1).
  { unfold get16, u16. rewrite (read_le_split 2 extra [] 1 _ 0 Hx); [reflexivity|reflexivity|].
    cbn. lia. }
  assert (Hsz : get16 extra 2 = Z.of_nat (length d)).
  { unfold get16, u16. rewrite (read_le_split 2 extra (le_bytes 2 1) _ _ 2 Hx); [reflexivity|reflexivity|].
    cbn. lia. }
  unfold parseExtraZip64. cbn [parseExtraZip64_loop].
  rewrite (proj2 (Z.leb_le (0 + 4) _)) by lia.
  change (0 + 2) with 2. change (0 + 4) with 4. rewrite Hid, Hsz.
  rewrite Z.gtb_ltb, (proj2 (Z.ltb_ge _ _)) by lia.
  rewrite Z.eqb_refl.
  set (A := le_bytes 2 1 ++ le_bytes 2 (Z.of_nat (length d))).
  destruct wantU, wantC, wantOff; cbn [res_bind res_map of_option]; unfold u64.
  - read_at extra d A us Hu. read_at extra d (A ++ le_bytes 8 us) cs Hc.
    read_at extra d (A ++ le_bytes 8 us ++ le_bytes 8 cs) off Ho. reflexivity.
  - read_at extra d A us Hu. read_at extra d (A ++ le_bytes 8 us) cs Hc. reflexivity.
  - read_at extra d A us Hu. read_at extra d (A ++ le_bytes 8 us) off Ho. reflexivity.
  - read_at extra d A us Hu. reflexivity.
  - read_at extra d A cs Hc. read_at extra d (A ++ le_bytes 8 cs) off Ho. reflexivity.
  - read_at extra d A cs Hc. reflexivity.
  - read_at extra d A off Ho. reflexivity.
  - reflexivity.
Qed.

Lemma parseUnicodePath_first_field (ver : Z) (crc name rest : buffer) :
  length crc = 4%nat -> 5 + Z.of_nat (length name) < 65536 ->
  parseUnicodePath (le_bytes 2 0x7075 ++ le_bytes 2 (5 + Z.of_nat (length name)) ++
                    ver :: crc ++ name ++ rest)
  = if ver =? 1 then Some name else None.
Proof.
  intros Hcrc Hn.
  remember (le_bytes 2 0x7075 ++ le_bytes 2 (5 + Z.of_nat (length name)) ++
            ver :: crc ++ name ++ rest) as extra eqn:Hx.
  assert (Hlen : Z.of_nat (length extra) = 9 + Z.of_nat (length name) + Z.of_nat (length rest))
    by (subst extra; rewrite !length_app, !le_bytes_length; cbn [length];
        rewrite !length_app, Hcrc; lia).
  assert (Hid : get16 extra 0 = 0x7075).
  { unfold get16, u16. rewrite (read_le_split 2 extra [] 0x7075 _ 0 Hx); [reflexivity|reflexivity|].
    cbn. lia. }
  assert (Hsz : get16 extra 2 = 5 + Z.of_nat (length name)).
  { unfold get16, u16. rewrite (read_le_split 2 extra (le_bytes 2 0x7075) _ _ 2 Hx);
      [reflexivity|reflexivity|]. cbn. lia. }
  assert (Hver : nth (Z.to_nat 4) extra 0 = ver) by (subst extra; reflexivity).
  unfold parseUnicodePath. cbn [parseUnicodePath_loop].
  rewrite (proj2 (Z.leb_le (0 + 4) _)) by lia.
  change (0 + 2) with 2. change (0 + 4) with 4. rewrite Hid, Hsz.
  rewrite Z.gtb_ltb, (proj2 (Z.ltb_ge _ _)) by lia.
  rewrite Z.eqb_refl, (proj2 (Z.leb_le 5 _)) by lia. cbn [andb].
  rewrite Hver. destruct (ver =? 1); [|reflexivity]. cbn [negb].
  f_equal. unfold subarray.
  rewrite !Z.max_r by lia.
  replace (Z.to_nat (4 + (5 + Z.of_nat (length name))) - Z.to_nat (4 + 5))%nat
    with (length name) by lia.
  subst extra. change (Z.to_nat (4 + 5)) with 9%nat.
  match goal with |- take _ (drop _ (?a ++ ?b ++ ver :: crc ++ name ++ rest)) = _ =>
    replace (a ++ b ++ ver :: crc ++ name ++ rest) with ((a ++ b ++ ver :: crc) ++ name ++ rest)
      by app_eq end.
  rewrite drop_app_length'.
  - apply take_app_length'. reflexivity.
  - rewrite !length_app, !le_bytes_length. cbn [length]. rewrite Hcrc. reflexivity.
Qed.

(** [parseUnicodePath] reads an Info-ZIP Unicode Path field (id 0x7075)
    at the start of the extra data: after its version byte and 4-byte
    CRC come the UTF-8 name bytes, taken when the version is 1; any
    other version gives no override. *)
Theorem parseUnicodePath_reads_record (ver : Z) (crc name rest : buffer) :
  length crc = 4%nat -> 5 + Z.of_nat (length name) < 65536 ->
  parseUnicodePath (le_bytes 2 0x7075 ++ le_bytes 2 (5 + Z.of_nat (length name)) ++
                    ver :: crc ++ name ++ rest)
  = if ver =? 1 then Some name else None.
Proof. apply parseUnicodePath_first_field. Qed.


Lemma parseZip64Extra_reads_record_witness :
  parseZip64Extra (le_bytes 2 1 ++ le_bytes 2 9 ++ (le_bytes 8 3 ++ [9]) ++ [7]) true false
  = Ok (None, Some 3).
Proof.
  apply (parseZip64Extra_reads_record true false 5 3 [9] [7]);
    first [lia | vm_compute; reflexivity].
Defined.

Lemma parseExtraZip64_reads_record_witness :
  parseExtraZip64 (le_bytes 2 1 ++ le_bytes 2 16 ++ (le_bytes 8 5 ++ le_bytes 8 77) ++ [7])
    true false true
  = Ok (Some 5, None, Some 77).
Proof.
  apply (parseExtraZip64_reads_record true false true 5 3 77 [] [7]);
    first [lia | vm_compute; reflexivity].
Defined.

Lemma parseUnicodePath_reads_record_witness :
  parseUnicodePath (le_bytes 2 0x7075 ++ le_bytes 2 10 ++ 1 :: [0; 0; 0; 0] ++ s2z "a.txt" ++ [])
  = Some (s2z "a.txt").
Proof.
  apply (parseUnicodePath_reads_record 1 [0; 0; 0; 0] (s2z "a.txt") []);
    first [reflexivity | vm_compute; reflexivity].
Defined.


(* --------------------------------------------------------------------- *)
(* Extra fields: skipping the other fields                               *)
(* --------------------------------------------------------------------- *)

Lemma read_le_shift n pre b off :
  0 <= off -> read_le n (pre ++ b) (Z.of_nat (length pre) + off) = read_le n b off.
Proof.
  intros Ho. unfold read_le. rewrite length_app, Nat2Z.inj_add.
  replace ((0 <=? Z.of_nat (length pre) + off) &&
           (Z.of_nat (length pre) + off + Z.of_nat n <=?
            Z.of_nat (length pre) + Z.of_nat (length b)))
    with ((0 <=? off) && (off + Z.of_nat n <=? Z.of_nat (length b))).
  2:{ rewrite !(proj2 (Z.leb_le 0 _)) by lia. simpl.
      destruct (Z.leb_spec (off + Z.of_nat n) (Z.of_nat (length b))),
        (Z.leb_spec (Z.of_nat (length pre) + off + Z.of_nat n)
                    (Z.of_nat (length pre) + Z.of_nat (length b))); lia. }
  destruct (_ && _); [|reflexivity].
  rewrite Z2Nat.inj_add, Nat2Z.id, drop_app_add by lia. reflexivity.
Qed.

Lemma get16_shift pre b off :
  0 <= off -> get16 (pre ++ b) (Z.of_nat (length pre) + off) = get16 b off.
Proof. intros Ho. unfold get16, u16. rewrite read_le_shift by exact Ho. reflexivity. Qed.

Lemma leb_shift (P a c : Z) : (P + a <=? P + c) = (a <=? c).
Proof. destruct (Z.leb_spec (P + a) (P + c)), (Z.leb_spec a c); lia. Qed.

Lemma gtb_shift (P a c : Z) : (P + a >? P + c) = (a >? c).
Proof. rewrite !Z.gtb_ltb. destruct (Z.ltb_spec (P + c) (P + a)), (Z.ltb_spec c a); lia. Qed.

Section Zip64Loop.
Variables (wantC wantU : bool).

Lemma parseZip64Extra_loop_shift pre b :
  Forall byte_range b -> forall f off, 0 <= off ->
  parseZip64Extra_loop f (pre ++ b) (Z.of_nat (length pre) + off) wantC wantU
  = parseZip64Extra_loop f b off wantC wantU.
Proof.
  intros Hb f. induction f as [|f IH]; intros off Ho; [reflexivity|].
  cbn [parseZip64Extra_loop]. rewrite length_app, Nat2Z.inj_add.
  replace (Z.of_nat (length pre) + off + 4) with (Z.of_nat (length pre) + (off + 4)) by lia. rewrite leb_shift.
  destruct (Z.leb_spec (off + 4) (Z.of_nat (length b))); [|reflexivity].
  replace (Z.of_nat (length pre) + off + 2) with (Z.of_nat (length pre) + (off + 2)) by lia.
  rewrite !get16_shift by lia.
  replace (Z.of_nat (length pre) + (off + 4) + get16 b (off + 2)) with (Z.of_nat (length pre) + (off + 4 + get16 b (off + 2))) by lia.
  rewrite gtb_shift. destruct (_ >? _); [reflexivity|].
  destruct (_ =? 1).
  - unfold u64. destruct wantU, wantC; cbn [res_bind];
      rewrite ?(read_le_shift 8 pre b (off + 4)) by lia;
      try (replace (Z.of_nat (length pre) + (off + 4) + 8) with (Z.of_nat (length pre) + (off + 4 + 8)) by lia;
           rewrite (read_le_shift 8 pre b (off + 4 + 8)) by lia);
      reflexivity.
  - apply IH. pose proof (get16_nonneg b (off + 2) Hb). lia.
Qed.

Lemma parseZip64Extra_loop_fuel b :
  Forall byte_range b -> forall f1 f2 off,
  Z.of_nat (length b) - off < Z.of_nat f1 -> Z.of_nat (length b) - off < Z.of_nat f2 ->
  parseZip64Extra_loop f1 b off wantC wantU = parseZip64Extra_loop f2 b off wantC wantU.
Proof.
  intros Hb f1. induction f1 as [|f1 IH]; intros f2 off H1 H2.
  - destruct f2 as [|f2]; [reflexivity|]. cbn [parseZip64Extra_loop].
    rewrite (proj2 (Z.leb_gt _ _)) by lia. reflexivity.
  - destruct f2 as [|f2].
    + cbn [parseZip64Extra_loop]. rewrite (proj2 (Z.leb_gt _ _)) by lia. reflexivity.
    + cbn [parseZip64Extra_loop].
      destruct (Z.leb_spec (off + 4) (Z.of_nat (length b))); [|reflexivity].
      destruct (_ >? _); [reflexivity|]. destruct (_ =? 1); [reflexivity|].
      pose proof (get16_nonneg b (off + 2) Hb). apply IH; lia.
Qed.

End Zip64Loop.

(** [parseZip64Extra] steps over a field with another id: the Zip64
    sizes are looked for in the fields that follow it. *)
Theorem parseZip64Extra_skips_field (wantC wantU : bool) (id : Z) (d extra : buffer) :
  id <> 1 -> 0 <= id < 65536 -> Z.of_nat (length d) < 65536 -> Forall byte_range extra ->
  parseZip64Extra (le_bytes 2 id ++ le_bytes 2 (Z.of_nat (length d)) ++ d ++ extra) wantC wantU
  = parseZip64Extra extra wantC wantU.
Proof.
  intros Hid Hr Hd Hb.
  remember (le_bytes 2 id ++ le_bytes 2 (Z.of_nat (length d)) ++ d ++ extra) as full eqn:Hx.
  assert (Hlen : Z.of_nat (length full) = 4 + Z.of_nat (length d) + Z.of_nat (length extra))
    by (subst full; rewrite !length_app, !le_bytes_length; lia).
  assert (Hg0 : get16 full 0 = id).
  { unfold get16, u16. rewrite (read_le_split 2 full [] id _ 0 Hx); [reflexivity|reflexivity|].
    cbn. lia. }
  assert (Hg2 : get16 full 2 = Z.of_nat (length d)).
  { unfold get16, u16. rewrite (read_le_split 2 full (le_bytes 2 id) _ _ 2 Hx); [reflexivity|reflexivity|].
    cbn. lia. }
  unfold parseZip64Extra at 1. cbn [parseZip64Extra_loop].
  rewrite (proj2 (Z.leb_le (0 + 4) _)) by lia.
  change (0 + 2) with 2. change (0 + 4) with 4. rewrite Hg0, Hg2.
  rewrite Z.gtb_ltb, (proj2 (Z.ltb_ge _ _)) by lia.
  rewrite (proj2 (Z.eqb_neq _ _) Hid).
  replace full with ((le_bytes 2 id ++ le_bytes 2 (Z.of_nat (length d)) ++ d) ++ extra)
    by (subst full; app_eq).
  replace (4 + Z.of_nat (length d))
    with (Z.of_nat (length (le_bytes 2 id ++ le_bytes 2 (Z.of_nat (length d)) ++ d)) + 0)
    by (rewrite !length_app, !le_bytes_length; lia).
  rewrite parseZip64Extra_loop_shift by (exact Hb || lia).
  unfold parseZip64Extra. apply parseZip64Extra_loop_fuel; [exact Hb| |];
    rewrite ?length_app, ?le_bytes_length; lia.
Qed.


Section CentralZip64Loop.
Variables (wantU wantC wantOff : bool).

Lemma parseExtraZip64_loop_shift pre b :
  Forall byte_range b -> forall f off, 0 <= off ->
  parseExtraZip64_loop f (pre ++ b) (Z.of_nat (length pre) + off) wantU wantC wantOff
  = parseExtraZip64_loop f b off wantU wantC wantOff.
Proof.
  intros Hb f. induction f as [|f IH]; intros off Ho; [reflexivity|].
  cbn [parseExtraZip64_loop]. rewrite length_app, Nat2Z.inj_add.
  replace (Z.of_nat (length pre) + off + 4) with (Z.of_nat (length pre) + (off + 4)) by lia.
  rewrite leb_shift.
  destruct (Z.leb_spec (off + 4) (Z.of_nat (length b))); [|reflexivity].
  replace (Z.of_nat (length pre) + off + 2) with (Z.of_nat (length pre) + (off + 2)) by lia.
  rewrite !get16_shift by lia.
  replace (Z.of_nat (length pre) + (off + 4) + get16 b (off + 2))
    with (Z.of_nat (length pre) + (off + 4 + get16 b (off + 2))) by lia.
  rewrite gtb_shift. destruct (_ >? _); [reflexivity|].
  destruct (_ =? 1).
  - unfold u64. destruct wantU, wantC, wantOff; cbn [res_bind];
      rewrite <- ?Z.add_assoc; rewrite ?read_le_shift by lia; reflexivity.
  - apply IH. pose proof (get16_nonneg b (off + 2) Hb). lia.
Qed.

Lemma parseExtraZip64_loop_fuel b :
  Forall byte_range b -> forall f1 f2 off,
  Z.of_nat (length b) - off < Z.of_nat f1 -> Z.of_nat (length b) - off < Z.of_nat f2 ->
  parseExtraZip64_loop f1 b off wantU wantC wantOff
  = parseExtraZip64_loop f2 b off wantU wantC wantOff.
Proof.
  intros Hb f1. induction f1 as [|f1 IH]; intros f2 off H1 H2.
  - destruct f2 as [|f2]; [reflexivity|]. cbn [parseExtraZip64_loop].
    rewrite (proj2 (Z.leb_gt _ _)) by lia. reflexivity.
  - destruct f2 as [|f2].
    + cbn [parseExtraZip64_loop]. rewrite (proj2 (Z.leb_gt _ _)) by lia. reflexivity.
    + cbn [parseExtraZip64_loop].
      destruct (Z.leb_spec (off + 4) (Z.of_nat (length b))); [|reflexivity].
      destruct (_ >? _); [reflexivity|]. destruct (_ =? 1); [reflexivity|].
      pose proof (get16_nonneg b (off + 2) Hb). apply IH; lia.
Qed.

End CentralZip64Loop.

(** [parseExtraZip64] steps over a field with another id: the Zip64
    values of a central directory entry are looked for in the fields
    that follow it. *)
Theorem parseExtraZip64_skips_field (wantU wantC wantOff : bool) (id : Z) (d extra : buffer) :
  id <> 1 -> 0 <= id < 65536 -> Z.of_nat (length d) < 65536 -> Forall byte_range extra ->
  parseExtraZip64 (le_bytes 2 id ++ le_bytes 2 (Z.of_nat (length d)) ++ d ++ extra)
    wantU wantC wantOff
  = parseExtraZip64 extra wantU wantC wantOff.
Proof.
  intros Hid Hr Hd Hb.
  remember (le_bytes 2 id ++ le_bytes 2 (Z.of_nat (length d)) ++ d ++ extra) as full eqn:Hx.
  assert (Hlen : Z.of_nat (length full) = 4 + Z.of_nat (length d) + Z.of_nat (length extra))
    by (subst full; rewrite !length_app, !le_bytes_length; lia).
  assert (Hg0 : get16 full 0 = id).
  { unfold get16, u16. rewrite (read_le_split 2 full [] id _ 0 Hx); [reflexivity|reflexivity|].
    cbn. lia. }
  assert (Hg2 : get16 full 2 = Z.of_nat (length d)).
  { unfold get16, u16. rewrite (read_le_split 2 full (le_bytes 2 id) _ _ 2 Hx); [reflexivity|reflexivity|].
    cbn. lia. }
  unfold parseExtraZip64 at 1. cbn [parseExtraZip64_loop].
  rewrite (proj2 (Z.leb_le (0 + 4) _)) by lia.
  change (0 + 2) with 2. change (0 + 4) with 4. rewrite Hg0, Hg2.
  rewrite Z.gtb_ltb, (proj2 (Z.ltb_ge _ _)) by lia.
  rewrite (proj2 (Z.eqb_neq _ _) Hid).
  replace full with ((le_bytes 2 id ++ le_bytes 2 (Z.of_nat (length d)) ++ d) ++ extra)
    by (subst full; app_eq).
  replace (4 + Z.of_nat (length d))
    with (Z.of_nat (length (le_bytes 2 id ++ le_bytes 2 (Z.of_nat (length d)) ++ d)) + 0)
    by (rewrite !length_app, !le_bytes_length; lia).
  rewrite parseExtraZip64_loop_shift by (exact Hb || lia).
  unfold parseExtraZip64. apply parseExtraZip64_loop_fuel; [exact Hb| |];
    rewrite ?length_app, ?le_bytes_length; lia.
Qed.

(* The Unicode Path field *)

Lemma nth_shift pre b x : 0 <= x -> nth (Z.to_nat (Z.of_nat (length pre) + x)) (pre ++ b) 0 = nth (Z.to_nat x) b 0.
Proof. intros Hx. rewrite Z2Nat.inj_add, Nat2Z.id by lia. apply app_nth2_plus. Qed.

Lemma subarray_shift pre b a e :
  0 <= a -> 0 <= e ->
  subarray (pre ++ b) (Z.of_nat (length pre) + a) (Z.of_nat (length pre) + e) = subarray b a e.
Proof.
  intros Ha He. unfold subarray. rewrite !Z.max_r by lia.
  rewrite !Z2Nat.inj_add, !Nat2Z.id by lia.
  replace (length pre + Z.to_nat e - (length pre + Z.to_nat a))%nat
    with (Z.to_nat e - Z.to_nat a)%nat by lia.
  rewrite drop_app_add. reflexivity.
Qed.

Lemma parseUnicodePath_loop_shift pre b :
  Forall byte_range b -> forall f off, 0 <= off ->
  parseUnicodePath_loop f (pre ++ b) (Z.of_nat (length pre) + off)
  = parseUnicodePath_loop f b off.
Proof.
  intros Hb f. induction f as [|f IH]; intros off Ho; [reflexivity|].
  cbn [parseUnicodePath_loop]. rewrite length_app, Nat2Z.inj_add.
  replace (Z.of_nat (length pre) + off + 4) with (Z.of_nat (length pre) + (off + 4)) by lia.
  rewrite leb_shift.
  destruct (Z.leb_spec (off + 4) (Z.of_nat (length b))); [|reflexivity].
  replace (Z.of_nat (length pre) + off + 2) with (Z.of_nat (length pre) + (off + 2)) by lia.
  rewrite !get16_shift by lia.
  pose proof (get16_nonneg b (off + 2) Hb).
  replace (Z.of_nat (length pre) + (off + 4) + get16 b (off + 2))
    with (Z.of_nat (length pre) + (off + 4 + get16 b (off + 2))) by lia.
  rewrite gtb_shift. destruct (_ >? _); [reflexivity|].
  destruct (_ && _).
  - rewrite nth_shift by lia.
    replace (Z.of_nat (length pre) + (off + 4) + 5) with (Z.of_nat (length pre) + (off + 4 + 5))
      by lia.
    rewrite subarray_shift by lia. reflexivity.
  - apply IH. lia.
Qed.

Lemma parseUnicodePath_loop_fuel b :
  Forall byte_range b -> forall f1 f2 off,
  Z.of_nat (length b) - off < Z.of_nat f1 -> Z.of_nat (length b) - off < Z.of_nat f2 ->
  parseUnicodePath_loop f1 b off = parseUnicodePath_loop f2 b off.
Proof.
  intros Hb f1. induction f1 as [|f1 IH]; intros f2 off H1 H2.
  - destruct f2 as [|f2]; [reflexivity|]. cbn [parseUnicodePath_loop].
    rewrite (proj2 (Z.leb_gt _ _)) by lia. reflexivity.
  - destruct f2 as [|f2].
    + cbn [parseUnicodePath_loop]. rewrite (proj2 (Z.leb_gt _ _)) by lia. reflexivity.
    + cbn [parseUnicodePath_loop].
      destruct (Z.leb_spec (off + 4) (Z.of_nat (length b))); [|reflexivity].
      destruct (_ >? _); [reflexivity|]. destruct (_ && _); [reflexivity|].
      pose proof (get16_nonneg b (off + 2) Hb). apply IH; lia.
Qed.

(** [parseUnicodePath] steps over a field with another id, or a field
    0x7075 too short to hold a version and a CRC (fewer than 5 bytes):
    the override is looked for in the fields that follow it. *)
Theorem parseUnicodePath_skips_field (id : Z) (d extra : buffer) :
  (id <> 0x7075 \/ Z.of_nat (length d) < 5) ->
  0 <= id < 65536 -> Z.of_nat (length d) < 65536 -> Forall byte_range extra ->
  parseUnicodePath (le_bytes 2 id ++ le_bytes 2 (Z.of_nat (length d)) ++ d ++ extra)
  = parseUnicodePath extra.
Proof.
  intros Hid Hr Hd Hb.
  remember (le_bytes 2 id ++ le_bytes 2 (Z.of_nat (length d)) ++ d ++ extra) as full eqn:Hx.
  assert (Hlen : Z.of_nat (length full) = 4 + Z.of_nat (length d) + Z.of_nat (length extra))
    by (subst full; rewrite !length_app, !le_bytes_length; lia).
  assert (Hg0 : get16 full 0 = id).
  { unfold get16, u16. rewrite (read_le_split 2 full [] id _ 0 Hx); [reflexivity|reflexivity|].
    cbn. lia. }
  assert (Hg2 : get16 full 2 = Z.of_nat (length d)).
  { unfold get16, u16. rewrite (read_le_split 2 full (le_bytes 2 id) _ _ 2 Hx); [reflexivity|reflexivity|].
    cbn. lia. }
  unfold parseUnicodePath at 1. cbn [parseUnicodePath_loop].
  rewrite (proj2 (Z.leb_le (0 + 4) _)) by lia.
  change (0 + 2) with 2. change (0 + 4) with 4. rewrite Hg0, Hg2.
  rewrite Z.gtb_ltb, (proj2 (Z.ltb_ge _ _)) by lia.
  replace ((id =? 0x7075) && (5 <=? Z.of_nat (length d))) with false
    by (symmetry; apply andb_false_iff; destruct Hid as [Hid|Hid];
        [left; apply Z.eqb_neq, Hid | right; apply Z.leb_gt, Hid]).
  replace full with ((le_bytes 2 id ++ le_bytes 2 (Z.of_nat (length d)) ++ d) ++ extra)
    by (subst full; app_eq).
  replace (4 + Z.of_nat (length d))
    with (Z.of_nat (length (le_bytes 2 id ++ le_bytes 2 (Z.of_nat (length d)) ++ d)) + 0)
    by (rewrite !length_app, !le_bytes_length; lia).
  rewrite parseUnicodePath_loop_shift by (exact Hb || lia).
  unfold parseUnicodePath. apply parseUnicodePath_loop_fuel; [exact Hb| |];
    rewrite ?length_app, ?le_bytes_length; lia.
Qed.


(** Witness: a 0x5455 (extended timestamp) field before a Zip64 field. *)
Lemma parseZip64Extra_skips_field_witness :
  parseZip64Extra (le_bytes 2 0x5455 ++ le_bytes 2 3 ++ [1; 2; 3] ++
                   (le_bytes 2 1 ++ le_bytes 2 8 ++ le_bytes 8 5)) false true
  = parseZip64Extra (le_bytes 2 1 ++ le_bytes 2 8 ++ le_bytes 8 5) false true.
Proof.
  apply (parseZip64Extra_skips_field false true 0x5455 [1; 2; 3]); [lia | lia | cbn; lia |].
  apply (bool_decide_unpack _). vm_compute. reflexivity.
Defined.

(** Witness: the same on a central directory entry. *)
Lemma parseExtraZip64_skips_field_witness :
  parseExtraZip64 (le_bytes 2 0x5455 ++ le_bytes 2 3 ++ [1; 2; 3] ++
                   (le_bytes 2 1 ++ le_bytes 2 8 ++ le_bytes 8 5)) false false true
  = parseExtraZip64 (le_bytes 2 1 ++ le_bytes 2 8 ++ le_bytes 8 5) false false true.
Proof.
  apply (parseExtraZip64_skips_field false false true 0x5455 [1; 2; 3]);
    [lia | lia | cbn; lia |].
  apply (bool_decide_unpack _). vm_compute. reflexivity.
Defined.

(** Witness: a 0x7075 field of 4 bytes is skipped for the next one. *)
Lemma parseUnicodePath_skips_field_witness :
  parseUnicodePath (le_bytes 2 0x7075 ++ le_bytes 2 4 ++ [1; 0; 0; 0] ++
                    (le_bytes 2 0x7075 ++ le_bytes 2 6 ++ [1; 0; 0; 0; 0; 97]))
  = parseUnicodePath (le_bytes 2 0x7075 ++ le_bytes 2 6 ++ [1; 0; 0; 0; 0; 97]).
Proof.
  apply (parseUnicodePath_skips_field 0x7075 [1; 0; 0; 0]); [right; cbn; lia | lia | cbn; lia |].
  apply (bool_decide_unpack _). vm_compute. reflexivity.
Defined.

(* --------------------------------------------------------------------- *)
(* Central directory names                                               *)
(* --------------------------------------------------------------------- *)

(** [decodeName]: an entry whose extra data starts with a version-1
    Unicode Path field is named by that field's bytes, decoded as UTF-8,
    unless general purpose flag bit 11 (UTF-8 names) is set, in which
    case the name bytes themselves are decoded as UTF-8; the Shift-JIS
    decoder is not consulted in either case. *)
Theorem decodeName_unicode_path (E : env) (nameBytes : buffer) (flags : Z)
    (crc name rest : buffer) :
  length crc = 4%nat -> 5 + Z.of_nat (length name) < 65536 ->
  decodeName E nameBytes flags
    (le_bytes 2 0x7075 ++ le_bytes 2 (5 + Z.of_nat (length name)) ++ 1 :: crc ++ name ++ rest)
  = if Z.testbit flags 11 then utf8_decode nameBytes else utf8_decode name.
Proof.
  intros Hcrc Hn. unfold decodeName.
  rewrite (parseUnicodePath_first_field 1 crc name rest Hcrc Hn). reflexivity.
Qed.

Lemma decodeName_unicode_path_witness :
  decodeName fixture_env (s2z "a.txt") 0
    (le_bytes 2 0x7075 ++ le_bytes 2 (5 + Z.of_nat (length (s2z "b.txt"))) ++
     1 :: [0; 0; 0; 0] ++ s2z "b.txt" ++ [])
  = utf8_decode (s2z "b.txt").
Proof.
  apply (decodeName_unicode_path fixture_env (s2z "a.txt") 0 [0; 0; 0; 0] (s2z "b.txt") []);
    [reflexivity | cbn; lia].
Defined.
